(** * transcription_helpers: the transcript acquisition pipeline

    A shallow embedding of [transcript_downloader.py] and
    [podcast_transcriber.py], and what holds of it.

    Conventions of the model.
    - A Python [str] is a [string]; a character is a code point below 256
      (the Latin-1 range), on which [\s], [\w], [str.lower] and
      [str.strip] are written out as CPython defines them.
    - The patterns of the source are terms of a small regular-expression
      type ([Re.regex]) run by a backtracking matcher.
    - The external collaborators ([requests], [json.loads], [urlparse],
      [yt-dlp], [whisper], the Whishper server, [YouTubeTranscriptApi] and
      its formatters) are the fields of an environment record; they answer
      the same way each time they are asked the same thing.  The calls that
      leave the process (network, engines, [yt-dlp]) are recorded in a log.
    - A computation with effects is a function from the world (disk, log of
      calls, standard error) to a result and a world; a result is a value
      or an exception, [SystemExit] included.
    - The disk is the finite set of the paths of the files that exist.  A
      path is kept in the normal form of [pathlib]: a root and the
      components between the slashes, without the empty ones and without
      [.].  Neither [..] nor links are resolved and a relative path is not
      made absolute, so two paths name one file when their normal forms
      are equal.
    - Making the directory of a file to write and opening a file for
      writing can fail: the environment says, from the disk and the path,
      whether the call is refused and with which message.  A file is
      opened for reading when it is on the disk, and not otherwise.  The
      directory that [transcript_downloader] makes for the audio under the
      temporary directory of the system is taken to be there; [exists] and
      [unlink] do not fail.
    - [print] to standard output and the progress display of a download are
      not modelled; what is printed to standard error is. *)

From Stdlib Require Import String Ascii List ZArith Lia Bool.
From Stdlib Require Import Floats.SpecFloat.
From stdpp Require Import base gmap sets strings.
Import ListNotations.
Open Scope string_scope.
Set Warnings "-register-all".

(* ================================================================= *)
(** ** Characters and strings *)

Module Chars.

Definition code (c : ascii) : nat := nat_of_ascii c.

Definition in_range (lo hi : nat) (c : ascii) : bool :=
  Nat.leb lo (code c) && Nat.leb (code c) hi.

Definition is_char (a c : ascii) : bool := Nat.eqb (code a) (code c).

Definition lower_az : ascii -> bool := in_range 97 122.
Definition upper_az : ascii -> bool := in_range 65 90.
Definition digit : ascii -> bool := in_range 48 57.

(** [[a-zA-Z0-9_-]], the same set as [[0-9A-Za-z_-]]. *)
Definition idchar (c : ascii) : bool :=
  lower_az c || upper_az c || digit c || is_char "_" c || is_char "-" c.

(** [[a-f0-9]] *)
Definition hexlower (c : ascii) : bool := in_range 97 102 c || digit c.

(** [\s] of a [str] pattern, i.e. [str.isspace], below code point 256. *)
Definition space (c : ascii) : bool :=
  in_range 9 13 c || in_range 28 32 c || Nat.eqb (code c) 133
  || Nat.eqb (code c) 160.

(** [\w] of a [str] pattern below code point 256: [str.isalnum] or [_]. *)
Definition word (c : ascii) : bool :=
  lower_az c || upper_az c || digit c || is_char "_" c
  || Nat.eqb (code c) 170 || Nat.eqb (code c) 178 || Nat.eqb (code c) 179
  || Nat.eqb (code c) 181 || Nat.eqb (code c) 185 || Nat.eqb (code c) 186
  || in_range 188 190 c || in_range 192 214 c || in_range 216 246 c
  || in_range 248 255 c.

(** The class excluding [\s], [<], [>] and the double quote. *)
Definition url_char (c : ascii) : bool :=
  negb (space c || is_char "<" c || is_char ">" c || Nat.eqb (code c) 34).

(** [.] under [re.DOTALL] and without it. *)
Definition any (_ : ascii) : bool := true.
Definition not_newline (c : ascii) : bool := negb (Nat.eqb (code c) 10).

(** [str.lower] on one code point below 256. *)
Definition lower_char (c : ascii) : ascii :=
  if upper_az c || (in_range 192 222 c && negb (Nat.eqb (code c) 215))
  then ascii_of_nat (code c + 32) else c.

End Chars.

(** The double quote, which cannot be written inside a literal. *)
Definition dq : string := String (ascii_of_nat 34) "".

(** The newline. *)
Definition nl : string := String (ascii_of_nat 10) "".

Fixpoint lower (s : string) : string :=
  match s with
  | EmptyString => EmptyString
  | String c s' => String (Chars.lower_char c) (lower s')
  end.

Fixpoint strip_prefix (p s : string) : option string :=
  match p, s with
  | EmptyString, _ => Some s
  | String a p', String b s' =>
      if Ascii.eqb a b then strip_prefix p' s' else None
  | String _ _, EmptyString => None
  end.

(** [sub in s] for two strings. *)
Fixpoint contains (sub s : string) : bool :=
  match strip_prefix sub s with
  | Some _ => true
  | None => match s with
            | EmptyString => false
            | String _ s' => contains sub s'
            end
  end.

Fixpoint string_forallb (p : ascii -> bool) (s : string) : bool :=
  match s with
  | EmptyString => true
  | String c s' => p c && string_forallb p s'
  end.

Fixpoint take (n : nat) (s : string) : string :=
  match n, s with
  | S n', String c s' => String c (take n' s')
  | _, _ => EmptyString
  end.

(** The text lying between a string [s] and one of its suffixes [rest]. *)
Definition consumed (s rest : string) : string :=
  take (String.length s - String.length rest) s.

(* ================================================================= *)
(** ** A backtracking matcher for the regular expressions of the source

    Only the constructs the source's patterns use.  Repetition is over a
    character class, which is all the patterns need.  The matcher tries the
    alternatives in the order Python's [re] does: the left branch of [|]
    first, as many iterations as possible first for a greedy repetition, as
    few as possible first for a lazy one. *)

Module Re.

Inductive regex : Type :=
| Eps
| Chr (p : ascii -> bool)
| Cat (r1 r2 : regex)
| Alt (r1 r2 : regex)
| Star (greedy : bool) (p : ascii -> bool)
| Grp (r : regex)
| Bol
| Eol.

Fixpoint Lit (s : string) : regex :=
  match s with
  | EmptyString => Eps
  | String c s' => Cat (Chr (Ascii.eqb c)) (Lit s')
  end.

Fixpoint Rep (n : nat) (r : regex) : regex :=
  match n with
  | O => Eps
  | S n' => Cat r (Rep n' r)
  end.

Definition Plus (p : ascii -> bool) : regex := Cat (Chr p) (Star true p).
Definition Opt (r : regex) : regex := Alt r Eps.

Section Matcher.
Context {R : Type}.

(** A continuation receives: whether the position is still the start of the
    subject, the text not consumed yet, the groups closed so far. *)
Definition kont : Type := bool -> string -> list string -> option R.

Definition or_else (x : option R) (y : unit -> option R) : option R :=
  match x with
  | Some v => Some v
  | None => y tt
  end.

Fixpoint star_run (greedy : bool) (p : ascii -> bool) (b : bool)
    (s : string) (k : bool -> string -> option R) : option R :=
  let more (_ : unit) :=
    match s with
    | String c s' => if p c then star_run greedy p false s' k else None
    | EmptyString => None
    end in
  if greedy then or_else (more tt) (fun _ => k b s)
  else or_else (k b s) more.

Fixpoint rmatch (r : regex) (b : bool) (s : string) (caps : list string)
    (k : kont) : option R :=
  match r with
  | Eps => k b s caps
  | Chr p =>
      match s with
      | String c s' => if p c then k false s' caps else None
      | EmptyString => None
      end
  | Cat r1 r2 => rmatch r1 b s caps (fun b' s' caps' => rmatch r2 b' s' caps' k)
  | Alt r1 r2 => or_else (rmatch r1 b s caps k) (fun _ => rmatch r2 b s caps k)
  | Star greedy p => star_run greedy p b s (fun b' s' => k b' s' caps)
  | Grp r1 =>
      rmatch r1 b s caps (fun b' s' caps' => k b' s' (caps' ++ [consumed s s'])%list)
  | Bol => if b then k b s caps else None
  | Eol =>
      (* [$] without MULTILINE: at the end, or before a final newline *)
      match s with
      | EmptyString => k b s caps
      | String c EmptyString =>
          if Nat.eqb (Chars.code c) 10 then k b s caps else None
      | _ => None
      end
  end.
End Matcher.

(** A match object: the text matched and the groups. *)
Record match_obj : Type := MatchObj { m_text : string; m_groups : list string }.

Definition group (i : nat) (m : match_obj) : string :=
  match i with
  | O => m_text m
  | S j => nth j (m_groups m) ""
  end.

Definition match_at (r : regex) (b : bool) (s : string) : option match_obj :=
  rmatch r b s [] (fun _ s' caps => Some (MatchObj (consumed s s') caps)).

(** [re.match(r, s)] *)
Definition re_match (r : regex) (s : string) : option match_obj :=
  match_at r true s.

Fixpoint search_from (r : regex) (b : bool) (s : string) : option match_obj :=
  match match_at r b s with
  | Some m => Some m
  | None =>
      match s with
      | EmptyString => None
      | String _ s' => search_from r false s'
      end
  end.

(** [re.search(r, s)] *)
Definition re_search (r : regex) (s : string) : option match_obj :=
  search_from r true s.

(** [re.findall(r, s)] seen as the list of match objects, left to right and
    not overlapping: after a match of [n] characters the scan resumes [n]
    characters further ([skip] counts the characters still to step over). *)
Fixpoint findall_from (r : regex) (b : bool) (skip : nat) (s : string)
    : list match_obj :=
  match skip with
  | S n =>
      match s with
      | EmptyString => []
      | String _ s' => findall_from r false n s'
      end
  | O =>
      match match_at r b s with
      | Some m =>
          m :: match s with
               | EmptyString => []
               | String _ s' =>
                   findall_from r false (String.length (m_text m) - 1) s'
               end
      | None =>
          match s with
          | EmptyString => []
          | String _ s' => findall_from r false 0 s'
          end
      end
  end.

(** [re.findall] returns the whole matches for a pattern without a group and
    the group for a pattern with one group. *)
Definition re_findall (r : regex) (s : string) : list string :=
  map (group 0) (findall_from r true 0 s).

Definition re_findall_group1 (r : regex) (s : string) : list string :=
  map (group 1) (findall_from r true 0 s).

End Re.
Import Re.

(* ================================================================= *)
(** ** Python values and exceptions *)

(** A value as [json.loads] produces it.  A dict is the list of its items;
    its keys are distinct, so the first item of a key is its only one. *)
Inductive pyval : Type :=
| PNone
| PBool (b : bool)
| PInt (z : Z)
| PFloat (f : spec_float)
| PStr (s : string)
| PList (l : list pyval)
| PDict (items : list (string * pyval)).

(** [bool(v)] *)
Definition truthy (v : pyval) : bool :=
  match v with
  | PNone => false
  | PBool b => b
  | PInt z => negb (Z.eqb z 0)
  | PFloat f => match f with S754_zero _ => false | _ => true end
  | PStr s => negb (String.eqb s "")
  | PList l => match l with [] => false | _ => true end
  | PDict d => match d with [] => false | _ => true end
  end.

(** [a or b] *)
Definition py_or (a b : pyval) : pyval := if truthy a then a else b.

Fixpoint dict_lookup (k : string) (d : list (string * pyval)) : option pyval :=
  match d with
  | [] => None
  | (k', v) :: d' => if String.eqb k k' then Some v else dict_lookup k d'
  end.

(** [k in d] *)
Definition dict_has (k : string) (d : list (string * pyval)) : bool :=
  match dict_lookup k d with Some _ => true | None => false end.

(** [d.get(k)] and [d.get(k, default)] *)
Definition dict_get (k : string) (d : list (string * pyval)) : pyval :=
  match dict_lookup k d with Some v => v | None => PNone end.

Definition dict_get_default (k : string) (d : list (string * pyval))
    (default : pyval) : pyval :=
  match dict_lookup k d with Some v => v | None => default end.

(** Exceptions: a class and the message [str(e)] gives.  The classes are the
    ones the source raises or catches, with Python's and [requests']
    subclassing; [OtherError] stands for any other subclass of [Exception]
    (a [TypeError] or [AttributeError] of the runtime, an [OSError], ...).
    [SystemExit], which [sys.exit] raises, is not a subclass of [Exception]. *)
Inductive exn_class : Type :=
| Exception
| ValueError
| JSONDecodeError
| RequestException
| Timeout
| ConnectionError
| ConnectTimeout
| CalledProcessError
| OtherError.

Inductive exn : Type :=
| Exn (c : exn_class) (msg : string)
| SystemExit (code : Z).

(** [str(e)]; for a [CalledProcessError] the message field holds [e.stderr],
    the only part of it the source reads. *)
Definition exn_msg (e : exn) : string :=
  match e with
  | Exn _ m => m
  | SystemExit _ => ""
  end.

(** [isinstance(e, c)] *)
Definition is_a (c : exn_class) (e : exn) : bool :=
  match e with
  | SystemExit _ => false
  | Exn c' _ =>
      match c, c' with
      | Exception, _ => true
      | ValueError, (ValueError | JSONDecodeError) => true
      | JSONDecodeError, JSONDecodeError => true
      | RequestException,
        (RequestException | Timeout | ConnectionError | ConnectTimeout) => true
      | Timeout, (Timeout | ConnectTimeout) => true
      | ConnectionError, (ConnectionError | ConnectTimeout) => true
      | ConnectTimeout, ConnectTimeout => true
      | CalledProcessError, CalledProcessError => true
      | OtherError, OtherError => true
      | _, _ => false
      end
  end.

Inductive result (A : Type) : Type :=
| Ok (a : A)
| Raise (e : exn).
Arguments Ok {A} a.
Arguments Raise {A} e.

(* ================================================================= *)
(** ** [transcript_downloader.extract_video_id] *)

Module VideoId.

(** [^[a-zA-Z0-9_-]{11}$] *)
Definition pat_id : regex :=
  Cat Bol (Cat (Rep 11 (Chr Chars.idchar)) Eol).

(** [(?:v=|\/)([0-9A-Za-z_-]{11}).*] *)
Definition pat_v : regex :=
  Cat (Alt (Lit "v=") (Lit "/"))
      (Cat (Grp (Rep 11 (Chr Chars.idchar))) (Star true Chars.not_newline)).

(** [(?:embed\/)([0-9A-Za-z_-]{11})] *)
Definition pat_embed : regex :=
  Cat (Lit "embed/") (Grp (Rep 11 (Chr Chars.idchar))).

(** [(?:watch\?v=)([0-9A-Za-z_-]{11})] *)
Definition pat_watch : regex :=
  Cat (Lit "watch?v=") (Grp (Rep 11 (Chr Chars.idchar))).

(** [^([0-9A-Za-z_-]{11})$] *)
Definition pat_bare : regex :=
  Cat Bol (Cat (Grp (Rep 11 (Chr Chars.idchar))) Eol).

Definition patterns : list regex := [pat_v; pat_embed; pat_watch; pat_bare].

(** The [for pattern in patterns] loop: the first pattern found wins. *)
Fixpoint first_group1 (ps : list regex) (url : string) : option string :=
  match ps with
  | [] => None
  | p :: ps' =>
      match re_search p url with
      | Some m => Some (group 1 m)
      | None => first_group1 ps' url
      end
  end.

Definition extract_video_id (url : string) : result string :=
  match re_match pat_id url with
  | Some _ => Ok url
  | None =>
      match first_group1 patterns url with
      | Some id => Ok id
      | None =>
          Raise (Exn ValueError ("Could not extract video ID from: " ++ url))
      end
  end.

End VideoId.

(* ================================================================= *)
(** ** The world, the collaborators and the effect monad *)

(** One entry per call to an external collaborator, in the order made. *)
Inductive call : Type :=
| CallGetTranscript (video_id : string) (language : option string)
| CallYtDlp (url output_template : string)
| CallWhisper (model_size audio_file : string) (language : option string)
| CallWhishper (api_endpoint file_name language : string)
| CallGetPage (url : string)
| CallGetMedia (url : string) (referer : option string).

Record world : Type := World {
  disk : gset string;          (* the paths that exist *)
  calls : list call;           (* the collaborators called so far *)
  stderr : list string         (* the lines printed to standard error *)
}.

(** What [requests.get] gives: an exception of the transport, or a response
    with its status, its body and the message [raise_for_status] raises with
    when the status is an error. *)
Inductive get_outcome : Type :=
| GetRaises (e : exn)
| GetResponse (status_code : Z) (http_error : string) (text : string).

(** What [requests.post] followed by [response.json()] gives. *)
Inductive post_outcome : Type :=
| PostRaises (e : exn)
| PostResponse (status_code : Z) (text : string) (json : result pyval).

(** A streamed download: the request; the message of the [ValueError] that
    [int] raises on the [Content-Length] header, when the header is no
    number; then whether reading the body breaks off after the file was
    opened. *)
Inductive stream_outcome : Type :=
| StreamRaises (e : exn)
| StreamResponse (status_code : Z) (http_error : string)
    (length_error : option string) (body_error : option exn).

(** The points where the Python runtime itself raises, on an ill-typed value
    or, for [FaultOpen], on a file to read that is not there; the text of
    its message is left to the environment. *)
Inductive fault : Type :=
| FaultWrite | FaultIn | FaultSubscript | FaultIterate | FaultGet | FaultJoin
| FaultReSub | FaultLower | FaultUrlparse | FaultOpen.

Record env : Type := Env {
  WHISPER_AVAILABLE : bool;
  gettempdir : string;
  py_str : pyval -> string;
  fault_msg : fault -> pyval -> string;
  (* YouTubeTranscriptApi.get_transcript(video_id[, languages=[lang]]) *)
  api_get_transcript : string -> option string -> result (list pyval);
  (* the three formatters, by format type *)
  formatter : string -> list pyval -> result string;
  (* yt-dlp: the files it leaves, and its failure if any *)
  yt_dlp : string -> string -> list string * option exn;
  (* load_model(model_size).transcribe(path, language=...)['text'] *)
  whisper_transcribe : string -> string -> option string -> result string;
  (* requests.post(api_endpoint, file, data.language) *)
  requests_post : string -> string -> string -> post_outcome;
  requests_get : string -> get_outcome;
  requests_get_stream : string -> option string -> stream_outcome;
  json_loads : string -> result pyval;
  (* urlparse(url).path *)
  urlparse_path : string -> string;
  (* path.mkdir(parents=True, exist_ok=True): the message of the OSError it
     raises, if it does, given the files that exist *)
  fs_mkdir : gset string -> string -> option string;
  (* open(path, 'w') and open(path, 'wb'): likewise *)
  fs_open : gset string -> string -> option string
}.

Definition M (A : Type) : Type := world -> result A * world.

Definition ret {A} (a : A) : M A := fun w => (Ok a, w).

Definition bind {A B} (m : M A) (f : A -> M B) : M B :=
  fun w =>
    match m w with
    | (Ok a, w') => f a w'
    | (Raise e, w') => (Raise e, w')
    end.

#[global] Instance M_ret : MRet M := @ret.
#[global] Instance M_bind : MBind M := fun A B f m => bind m f.

Definition raise {A} (e : exn) : M A := fun w => (Raise e, w).

Definition lift {A} (r : result A) : M A := fun w => (r, w).

(** [try: body  except c1 as e: h1 e  except c2 as e: h2 e ...]: the first
    clause whose class the exception is an instance of handles it; an
    exception raised by a handler is not handled again. *)
Fixpoint handle {A} (clauses : list (exn_class * (exn -> M A))) (e : exn)
    : M A :=
  match clauses with
  | [] => raise e
  | (c, h) :: rest => if is_a c e then h e else handle rest e
  end.

Definition try_except {A} (body : M A)
    (clauses : list (exn_class * (exn -> M A))) : M A :=
  fun w =>
    match body w with
    | (Ok a, w') => (Ok a, w')
    | (Raise e, w') => handle clauses e w'
    end.

(** [try: body  except: h] with a bare [except], which takes everything. *)
Definition try_bare {A} (body : M A) (h : M A) : M A :=
  fun w =>
    match body w with
    | (Ok a, w') => (Ok a, w')
    | (Raise _, w') => h w'
    end.

Definition log (c : call) : M unit :=
  fun w => (Ok tt, World (disk w) (calls w ++ [c])%list (stderr w)).

Definition eprint (line : string) : M unit :=
  fun w => (Ok tt, World (disk w) (calls w) (stderr w ++ [line])%list).

Definition sys_exit {A} (code : Z) : M A := raise (SystemExit code).

(** A file comes to be. *)
Definition create_file (path : string) : M unit :=
  fun w => (Ok tt, World (disk w ∪ {[ path ]}) (calls w) (stderr w)).

Fixpoint create_files (paths : list string) : M unit :=
  match paths with
  | [] => ret tt
  | p :: ps => create_file p ;; create_files ps
  end.

(** [path.mkdir(parents=True, exist_ok=True)]: the environment says
    whether the directory can be made. *)
Definition mkdir (E : env) (path : string) : M unit :=
  fun w =>
    match fs_mkdir E (disk w) path with
    | Some msg => (Raise (Exn OtherError msg), w)
    | None => (Ok tt, w)
    end.

(** [open(path, 'w')]: the environment says whether the file can be
    opened; when it can, the file is there from then on. *)
Definition open_w (E : env) (path : string) : M unit :=
  fun w =>
    match fs_open E (disk w) path with
    | Some msg => (Raise (Exn OtherError msg), w)
    | None => create_file path w
    end.

(** [open(path, 'rb')]: a file that is not there cannot be opened. *)
Definition open_rb (E : env) (path : string) : M unit :=
  fun w =>
    if bool_decide (path ∈ disk w) then (Ok tt, w)
    else (Raise (Exn OtherError (fault_msg E FaultOpen (PStr path))), w).

(** [path.exists()] and [path.unlink()] *)
Definition exists_ (path : string) : M bool :=
  fun w => (Ok (bool_decide (path ∈ disk w)), w).

Definition unlink (path : string) : M unit :=
  fun w => (Ok tt, World (disk w ∖ {[ path ]}) (calls w) (stderr w)).

(** The exit status of the process that runs [body] as its main program. *)
Definition exit_status (r : result unit) : Z :=
  match r with
  | Ok _ => 0
  | Raise (SystemExit code) => code
  | Raise (Exn _ _) => 1
  end.

(* ----------------------------------------------------------------- *)
(** *** Paths and small string helpers *)

(** A path as [pathlib] keeps it on a POSIX system: a root, which is
    empty, one slash or exactly two slashes, and the components between
    the slashes, without the empty ones and without [.]; [..] is kept. *)
Fixpoint split_slash (acc s : string) : list string :=
  match s with
  | EmptyString => [acc]
  | String c s' =>
      if Chars.is_char "/" c then acc :: split_slash "" s'
      else split_slash (acc ++ String c "") s'
  end.

Definition starts_slash (s : string) : bool :=
  match s with
  | String c _ => Chars.is_char "/" c
  | EmptyString => false
  end.

(** Two slashes at the start are kept, three or more are one. *)
Definition path_root (s : string) : string :=
  match s with
  | String a rest =>
      if Chars.is_char "/" a then
        match rest with
        | String b rest' =>
            if Chars.is_char "/" b && negb (starts_slash rest')
            then "//" else "/"
        | EmptyString => "/"
        end
      else ""
  | EmptyString => ""
  end.

Definition path_parts (s : string) : list string :=
  List.filter (fun p => negb (String.eqb p "" || String.eqb p "."))
    (split_slash "" s).

(** [str(path)] *)
Definition path_str (root : string) (parts : list string) : string :=
  match root, parts with
  | EmptyString, [] => "."
  | _, _ => root ++ String.concat "/" parts
  end.

(** [str(Path(s))] *)
Definition Path (s : string) : string := path_str (path_root s) (path_parts s).

(** [str(Path(dir) / name)]: a [name] with a root replaces [dir]. *)
Definition path_join (dir name : string) : string :=
  if String.eqb (path_root name) "" then
    path_str (path_root dir) (path_parts dir ++ path_parts name)
  else Path name.

(** [str(Path(s).parent)] *)
Definition path_parent (s : string) : string :=
  path_str (path_root s) (removelast (path_parts s)).

(** [path.name]: the last component, where empty components and [.] do not
    count ([pathlib] drops them). *)
Fixpoint last_component (name acc s : string) : string :=
  let close (_ : unit) :=
    if String.eqb acc "" || String.eqb acc "." then name else acc in
  match s with
  | EmptyString => close tt
  | String c s' =>
      if Chars.is_char "/" c then last_component (close tt) "" s'
      else last_component name (acc ++ String c "") s'
  end.

Definition path_name (path : string) : string := last_component "" "" path.

Fixpoint rev_string (acc s : string) : string :=
  match s with
  | EmptyString => acc
  | String c s' => rev_string (String c acc) s'
  end.

Fixpoint drop_while (p : ascii -> bool) (s : string) : string :=
  match s with
  | EmptyString => EmptyString
  | String c s' => if p c then drop_while p s' else s
  end.

Definition rdrop_while (p : ascii -> bool) (s : string) : string :=
  rev_string "" (drop_while p (rev_string "" s)).

(** [s.rstrip('/')] and [s.strip()] *)
Definition rstrip_slash (s : string) : string :=
  rdrop_while (Chars.is_char "/") s.

Definition strip (s : string) : string :=
  rdrop_while Chars.space (drop_while Chars.space s).

(** [s.split(',')]: always at least one field. *)
Fixpoint split_comma (acc s : string) : list string :=
  match s with
  | EmptyString => [acc]
  | String c s' =>
      if Chars.is_char "," c then acc :: split_comma "" s'
      else split_comma (acc ++ String c "") s'
  end.

(* ================================================================= *)
(** ** [transcript_downloader.py] *)

Module TranscriptDownloader.
Import VideoId.

Section WithEnv.
Variable E : env.

(** The [for lang in languages] loop of [get_transcript]: [Some] as soon
    as one request succeeds, [None] when the list is exhausted. *)
Fixpoint try_languages (video_id : string) (languages : list string)
    : M (option (list pyval * string)) :=
  match languages with
  | [] => ret None
  | lang :: rest =>
      log (CallGetTranscript video_id (Some lang)) ;;
      match api_get_transcript E video_id (Some lang) with
      | Ok transcript_data => ret (Some (transcript_data, lang))
      | Raise _ => try_languages video_id rest
      end
  end.

Definition get_transcript (video_id : string)
    (languages : option (list string)) : M (list pyval * string) :=
  let languages := match languages with
                   | None => ["en"]
                   | Some ls => ls
                   end in
  try_except
    (found ← try_languages video_id languages;
     match found with
     | Some r => ret r
     | None =>
         log (CallGetTranscript video_id None) ;;
         match api_get_transcript E video_id None with
         | Ok transcript_data => ret (transcript_data, "unknown")
         | Raise _ =>
             raise (Exn Exception "No transcripts available for this video")
         end
     end)
    [(Exception,
      fun e => raise (Exn Exception
                        ("Error fetching transcript: " ++ exn_msg e)))].

Definition format_transcript (transcript_data : list pyval)
    (format_type : string) : M string :=
  if String.eqb format_type "text" then
    lift (formatter E "text" transcript_data)
  else if String.eqb format_type "json" then
    lift (formatter E "json" transcript_data)
  else if String.eqb format_type "vtt" then
    lift (formatter E "vtt" transcript_data)
  else raise (Exn ValueError ("Unknown format type: " ++ format_type)).

(** The directory of the file is made and the file opened, either of
    which the environment may refuse; writing a value that is not a [str]
    to the open file then raises. *)
Definition save_transcript (transcript_text : pyval) (output_path : string)
    : M unit :=
  mkdir E (path_parent output_path) ;;
  open_w E output_path ;;
  match transcript_text with
  | PStr _ => ret tt
  | v => raise (Exn OtherError (fault_msg E FaultWrite v))
  end.

Definition download_audio (url output_dir : string) : M string :=
  let output_template := path_join output_dir "%(id)s.%(ext)s" in
  try_except
    (log (CallYtDlp url output_template) ;;
     let '(files, failure) := yt_dlp E url output_template in
     create_files files ;;
     match failure with
     | Some e => raise e
     | None =>
         video_id ← lift (extract_video_id url);
         let audio_file := path_join output_dir (video_id ++ ".mp3") in
         found ← exists_ audio_file;
         if found : bool then ret audio_file
         else raise (Exn Exception "Audio file not found after download")
     end)
    [(CalledProcessError,
      fun e => raise (Exn Exception
                        ("Failed to download audio: " ++ exn_msg e)))].

(** [key in v] for a string [key]; [None] where the runtime raises. *)
Definition py_in (key : string) (v : pyval) : option bool :=
  match v with
  | PDict d => Some (dict_has key d)
  | PList l =>
      Some (existsb (fun x => match x with
                              | PStr s => String.eqb s key
                              | _ => false
                              end) l)
  | PStr s => Some (contains key s)
  | _ => None
  end.

(** [v[key]], reached only after [key in v] held. *)
Definition py_subscript (key : string) (v : pyval) : M pyval :=
  match v with
  | PDict d => ret (dict_get key d)
  | _ => raise (Exn OtherError (fault_msg E FaultSubscript v))
  end.

(** [' '.join(segment.get('text', '') for segment in segments)]: the
    generator is run to its end first, which needs every segment to have a
    [get]; the join then needs every value to be a [str]. *)
Fixpoint segment_texts (segments : list pyval) : M (list pyval) :=
  match segments with
  | [] => ret []
  | PDict d :: rest =>
      ts ← segment_texts rest;
      ret (dict_get_default "text" d (PStr "") :: ts)
  | v :: _ => raise (Exn OtherError (fault_msg E FaultGet v))
  end.

Fixpoint join_space (ts : list pyval) : M string :=
  match ts with
  | [] => ret ""
  | PStr t :: rest =>
      joined ← join_space rest;
      ret (match rest with [] => t | _ => t ++ " " ++ joined end)
  | v :: _ => raise (Exn OtherError (fault_msg E FaultJoin v))
  end.

(** Iterating a [str] gives its characters and iterating a dict its keys,
    none of which has a [get]. *)
Definition join_segments (segments : pyval) : M pyval :=
  match segments with
  | PList l =>
      ts ← segment_texts l; joined ← join_space ts; ret (PStr joined)
  | PStr "" | PDict [] => ret (PStr "")
  | PStr (String c _) =>
      raise (Exn OtherError (fault_msg E FaultGet (PStr (String c ""))))
  | PDict ((k, _) :: _) =>
      raise (Exn OtherError (fault_msg E FaultGet (PStr k)))
  | v => raise (Exn OtherError (fault_msg E FaultIterate v))
  end.

(** The body of the [with] block: the upload and the reading of the
    reply. *)
Definition whishper_post (audio_file api_endpoint language : string)
    : M pyval :=
  log (CallWhishper api_endpoint (path_name audio_file) language) ;;
  match requests_post E api_endpoint (path_name audio_file) language with
  | PostRaises e => raise e
  | PostResponse status_code text json =>
      if Z.eqb status_code 200 then
        result ← lift json;
        match py_in "text" result with
        | None => raise (Exn OtherError (fault_msg E FaultIn result))
        | Some true => py_subscript "text" result
        | Some false =>
            match py_in "segments" result with
            | None => raise (Exn OtherError (fault_msg E FaultIn result))
            | Some true =>
                segments ← py_subscript "segments" result;
                join_segments segments
            | Some false =>
                raise (Exn Exception ("Unexpected response format: "
                                      ++ py_str E result))
            end
        end
      else
        raise (Exn Exception
                 ("Whishper API error: " ++ py_str E (PInt status_code)
                  ++ " - " ++ text))
  end.

(** The three [except] clauses. *)
Definition whishper_clauses (whishper_url : string)
    : list (exn_class * (exn -> M pyval)) :=
  [(Timeout,
    fun _ => raise (Exn Exception
      "Transcription timed out. The audio file may be too large."));
   (ConnectionError,
    fun _ => raise (Exn Exception
      ("Could not connect to Whishper server at " ++ whishper_url
       ++ ". Make sure it's running.")));
   (Exception,
    fun e => raise (Exn Exception ("Transcription failed: " ++ exn_msg e)))].

(** The audio file is opened inside the [try], before anything is sent. *)
Definition transcribe_with_whishper (audio_file whishper_url language : string)
    : M pyval :=
  let api_endpoint := rstrip_slash whishper_url ++ "/api/transcriptions" in
  try_except
    (open_rb E audio_file ;;
     whishper_post audio_file api_endpoint language)
    (whishper_clauses whishper_url).

(** The [language=] argument passed to [model.transcribe]. *)
Definition whisper_language (language : string) : option string :=
  if negb (String.eqb language "en") then Some language else None.

Definition transcribe_with_local_whisper
    (audio_file language model_size : string) : M pyval :=
  if negb (WHISPER_AVAILABLE E) then
    raise (Exn Exception
      "OpenAI Whisper is not installed. Install with: uv add openai-whisper")
  else
    try_except
      (log (CallWhisper model_size audio_file (whisper_language language)) ;;
       text ← lift (whisper_transcribe E model_size audio_file
                      (whisper_language language));
       ret (PStr text))
      [(Exception,
        fun e => raise (Exn Exception
          ("Local Whisper transcription failed: " ++ exn_msg e)))].

(* --------------------------------------------------------------- *)
(** *** [main] *)

Record args : Type := Args {
  args_url : string;
  args_format : string;              (* text, json or vtt *)
  args_output : option string;
  args_languages : string;
  list_transcripts : bool;
  whishper_url : string;
  keep_audio : bool;
  audio_only : bool;
  use_local_whisper : bool;
  whisper_model : string
}.

Definition common_langs : list string :=
  ["en"; "fr"; "es"; "de"; "it"; "pt"; "ru"; "ja"; "ko"; "zh-Hans"; "ar"].

(** The loop of [--list-transcripts]; its result is only printed. *)
Fixpoint probe_languages (video_id : string) (langs : list string)
    : M (list string) :=
  match langs with
  | [] => ret []
  | lang :: rest =>
      log (CallGetTranscript video_id (Some lang)) ;;
      available ← probe_languages video_id rest;
      ret (match api_get_transcript E video_id (Some lang) with
           | Ok _ => lang :: available
           | Raise _ => available
           end)
  end.

(** [if audio_file and audio_file.exists() and not args.keep_audio:
       audio_file.unlink()] *)
Definition cleanup (audio_file : option string) (keep : bool) : M unit :=
  match audio_file with
  | None => ret tt
  | Some f =>
      found ← exists_ f;
      if found && negb keep then unlink f else ret tt
  end.

(** Lines 416 to 436: the choice between the two engines. *)
Definition main_engines (a : args) (audio_file primary_language : string)
    : M pyval :=
  if use_local_whisper a || WHISPER_AVAILABLE E then
    try_except
      (transcribe_with_local_whisper audio_file primary_language
         (whisper_model a))
      [(Exception,
        fun whisper_error =>
          if use_local_whisper a then raise whisper_error
          else transcribe_with_whishper audio_file (whishper_url a)
                 primary_language)]
  else
    transcribe_with_whishper audio_file (whishper_url a) primary_language.

(** The handler of lines 438 to 443; [audio_file] is the value the
    variable holds when the exception arrives. *)
Definition on_transcription_error {A} (a : args)
    (audio_file : option string) (e : exn) : M A :=
  eprint (nl ++ "Error during audio transcription: " ++ exn_msg e) ;;
  cleanup audio_file (keep_audio a) ;;
  sys_exit 1.

(** Lines 407 to 443.  One [try] covers the download and the engines; the
    handler always leaves through [sys.exit], so handling the download
    (while [audio_file] is still [None]) and then the engines (once it is
    set) is the same [try]. *)
Definition main_audio_fallback (a : args) (languages : list string)
    : M (pyval * string) :=
  let temp_dir := path_join (gettempdir E) "youtube_transcripts" in
  audio_file ← try_except (download_audio (args_url a) temp_dir)
                 [(Exception, on_transcription_error a None)];
  let primary_language := match languages with
                          | lang :: _ => lang
                          | [] => "en"
                          end in
  transcript_text ←
    try_except (main_engines a audio_file primary_language)
      [(Exception, on_transcription_error a (Some audio_file))];
  ret (transcript_text, audio_file).

(** Lines 389 to 404: [None] when no caption could be had. *)
Definition main_captions (a : args) (video_id : string)
    (languages : list string) : M (option string) :=
  if negb (audio_only a) then
    try_except
      ('(transcript_data, language_used) ←
          get_transcript video_id (Some languages);
       text ← format_transcript transcript_data (args_format a);
       ret (Some text))
      [(Exception, fun _ => ret None)]
  else ret None.

Definition output_path_of (a : args) (video_id : string) : string :=
  match args_output a with
  | Some p => if String.eqb p "" then
                path_join "transcripts"
                  (video_id ++ "." ++
                   (if String.eqb (args_format a) "text" then "txt"
                    else args_format a))
              else Path p
  | None =>
      path_join "transcripts"
        (video_id ++ "." ++
         (if String.eqb (args_format a) "text" then "txt"
          else args_format a))
  end.

Definition main_body (a : args) : M unit :=
  video_id ← lift (extract_video_id (args_url a));
  if list_transcripts a then
    probe_languages video_id common_langs ;; ret tt
  else
    let languages := map strip (split_comma "" (args_languages a)) in
    captions ← main_captions a video_id languages;
    '(transcript_text, audio_file) ←
      match captions with
      | Some text => ret (PStr text, None)
      | None =>
          '(text, audio_file) ← main_audio_fallback a languages;
          ret (text, Some audio_file)
      end;
    save_transcript transcript_text (output_path_of a video_id) ;;
    cleanup audio_file (keep_audio a).

Definition on_error {A} (e : exn) : M A :=
  eprint (nl ++ "Error: " ++ exn_msg e) ;; sys_exit 1.

Definition main (a : args) : M unit :=
  try_except (main_body a) [(ValueError, on_error); (Exception, on_error)].

End WithEnv.
End TranscriptDownloader.

(* ================================================================= *)
(** ** [podcast_transcriber.py] *)

Module PodcastTranscriber.

(** The opening tag of a JSON-LD script element, a lazy group of any
    characters ([re.DOTALL]), the closing tag [</script>]. *)
Definition json_ld_pattern : regex :=
  Cat (Lit ("<script type=" ++ dq ++ "application/ld+json" ++ dq ++ ">"))
      (Cat (Grp (Star false Chars.any)) (Lit "</script>")).

(** [https?://] then one or more of [Chars.url_char], then [\.(?:mp3|m4a)] *)
Definition audio_pattern : regex :=
  Cat (Lit "http")
      (Cat (Opt (Lit "s"))
           (Cat (Lit "://")
                (Cat (Plus Chars.url_char)
                     (Cat (Lit ".") (Alt (Lit "mp3") (Lit "m4a")))))).

(** [shows\.acast\.com/([a-f0-9]+)/([a-f0-9]+)] *)
Definition url_pattern : regex :=
  Cat (Lit "shows.acast.com/")
      (Cat (Grp (Plus Chars.hexlower))
           (Cat (Lit "/") (Grp (Plus Chars.hexlower)))).

(** The three variables the scan of the blocks assigns. *)
Record found : Type := Found {
  audio_url : pyval;
  episode_title : pyval;
  show_title : pyval
}.

Definition initial : found :=
  Found PNone (PStr "Unknown Episode") (PStr "Unknown Show").

(** [isinstance(data, dict) and data.get('@type') == 'PodcastEpisode'] *)
Definition is_podcast_episode (data : pyval) : option (list (string * pyval)) :=
  match data with
  | PDict d =>
      match dict_get "@type" d with
      | PStr t => if String.eqb t "PodcastEpisode" then Some d else None
      | _ => None
      end
  | _ => None
  end.

(** [if 'partOfSeries' in data: ...] *)
Definition series_title (d : list (string * pyval)) (show_title : pyval)
    : pyval :=
  match dict_lookup "partOfSeries" d with
  | Some (PDict series) => dict_get_default "name" series show_title
  | _ => show_title
  end.

(** The body of the [if] on an episode block, Apple Podcasts (lines 57-74). *)
Definition apple_episode (d : list (string * pyval)) (st : found) : found :=
  let episode_title := dict_get_default "name" d (episode_title st) in
  let audio_url := if dict_has "url" d then dict_get "url" d
                   else audio_url st in
  let audio_url :=
    if negb (truthy audio_url) && dict_has "associatedMedia" d then
      match dict_get "associatedMedia" d with
      | PDict media =>
          py_or (dict_get "contentUrl" media) (dict_get "url" media)
      | _ => audio_url
      end
    else audio_url in
  Found audio_url episode_title (series_title d (show_title st)).

(** The body of the [if] on an episode block, Acast (lines 156-169). *)
Definition acast_episode (d : list (string * pyval)) (st : found) : found :=
  let episode_title := dict_get_default "name" d (episode_title st) in
  let audio_url :=
    match dict_lookup "associatedMedia" d with
    | Some (PDict media) => dict_get "contentUrl" media
    | _ => audio_url st
    end in
  Found audio_url episode_title (series_title d (show_title st)).

(** [any(host in url.lower() for host in hosts)] *)
Definition mentions (hosts : list string) (url : string) : bool :=
  existsb (fun host => contains host (lower url)) hosts.

Definition apple_hosts : list string :=
  ["ausha"; "acast"; "libsyn"; "buzzsprout"; "simplecast"; "megaphone"].

(** ['acast' in url.lower() or 'media' in url.lower()] *)
Definition acast_hosts : list string := ["acast"; "media"].

(** The scan of the page text (lines 83-96 and 178-191): the first match
    that mentions a host, else the first match, else nothing. *)
Definition pattern_scan (hosts : list string) (text : string) : option string :=
  let audio_matches := re_findall audio_pattern text in
  match List.find (mentions hosts) audio_matches with
  | Some url => Some url
  | None => List.head audio_matches
  end.

Section WithEnv.
Variable E : env.

(** [requests.get(url, ...)] then [response.raise_for_status()] *)
Definition fetch_page (url : string) : M string :=
  log (CallGetPage url) ;;
  match requests_get E url with
  | GetRaises e => raise e
  | GetResponse status_code http_error text =>
      if Z.leb 400 status_code && Z.ltb status_code 600
      then raise (Exn RequestException http_error)
      else ret text
  end.

(** The [for json_str in json_ld_matches] loop; [episode] is the body run
    on an episode block.  A block that does not parse is passed over; any
    other exception of the parser leaves the loop. *)
Fixpoint scan_blocks
    (episode : list (string * pyval) -> found -> found)
    (blocks : list string) (st : found) : result found :=
  match blocks with
  | [] => Ok st
  | json_str :: rest =>
      match json_loads E json_str with
      | Raise e =>
          if is_a JSONDecodeError e then scan_blocks episode rest st
          else Raise e
      | Ok data =>
          match is_podcast_episode data with
          | Some d =>
              let st' := episode d st in
              if truthy (audio_url st') then Ok st'
              else scan_blocks episode rest st'
          | None => scan_blocks episode rest st
          end
      end
  end.

Definition with_scan (hosts : list string) (text : string) (st : found)
    : found :=
  if negb (truthy (audio_url st)) then
    match pattern_scan hosts text with
    | Some url => Found (PStr url) (episode_title st) (show_title st)
    | None => st
    end
  else st.

Definition extract_apple_podcasts_audio_url (episode_url : string)
    : M (pyval * pyval * pyval) :=
  try_except
    (text ← fetch_page episode_url;
     let json_ld_matches := re_findall_group1 json_ld_pattern text in
     st ← lift (scan_blocks apple_episode json_ld_matches initial);
     let st := with_scan apple_hosts text st in
     if truthy (audio_url st)
     then ret (audio_url st, episode_title st, show_title st)
     else raise (Exn Exception
                   "Could not extract audio URL from Apple Podcasts page"))
    [(RequestException,
      fun e => raise (Exn Exception
                 ("Failed to fetch Apple Podcasts page: " ++ exn_msg e)))].

(** Lines 121 to 133: the URL built from the two identifiers. *)
Definition direct_audio_url (episode_url : string) : option string :=
  match re_search url_pattern episode_url with
  | Some url_match =>
      Some ("https://play.acast.com/s/" ++ group 1 url_match ++ "/"
            ++ group 2 url_match ++ ".mp3")
  | None => None
  end.

Definition extract_acast_audio_url (episode_url : string)
    : M (pyval * pyval * pyval) :=
  let direct := direct_audio_url episode_url in
  try_except
    (text ← fetch_page episode_url;
     let json_ld_matches := re_findall_group1 json_ld_pattern text in
     st ← lift (scan_blocks acast_episode json_ld_matches initial);
     let st := with_scan acast_hosts text st in
     let st :=
       match direct with
       | Some u =>
           if negb (truthy (audio_url st)) && negb (String.eqb u "")
           then Found (PStr u) (episode_title st) (show_title st)
           else st
       | None => st
       end in
     if truthy (audio_url st)
     then ret (audio_url st, episode_title st, show_title st)
     else raise (Exn Exception "Could not extract audio URL from Acast page"))
    [(RequestException,
      fun e => raise (Exn Exception
                 ("Failed to fetch Acast page: " ++ exn_msg e)))].

(** The referer chosen from the media URL (lines 238-242). *)
Definition referer_for (audio_url : string) : option string :=
  if contains "acast" (lower audio_url) then Some "https://shows.acast.com/"
  else if contains "ausha" (lower audio_url)
  then Some "https://podcasts.apple.com/"
  else None.

(** [if x:] for an optional string: neither [None] nor empty. *)
Definition nonempty (o : option string) : option string :=
  match o with
  | Some s => if String.eqb s "" then None else Some s
  | None => None
  end.

(** Lines 224 to 229: the file name, taken from the URL when none is
    given. *)
Definition filename_for (audio_url : pyval) (filename : option string)
    : M string :=
  match nonempty filename with
  | Some f => ret f
  | None =>
      match audio_url with
      | PStr u =>
          let f := path_name (urlparse_path E u) in
          if String.eqb f "" || negb (contains "." f) then ret "podcast.mp3"
          else ret f
      | v => raise (Exn OtherError (fault_msg E FaultUrlparse v))
      end
  end.

(** Lines 221 to 276.  The directory is made before anything else, outside
    the [try]; the [Content-Length] header is read between the status test
    and the opening of the file. *)
Definition download_audio (audio_url : pyval) (output_dir : string)
    (filename : option string) : M string :=
  let output_dir := Path output_dir in
  mkdir E output_dir ;;
  filename ← filename_for audio_url filename;
  let output_file := path_join output_dir filename in
  try_except
    (match audio_url with
     | PStr u =>
         log (CallGetMedia u (referer_for u)) ;;
         match requests_get_stream E u (referer_for u) with
         | StreamRaises e => raise e
         | StreamResponse status_code http_error length_error body_error =>
             if Z.leb 400 status_code && Z.ltb status_code 600
             then raise (Exn RequestException http_error)
             else
               match length_error with
               | Some msg => raise (Exn ValueError msg)
               | None =>
                   open_w E output_file ;;
                   match body_error with
                   | Some e => raise e
                   | None => ret output_file
                   end
               end
         end
     | v => raise (Exn OtherError (fault_msg E FaultLower v))
     end)
    [(RequestException,
      fun e => raise (Exn Exception
                 ("Failed to download audio: " ++ exn_msg e)))].

(** The [language=] argument passed to [model.transcribe]. *)
Definition whisper_language (language : string) : option string :=
  if negb (String.eqb language "auto") then Some language else None.

Definition transcribe_audio (audio_file language model_size : string)
    : M string :=
  if negb (WHISPER_AVAILABLE E) then
    raise (Exn Exception
      "OpenAI Whisper is not installed. Install with: uv add openai-whisper")
  else
    try_except
      (log (CallWhisper model_size audio_file (whisper_language language)) ;;
       lift (whisper_transcribe E model_size audio_file
               (whisper_language language)))
      [(Exception,
        fun e => raise (Exn Exception ("Transcription failed: " ++ exn_msg e)))].

(** Lines 316 to 326: the directory of the file is made and the file
    opened; the header lines and the text, all strings, are written. *)
Definition save_transcript (text output_path : string) : M unit :=
  let output_path := Path output_path in
  mkdir E (path_parent output_path) ;;
  open_w E output_path.

Record args : Type := Args {
  args_url : string;
  args_output : option string;
  args_language : string;
  args_model : string;
  keep_audio : bool;
  audio_dir : option string
}.

(** [re.sub(r'[^\w\s-]', '', s)] *)
Fixpoint keep_safe (s : string) : string :=
  match s with
  | EmptyString => EmptyString
  | String c s' =>
      if Chars.word c || Chars.space c || Chars.is_char "-" c
      then String c (keep_safe s') else keep_safe s'
  end.

(** [re.sub(r'[-\s]+', '-', s)]: every maximal run becomes one dash. *)
Fixpoint collapse_runs (in_run : bool) (s : string) : string :=
  match s with
  | EmptyString => EmptyString
  | String c s' =>
      if Chars.is_char "-" c || Chars.space c
      then (if in_run then collapse_runs true s'
            else String "-" (collapse_runs true s'))
      else String c (collapse_runs false s')
  end.

Definition safe_filename_of (episode_title : pyval) : M string :=
  match episode_title with
  | PStr t => ret (take 50 (collapse_runs false (keep_safe t)))
  | v => raise (Exn OtherError (fault_msg E FaultReSub v))
  end.

Definition main_body (a : args) : M unit :=
  '(audio_url, episode_title, show_title) ←
    (if contains "acast.com" (args_url a)
     then extract_acast_audio_url (args_url a)
     else if contains "podcasts.apple.com" (args_url a)
     then extract_apple_podcasts_audio_url (args_url a)
     else
       eprint ("Error: Unsupported platform. Currently only Acast and "
               ++ "Apple Podcasts are supported.") ;;
       sys_exit 1);
  let audio_dir := match nonempty (audio_dir a) with
                   | Some d => Path d
                   | None => path_join (gettempdir E) "podcast_audio"
                   end in
  safe_filename ← safe_filename_of episode_title;
  let audio_filename := safe_filename ++ ".mp3" in
  audio_file ← download_audio audio_url audio_dir (Some audio_filename);
  transcript_text ← transcribe_audio audio_file (args_language a)
                      (args_model a);
  let output_path := match nonempty (args_output a) with
                     | Some p => Path p
                     | None => path_join "transcripts" (safe_filename ++ ".txt")
                     end in
  save_transcript transcript_text output_path ;;
  found ← exists_ audio_file;
  if negb (keep_audio a) && found then unlink audio_file else ret tt.

Definition main (a : args) : M unit :=
  try_except (main_body a)
    [(Exception,
      fun e => eprint (nl ++ "Error: " ++ exn_msg e) ;; sys_exit 1)].

End WithEnv.
End PodcastTranscriber.

(* ================================================================= *)
(** ** Worked environments

    Concrete collaborators on which the statements below are exercised. *)

Module Worked.

Definition empty_world : world := World ∅ [] [].

(** A world where an audio file lies in the temporary directory, and one
    where the audio of the video has been downloaded. *)
Definition audio_on_disk : world := World {[ "/tmp/a.mp3" ]} [] [].

Definition downloaded : world :=
  World {[ "/tmp/youtube_transcripts/dQw4w9WgXcQ.mp3" ]} [] [].

(** A video that has an English caption track only, on a host without
    Whisper, with a Whishper server that answers. *)
Definition english_only : env := {|
  WHISPER_AVAILABLE := false;
  gettempdir := "/tmp";
  py_str := fun _ => "";
  fault_msg := fun _ _ => "";
  api_get_transcript := fun _ language =>
    match language with
    | Some "en" => Ok [PDict [("text", PStr "hello")]]
    | _ => Raise (Exn OtherError "NoTranscriptFound")
    end;
  formatter := fun _ _ => Ok "hello";
  yt_dlp := fun _ _ => (["/tmp/youtube_transcripts/dQw4w9WgXcQ.mp3"], None);
  whisper_transcribe := fun _ _ _ => Ok "hello";
  requests_post := fun _ _ _ =>
    PostResponse 200 "" (Ok (PDict [("text", PStr "hello")]));
  requests_get := fun _ => GetResponse 200 "" "";
  requests_get_stream := fun _ _ => StreamResponse 200 "" None None;
  json_loads := fun _ => Raise (Exn JSONDecodeError "");
  urlparse_path := fun u => u;
  fs_mkdir := fun _ _ => None;
  fs_open := fun _ _ => None
|}.


(** A host where Whisper is installed and works, and where the download
    leaves the expected file. *)
Definition with_whisper : env := {|
  WHISPER_AVAILABLE := true;
  gettempdir := "/tmp";
  py_str := fun _ => "";
  fault_msg := fun _ _ => "";
  api_get_transcript := fun _ _ => Raise (Exn OtherError "TranscriptsDisabled");
  formatter := fun _ _ => Ok "";
  yt_dlp := fun _ _ => (["/tmp/youtube_transcripts/dQw4w9WgXcQ.mp3"], None);
  whisper_transcribe := fun _ _ _ => Ok "never gonna give you up";
  requests_post := fun _ _ _ =>
    PostResponse 200 "" (Ok (PDict [("text", PStr "remote text")]));
  requests_get := fun _ => GetRaises (Exn ConnectionError "unreachable");
  requests_get_stream := fun _ _ => StreamResponse 200 "" None None;
  json_loads := fun _ => Raise (Exn JSONDecodeError "");
  urlparse_path := fun u => u;
  fs_mkdir := fun _ _ => None;
  fs_open := fun _ _ => None
|}.

(** A host without Whisper, a video without captions, a Whishper server
    that is configured and would answer. *)
Definition without_whisper : env := {|
  WHISPER_AVAILABLE := false;
  gettempdir := "/tmp";
  py_str := fun _ => "";
  fault_msg := fun _ _ => "";
  api_get_transcript := fun _ _ => Raise (Exn OtherError "TranscriptsDisabled");
  formatter := fun _ _ => Ok "";
  yt_dlp := fun _ _ => (["/tmp/youtube_transcripts/dQw4w9WgXcQ.mp3"], None);
  whisper_transcribe := fun _ _ _ => Raise (Exn OtherError "no module");
  requests_post := fun _ _ _ =>
    PostResponse 200 "" (Ok (PDict [("text", PStr "remote text")]));
  requests_get := fun _ =>
    GetResponse 200 "" "<html>https://cdn.example.org/episode.mp3</html>";
  requests_get_stream := fun _ _ => StreamResponse 200 "" None None;
  json_loads := fun _ => Raise (Exn JSONDecodeError "");
  urlparse_path := fun u => u;
  fs_mkdir := fun _ _ => None;
  fs_open := fun _ _ => None
|}.

(** A host without Whisper and a Whishper server whose reply carries a
    [text] that is [null]. *)
Definition null_text_reply : env := {|
  WHISPER_AVAILABLE := false;
  gettempdir := "/tmp";
  py_str := fun _ => "";
  fault_msg := fun _ _ => "write() argument must be str, not None";
  api_get_transcript := fun _ _ => Raise (Exn OtherError "TranscriptsDisabled");
  formatter := fun _ _ => Ok "";
  yt_dlp := fun _ _ => (["/tmp/youtube_transcripts/dQw4w9WgXcQ.mp3"], None);
  whisper_transcribe := fun _ _ _ => Raise (Exn OtherError "no module");
  requests_post := fun _ _ _ =>
    PostResponse 200 "" (Ok (PDict [("text", PNone)]));
  requests_get := fun _ => GetRaises (Exn ConnectionError "unreachable");
  requests_get_stream := fun _ _ => StreamResponse 200 "" None None;
  json_loads := fun _ => Raise (Exn JSONDecodeError "");
  urlparse_path := fun u => u;
  fs_mkdir := fun _ _ => None;
  fs_open := fun _ _ => None
|}.



(** Pages as a scraper meets them.  [quoted s] is [s] between double
    quotes; a script element wraps a JSON-LD block. *)
Definition quoted (s : string) : string := dq ++ s ++ dq.

Definition json_ld (block : string) : string :=
  "<script type=" ++ quoted "application/ld+json" ++ ">" ++ block
  ++ "</script>".

Definition field (key value : string) : string :=
  quoted key ++ ": " ++ quoted value.

(** An episode block whose media URL sits directly on the block, both as
    [contentUrl] and as [url]; the page also links an advertisement. *)
Definition block_direct : string :=
  "{" ++ field "@type" "PodcastEpisode" ++ ", "
  ++ field "contentUrl" "https://cdn.example.org/real.mp3" ++ ", "
  ++ field "url" "https://cdn.example.org/real.mp3" ++ "}".

Definition page_direct : string :=
  "<a href=" ++ quoted "https://ads.example.net/promo.mp3" ++ ">ad</a>"
  ++ json_ld block_direct.

(** An episode block with the media URL directly on the block and another
    one under [associatedMedia]. *)
Definition block_both : string :=
  "{" ++ field "@type" "PodcastEpisode" ++ ", "
  ++ field "contentUrl" "https://cdn.example.org/direct.mp3" ++ ", "
  ++ field "url" "https://cdn.example.org/direct.mp3" ++ ", "
  ++ quoted "associatedMedia" ++ ": {"
  ++ field "contentUrl" "https://cdn.example.org/associated.mp3" ++ "}}".

Definition page_both : string := json_ld block_both.

(** A page without structured data and with two audio links: the first on
    a host that is no podcast CDN, under a path that names one; the second
    on a podcast CDN. *)
Definition page_links : string :=
  "<a href=" ++ quoted "https://blog.example.org/acast-review/ep1.mp3" ++ ">"
  ++ "<a href=" ++ quoted "https://traffic.libsyn.com/show/ep1.mp3" ++ ">".

(** A block that is not JSON, followed by a good one. *)
Definition page_malformed : string :=
  json_ld "{not json" ++ json_ld block_both.

(** An episode block that holds no media URL, a trailer say, followed by
    the block of the episode, which holds the same URL on the block and
    under [associatedMedia] and has no name of its own; the page also
    links an advertisement. *)
Definition block_trailer : string :=
  "{" ++ field "@type" "PodcastEpisode" ++ ", "
  ++ field "name" "Trailer" ++ "}".

Definition block_full : string :=
  "{" ++ field "@type" "PodcastEpisode" ++ ", "
  ++ field "url" "https://cdn.example.org/full.mp3" ++ ", "
  ++ quoted "associatedMedia" ++ ": {"
  ++ field "contentUrl" "https://cdn.example.org/full.mp3" ++ "}}".

Definition page_trailer : string :=
  "<a href=" ++ quoted "https://ads.example.net/promo.mp3" ++ ">ad</a>"
  ++ json_ld block_trailer ++ json_ld block_full.

(** What [json.loads] gives on the blocks above. *)
Definition loads (json_str : string) : result pyval :=
  if String.eqb json_str block_direct then
    Ok (PDict [("@type", PStr "PodcastEpisode");
               ("contentUrl", PStr "https://cdn.example.org/real.mp3");
               ("url", PStr "https://cdn.example.org/real.mp3")])
  else if String.eqb json_str block_both then
    Ok (PDict [("@type", PStr "PodcastEpisode");
               ("contentUrl", PStr "https://cdn.example.org/direct.mp3");
               ("url", PStr "https://cdn.example.org/direct.mp3");
               ("associatedMedia",
                PDict [("contentUrl",
                        PStr "https://cdn.example.org/associated.mp3")])])
  else if String.eqb json_str block_trailer then
    Ok (PDict [("@type", PStr "PodcastEpisode"); ("name", PStr "Trailer")])
  else if String.eqb json_str block_full then
    Ok (PDict [("@type", PStr "PodcastEpisode");
               ("url", PStr "https://cdn.example.org/full.mp3");
               ("associatedMedia",
                PDict [("contentUrl",
                        PStr "https://cdn.example.org/full.mp3")])])
  else Raise (Exn JSONDecodeError "Expecting property name").

(** The web of the examples: which page each address serves; every other
    address is unreachable. *)
Definition serve (url : string) : get_outcome :=
  if String.eqb url "https://shows.acast.com/aaa111/bbb222"
     || String.eqb url "https://podcasts.apple.com/us/podcast/ep/id2"
  then GetResponse 200 "" page_direct
  else if String.eqb url "https://shows.acast.com/ccc333/ddd444"
          || String.eqb url "https://podcasts.apple.com/us/podcast/ep/id3"
  then GetResponse 200 "" page_both
  else if String.eqb url "https://podcasts.apple.com/us/podcast/ep/id1"
  then GetResponse 200 "" page_links
  else if String.eqb url "https://shows.acast.com/eee555/fff666"
  then GetResponse 200 "" page_malformed
  else if String.eqb url "https://shows.acast.com/777aaa/888bbb"
          || String.eqb url "https://podcasts.apple.com/us/podcast/ep/id4"
  then GetResponse 200 "" page_trailer
  else if String.eqb url "https://shows.acast.com/0a0a0a/1b1b1b"
  then GetResponse 200 "" "<html><body>No player here.</body></html>"
  else if String.eqb url "https://shows.acast.com/404404/404404"
  then GetResponse 404 "404 Client Error: Not Found" ""
  else GetRaises (Exn ConnectionError "Name or service not known").

Definition web : env := {|
  WHISPER_AVAILABLE := true;
  gettempdir := "/tmp";
  py_str := fun _ => "";
  fault_msg := fun _ _ => "";
  api_get_transcript := fun _ _ => Raise (Exn OtherError "TranscriptsDisabled");
  formatter := fun _ _ => Ok "";
  yt_dlp := fun _ _ => ([], None);
  whisper_transcribe := fun _ _ _ => Ok "words";
  requests_post := fun _ _ _ => PostRaises (Exn ConnectionError "refused");
  requests_get := serve;
  requests_get_stream := fun _ _ => StreamResponse 200 "" None None;
  json_loads := loads;
  urlparse_path := fun u => u;
  fs_mkdir := fun _ _ => None;
  fs_open := fun _ _ => None
|}.

(** The command line of [transcript_downloader] with its defaults, and the
    same with [--use-local-whisper]. *)
Definition default_args : TranscriptDownloader.args := {|
  TranscriptDownloader.args_url := "https://www.youtube.com/watch?v=dQw4w9WgXcQ";
  TranscriptDownloader.args_format := "text";
  TranscriptDownloader.args_output := None;
  TranscriptDownloader.args_languages := "en";
  TranscriptDownloader.list_transcripts := false;
  TranscriptDownloader.whishper_url := "http://localhost:8082";
  TranscriptDownloader.keep_audio := false;
  TranscriptDownloader.audio_only := false;
  TranscriptDownloader.use_local_whisper := false;
  TranscriptDownloader.whisper_model := "base"
|}.

Definition pinned_args : TranscriptDownloader.args := {|
  TranscriptDownloader.args_url := "https://www.youtube.com/watch?v=dQw4w9WgXcQ";
  TranscriptDownloader.args_format := "text";
  TranscriptDownloader.args_output := None;
  TranscriptDownloader.args_languages := "en";
  TranscriptDownloader.list_transcripts := false;
  TranscriptDownloader.whishper_url := "http://localhost:8082";
  TranscriptDownloader.keep_audio := false;
  TranscriptDownloader.audio_only := false;
  TranscriptDownloader.use_local_whisper := true;
  TranscriptDownloader.whisper_model := "base"
|}.

(** Other command lines of [transcript_downloader]: an address that is
    none, a listing, and French before English. *)
Definition bad_address_args : TranscriptDownloader.args :=
  TranscriptDownloader.Args "my video" "text" None "en" false
    "http://localhost:8082" false false false "base".

Definition listing_args : TranscriptDownloader.args :=
  TranscriptDownloader.Args "dQw4w9WgXcQ" "text" None "en" true
    "http://localhost:8082" false false false "base".


(** The command line of [podcast_transcriber] with its defaults. *)
Definition podcast_args (url : string) : PodcastTranscriber.args := {|
  PodcastTranscriber.args_url := url;
  PodcastTranscriber.args_output := None;
  PodcastTranscriber.args_language := "auto";
  PodcastTranscriber.args_model := "base";
  PodcastTranscriber.keep_audio := false;
  PodcastTranscriber.audio_dir := None
|}.

End Worked.

(* ================================================================= *)
(** ** Vocabulary of the statements *)

(** Eleven characters of the identifier alphabet. *)
Definition id11 (v : string) : Prop :=
  String.length v = 11 /\ string_forallb Chars.idchar v = true.

(** The caption requests for the languages of a list, in its order. *)
Definition requests_for (video_id : string) (languages : list string)
    : list call :=
  map (fun lang => CallGetTranscript video_id (Some lang)) languages.

(** The caption source has no track to give for this request. *)
Definition no_track (E : env) (video_id : string) (lang : option string)
    : Prop :=
  exists e, api_get_transcript E video_id lang = Raise e.

(** [appends P m]: from any world, [m] extends the log by calls [new] with
    [P new], whether it returns or raises. *)
Definition appends {A} (P : list call -> Prop) (m : M A) : Prop :=
  forall w, exists new, calls (snd (m w)) = (calls w ++ new)%list /\ P new.

(** A property of logs that the empty log has and concatenation keeps. *)
Definition closed (P : list call -> Prop) : Prop :=
  P [] /\ forall l1 l2, P l1 -> P l2 -> P (l1 ++ l2)%list.

Definition silent {A} (m : M A) : Prop := appends (fun new => new = []) m.

Definition handlers_append {A} (P : list call -> Prop)
    (clauses : list (exn_class * (exn -> M A))) : Prop :=
  Forall (fun ch => forall e, appends P (snd ch e)) clauses.

(** A call to the remote engine, to the local engine, to neither. *)
Definition is_remote (c : call) : bool :=
  match c with CallWhishper _ _ _ => true | _ => false end.

Definition is_local (c : call) : bool :=
  match c with CallWhisper _ _ _ => true | _ => false end.

Definition not_engine (c : call) : Prop :=
  is_remote c = false /\ is_local c = false.

(** No call of a log goes to the remote engine. *)
Definition no_remote (log : list call) : Prop :=
  Forall (fun c => is_remote c = false) log.


(** The engine calls one run can make, by whether the local engine is
    pinned and whether it is installed: none (the run ended before, or the
    pinned engine is missing), the local engine alone, the local engine and
    then the remote one, or the remote engine alone. *)
Definition engine_calls (pinned available : bool) (eng : list call) : Prop :=
  eng = []
  \/ (exists c, is_local c = true /\ eng = [c] /\ available = true)
  \/ (exists c r, is_local c = true /\ is_remote r = true /\ eng = [c; r]
                  /\ pinned = false /\ available = true)
  \/ (exists r, is_remote r = true /\ eng = [r]
                /\ pinned = false /\ available = false).

(** The calls of one run: calls to neither engine, then the engine calls. *)
Definition run_shape (pinned available : bool) (new : list call) : Prop :=
  exists pre eng,
    new = (pre ++ eng)%list /\ Forall not_engine pre
    /\ engine_calls pinned available eng.

(** The page fetch fails with message [msg]: the transport raises, or the
    status is an error status. *)
Inductive fetch_fails (E : env) (url : string) : string -> Prop :=
| fails_transport (cls : exn_class) (msg : string) :
    requests_get E url = GetRaises (Exn cls msg) ->
    is_a RequestException (Exn cls msg) = true ->
    fetch_fails E url msg
| fails_status (status_code : Z) (msg text : string) :
    requests_get E url = GetResponse status_code msg text ->
    (400 <= status_code < 600)%Z ->
    fetch_fails E url msg.

(** The page fetch gives the text [text]. *)
Definition fetched (E : env) (url text : string) : Prop :=
  exists status_code http_error,
    requests_get E url = GetResponse status_code http_error text
    /\ ~ (400 <= status_code < 600)%Z.

(** The first character of a string, if any, is outside a class. *)
Definition stops (p : ascii -> bool) (s : string) : Prop :=
  match s with
  | EmptyString => True
  | String c _ => p c = false
  end.

(** A block the scan passes over: it does not parse, or it is no episode. *)
Definition passed_over (E : env) (json_str : string) : Prop :=
  (exists e, json_loads E json_str = Raise e /\ is_a JSONDecodeError e = true)
  \/ (exists data, json_loads E json_str = Ok data
                   /\ PodcastTranscriber.is_podcast_episode data = None).

(** No block of [blocks] gives an address: the scan goes through them all,
    and [st] is what it has read by then. *)
Definition none_yields (E : env)
    (episode : list (string * pyval) -> PodcastTranscriber.found
               -> PodcastTranscriber.found)
    (blocks : list string) (st : PodcastTranscriber.found) : Prop :=
  PodcastTranscriber.scan_blocks E episode blocks PodcastTranscriber.initial
  = Ok st
  /\ truthy (PodcastTranscriber.audio_url st) = false.

(** The spec's reading of a recognised URL: its host, the text between
    [://] and the next slash, names one of the hosting domains. *)
Fixpoint after_scheme (url : string) : string :=
  match strip_prefix "://" url with
  | Some rest => rest
  | None => match url with
            | EmptyString => EmptyString
            | String _ url' => after_scheme url'
            end
  end.

Fixpoint until_slash (s : string) : string :=
  match s with
  | EmptyString => EmptyString
  | String c s' => if Chars.is_char "/" c then EmptyString
                   else String c (until_slash s')
  end.

Definition url_host (url : string) : string := until_slash (after_scheme url).

Definition spec_recognized_host (hosts : list string) (url : string) : bool :=
  PodcastTranscriber.mentions hosts (url_host url).

(** The text of a segment of a Whishper reply: the [text] of the object,
    empty when the object has none. *)
Definition segment_text (segment : pyval) (text : string) : Prop :=
  exists d, segment = PDict d
            /\ dict_get_default "text" d (PStr "") = PStr text.

(** A computation that only adds to the log, as long as the disk is as
    [P] wants it: its result and what it adds are then the same from every
    world, and it leaves the disk and standard error alone. *)
Definition detached {A} (P : gset string -> Prop) (m : M A) : Prop :=
  exists r new,
    forall w, P (disk w) ->
              m w = (r, World (disk w) (calls w ++ new) (stderr w)).

Definition is_caption (c : call) : bool :=
  match c with CallGetTranscript _ _ => true | _ => false end.

Definition is_download (c : call) : bool :=
  match c with CallYtDlp _ _ => true | _ => false end.


(** A character of a sanitised file name: a word character or a dash. *)
Definition safe_char (c : ascii) : bool :=
  Chars.word c || Chars.is_char "-" c.

(** No dash of a string is followed by another. *)
Fixpoint single_dashes (s : string) : bool :=
  match s with
  | String a ((String b _) as s') =>
      negb (Chars.is_char "-" a && Chars.is_char "-" b) && single_dashes s'
  | _ => true
  end.

(** A result that is a [SystemExit]. *)
Definition exits {A} (r : result A) : bool :=
  match r with
  | Raise (SystemExit _) => true
  | _ => false
  end.

Definition is_exit (e : exn) : bool := exits (Raise e : result unit).

(** The collaborators fail by exceptions proper: none of them ends the
    process by [SystemExit]. *)
Definition no_collaborator_exits (E : env) : Prop :=
  (forall format_type transcript_data,
     exits (formatter E format_type transcript_data) = false)
  /\ (forall url output_template e,
        snd (yt_dlp E url output_template) = Some e -> is_exit e = false)
  /\ (forall model_size audio_file language,
        exits (whisper_transcribe E model_size audio_file language) = false)
  /\ (forall api_endpoint file_name language,
        match requests_post E api_endpoint file_name language with
        | PostRaises e => is_exit e = false
        | PostResponse _ _ json => exits json = false
        end)
  /\ (forall url,
        match requests_get E url with
        | GetRaises e => is_exit e = false
        | GetResponse _ _ _ => True
        end)
  /\ (forall url referer,
        match requests_get_stream E url referer with
        | StreamRaises e => is_exit e = false
        | StreamResponse _ _ _ (Some e) => is_exit e = false
        | StreamResponse _ _ _ None => True
        end)
  /\ (forall json_str, exits (json_loads E json_str) = false).

(** [mute m]: [m] prints nothing to standard error and does not exit. *)
Definition mute {A} (m : M A) : Prop :=
  forall w, exits (fst (m w)) = false /\ stderr (snd (m w)) = stderr w.

(** [reports L m]: [m] either is mute, or exits with status 1 after it
    printed one line, a line of [L], to standard error. *)
Definition reports {A} (L : string -> Prop) (m : M A) : Prop :=
  forall w,
    (exits (fst (m w)) = false /\ stderr (snd (m w)) = stderr w)
    \/ (fst (m w) = Raise (SystemExit 1)
        /\ exists line, L line
                        /\ stderr (snd (m w)) = (stderr w ++ [line])%list).

(** The error lines of the two programs. *)
Definition transcript_downloader_error (line : string) : Prop :=
  exists msg, line = nl ++ "Error: " ++ msg
              \/ line = nl ++ "Error during audio transcription: " ++ msg.

Definition podcast_transcriber_error (line : string) : Prop :=
  line = "Error: Unsupported platform. Currently only Acast and "
         ++ "Apple Podcasts are supported."
  \/ exists msg, line = nl ++ "Error: " ++ msg.

(** What a locator owes its caller: one request, for the page, and nothing
    else done to the world; an address that counts as true when it
    returns; no [RequestException] when it raises. *)
Definition locator_contract (locate : string -> M (pyval * pyval * pyval))
    : Prop :=
  forall url w, exists r,
    locate url w
    = (r, World (disk w) (calls w ++ [CallGetPage url])%list (stderr w))
    /\ (forall audio_url episode_title show_title,
          r = Ok (audio_url, episode_title, show_title) ->
          truthy audio_url = true)
    /\ (forall e, r = Raise e -> is_a RequestException e = false).

(** The calls one run of [transcript_downloader] can add to the log:
    caption requests, then at most one download, then the engine calls,
    which come only after a download.  A listing makes no download, and
    [--audio-only] no caption request. *)
Definition run_grammar (E : env) (a : TranscriptDownloader.args)
    (new : list call) : Prop :=
  exists captions downloads engines,
    new = (captions ++ downloads ++ engines)%list
    /\ Forall (fun c => is_caption c = true) captions
    /\ (TranscriptDownloader.list_transcripts a = false ->
        TranscriptDownloader.audio_only a = true -> captions = [])
    /\ (downloads = []
        \/ downloads
           = [CallYtDlp (TranscriptDownloader.args_url a)
                (path_join (path_join (gettempdir E) "youtube_transcripts")
                   "%(id)s.%(ext)s")])
    /\ (TranscriptDownloader.list_transcripts a = true -> downloads = [])
    /\ engine_calls (TranscriptDownloader.use_local_whisper a)
         (WHISPER_AVAILABLE E) engines
    /\ (downloads = [] -> engines = []).

(** The calls one run of [podcast_transcriber] can add to the log: the
    request for the page, then the request for the media, then the
    engine, each once at most and none without the one before. *)
Definition podcast_run_grammar (E : env) (a : PodcastTranscriber.args)
    (new : list call) : Prop :=
  let page := CallGetPage (PodcastTranscriber.args_url a) in
  new = []
  \/ new = [page]
  \/ (exists u,
        new = [page; CallGetMedia u (PodcastTranscriber.referer_for u)])
  \/ (exists u audio_file,
        new = [page; CallGetMedia u (PodcastTranscriber.referer_for u);
               CallWhisper (PodcastTranscriber.args_model a) audio_file
                 (PodcastTranscriber.whisper_language
                    (PodcastTranscriber.args_language a))]
        /\ WHISPER_AVAILABLE E = true).

(** What [pathlib] keeps as a component of a path: not empty, not [.],
    no slash; and what it keeps as a root. *)
Definition no_slash (s : string) : bool :=
  string_forallb (fun c => negb (Chars.is_char "/" c)) s.

Definition component (p : string) : bool :=
  negb (String.eqb p "" || String.eqb p ".") && no_slash p.

Definition is_root (r : string) : Prop := r = "" \/ r = "/" \/ r = "//".

(** The file at [path] can be written when the files of [d] exist: its
    directory can be made and the file opened. *)
Definition can_write (E : env) (d : gset string) (path : string) : Prop :=
  fs_mkdir E d (path_parent path) = None /\ fs_open E d path = None.

(* ================================================================= *)
(** ** Facts about the matcher *)

Lemma length_app_string (a b : string) :
  String.length (a ++ b) = String.length a + String.length b.
Proof. induction a as [|c a IH]; simpl; [reflexivity | now rewrite IH]. Qed.

Lemma append_cons (c : ascii) (a b : string) :
  String c a ++ b = String c (a ++ b).
Proof. reflexivity. Qed.

Lemma append_empty (a : string) : a ++ "" = a.
Proof.
  induction a as [|c a IH]; [reflexivity|]. now rewrite append_cons, IH.
Qed.

Lemma take_app_exact (g rest : string) : take (String.length g) (g ++ rest) = g.
Proof.
  induction g as [|c g IH]; simpl.
  - now destruct rest.
  - now rewrite IH.
Qed.

Lemma consumed_app (g rest : string) : consumed (g ++ rest) rest = g.
Proof.
  unfold consumed. rewrite length_app_string.
  replace (String.length g + String.length rest - String.length rest)
    with (String.length g) by lia.
  apply take_app_exact.
Qed.

Section MatcherFacts.
Context {R : Type}.
Implicit Types (k : @kont R) (x : R).

Lemma or_else_inv (a : option R) (f : unit -> option R) x :
  or_else a f = Some x -> a = Some x \/ f tt = Some x.
Proof. destruct a; simpl; auto. Qed.

Lemma rmatch_cat r1 r2 b s caps k :
  rmatch (Cat r1 r2) b s caps k
  = rmatch r1 b s caps (fun b' s' caps' => rmatch r2 b' s' caps' k).
Proof. reflexivity. Qed.

Lemma rmatch_alt r1 r2 b s caps k :
  rmatch (Alt r1 r2) b s caps k
  = or_else (rmatch r1 b s caps k) (fun _ => rmatch r2 b s caps k).
Proof. reflexivity. Qed.

Lemma rmatch_lit_inv (l : string) b s caps k x :
  rmatch (Lit l) b s caps k = Some x ->
  exists b' rest, s = l ++ rest /\ k b' rest caps = Some x.
Proof.
  revert b s. induction l as [|c l IH]; intros b s H; simpl in H.
  - exists b, s. auto.
  - destruct s as [|d s]; [discriminate|].
    destruct (Ascii.eqb c d) eqn:E; [|discriminate].
    apply Ascii.eqb_eq in E. subst d.
    destruct (IH _ _ H) as (b' & rest & -> & Hk).
    exists b', rest. auto.
Qed.

Lemma rmatch_rep_inv (p : ascii -> bool) (n : nat) b s caps k x :
  rmatch (Rep n (Chr p)) b s caps k = Some x ->
  exists b' g rest,
    s = g ++ rest /\ String.length g = n /\ string_forallb p g = true
    /\ k b' rest caps = Some x.
Proof.
  revert b s. induction n as [|n IH]; intros b s H; simpl in H.
  - exists b, "", s. auto.
  - destruct s as [|c s]; [discriminate|].
    destruct (p c) eqn:E; [|discriminate].
    destruct (IH _ _ H) as (b' & g & rest & -> & Hl & Hp & Hk).
    exists b', (String c g), rest. simpl. rewrite E, Hp, Hl. auto.
Qed.

Lemma rmatch_rep_ok (p : ascii -> bool) (g rest : string) b caps k :
  string_forallb p g = true ->
  rmatch (Rep (String.length g) (Chr p)) b (g ++ rest) caps k
  = k (match g with EmptyString => b | _ => false end) rest caps.
Proof.
  revert b. induction g as [|c g IH]; intros b H; simpl in *.
  - reflexivity.
  - apply andb_prop in H as [Hc Hg]. rewrite Hc, (IH _ Hg).
    now destruct g.
Qed.

Lemma star_run_inv greedy (p : ascii -> bool) b s
    (k : bool -> string -> option R) x :
  star_run greedy p b s k = Some x -> exists b' s', k b' s' = Some x.
Proof.
  revert b. induction s as [|c s IH]; intros b H; simpl in H.
  - destruct greedy; simpl in H; eauto.
    apply or_else_inv in H as [H|H]; [eauto | discriminate].
  - destruct greedy; apply or_else_inv in H as [H|H]; eauto;
      destruct (p c); try discriminate; eauto.
Qed.

Lemma rmatch_lit_ok (l rest : string) b caps k :
  rmatch (Lit l) b (l ++ rest) caps k
  = k (match l with EmptyString => b | _ => false end) rest caps.
Proof.
  revert b. induction l as [|c l IH]; intros b; [reflexivity|].
  rewrite append_cons. cbn [Lit rmatch]. rewrite Ascii.eqb_refl, IH.
  now destruct l.
Qed.

(** A greedy repetition that can take all of [g] and then succeed does. *)
Lemma star_run_greedy_longest (p : ascii -> bool) (g rest : string) b
    (k : bool -> string -> option R) x :
  string_forallb p g = true -> stops p rest ->
  k (match g with EmptyString => b | _ => false end) rest = Some x ->
  star_run true p b (g ++ rest) k = Some x.
Proof.
  revert b. induction g as [|c g IH]; intros b Hg Hstop Hk.
  - change ("" ++ rest) with rest.
    destruct rest as [|c rest]; cbn in *; [now rewrite Hk|].
    now rewrite Hstop, Hk.
  - rewrite append_cons. cbn in Hg. apply andb_prop in Hg as [Hc Hg].
    cbn [star_run]. rewrite Hc.
    rewrite (IH false Hg Hstop); [reflexivity|].
    now destruct g.
Qed.

Lemma rmatch_grp_plus_ok (p : ascii -> bool) (c : ascii) (g rest : string)
    b caps k x :
  p c = true -> string_forallb p g = true -> stops p rest ->
  k false rest (caps ++ [String c g])%list = Some x ->
  rmatch (Grp (Plus p)) b (String c g ++ rest) caps k = Some x.
Proof.
  intros Hc Hg Hstop Hk. rewrite append_cons. cbn [rmatch Plus]. rewrite Hc.
  apply star_run_greedy_longest; auto.
  rewrite <- append_cons, consumed_app.
  now destruct g.
Qed.

Lemma rmatch_grp_rep_inv (p : ascii -> bool) (n : nat) b s caps k x :
  rmatch (Grp (Rep n (Chr p))) b s caps k = Some x ->
  exists b' g rest,
    s = g ++ rest /\ String.length g = n /\ string_forallb p g = true
    /\ k b' rest (caps ++ [g])%list = Some x.
Proof.
  simpl. intros H.
  destruct (rmatch_rep_inv _ _ _ _ _ _ _ H)
    as (b' & g & rest & -> & Hl & Hp & Hk).
  rewrite consumed_app in Hk. eauto 10.
Qed.
End MatcherFacts.

Lemma take_all (s : string) : take (String.length s) s = s.
Proof. induction s as [|c s IH]; cbn; [reflexivity | now rewrite IH]. Qed.

Lemma search_from_skip (r : regex) b c s :
  match_at r b (String c s) = None ->
  search_from r b (String c s) = search_from r false s.
Proof. intros H. cbn [search_from]. now rewrite H. Qed.

Lemma search_from_hit (r : regex) b s m :
  match_at r b s = Some m -> search_from r b s = Some m.
Proof. intros H. destruct s; cbn [search_from]; now rewrite H. Qed.

Lemma search_from_inv (r : regex) b s m :
  search_from r b s = Some m -> exists b' s', match_at r b' s' = Some m.
Proof.
  revert b. induction s as [|c s IH]; intros b H; simpl in H.
  - destruct (match_at r b "") eqn:E; [|discriminate].
    inversion H; subst; eauto.
  - destruct (match_at r b (String c s)) eqn:E.
    + inversion H; subst; eauto.
    + eauto.
Qed.

(* ================================================================= *)
(** ** What a computation adds to the log of calls *)

Lemma closed_nil : closed (fun new => new = []).
Proof. split; [reflexivity | intros l1 l2 -> ->; reflexivity]. Qed.

Lemma closed_Forall (Q : call -> Prop) : closed (Forall Q).
Proof. split; [constructor | intros l1 l2 H1 H2; now apply Forall_app]. Qed.

Section Appends.
Context {A B : Type}.
Implicit Types (P : list call -> Prop).

Lemma appends_weaken P1 P (m : M A) :
  appends P1 m -> (forall l, P1 l -> P l) -> appends P m.
Proof. intros H HP w. destruct (H w) as (new & E & Hn). eauto. Qed.

Lemma appends_same P (m : M A) :
  (forall w, calls (snd (m w)) = calls w) -> P [] -> appends P m.
Proof. intros H HP w. exists []. rewrite app_nil_r. auto. Qed.

Lemma appends_ret P (a : A) : P [] -> appends P (ret a).
Proof. now apply appends_same. Qed.

Lemma appends_mret P (a : A) : P [] -> appends P (mret a).
Proof. now apply appends_same. Qed.

Lemma appends_raise P (e : exn) : P [] -> appends P (raise e : M A).
Proof. now apply appends_same. Qed.

Lemma appends_sys_exit P (code : Z) : P [] -> appends P (sys_exit code : M A).
Proof. now apply appends_same. Qed.

Lemma appends_lift P (r : result A) : P [] -> appends P (lift r).
Proof. now apply appends_same. Qed.

Lemma appends_bind P1 P2 P (m : M A) (f : A -> M B) :
  appends P1 m -> (forall a, appends P2 (f a)) ->
  (forall l1, P1 l1 -> P l1) ->
  (forall l1 l2, P1 l1 -> P2 l2 -> P (l1 ++ l2)%list) ->
  appends P (m ≫= f).
Proof.
  intros Hm Hf Hl Happ w. unfold mbind, M_bind, bind.
  destruct (Hm w) as (l1 & E1 & H1). destruct (m w) as [[a|e] w1]; cbn in *.
  - destruct (Hf a w1) as (l2 & E2 & H2).
    exists (l1 ++ l2)%list. rewrite E2, E1, app_assoc. auto.
  - eauto.
Qed.

Lemma appends_bind_closed P (m : M A) (f : A -> M B) :
  closed P -> appends P m -> (forall a, appends P (f a)) ->
  appends P (m ≫= f).
Proof.
  intros [_ Happ] Hm Hf. eapply appends_bind; eauto.
Qed.
End Appends.

Section AppendsTry.
Context {A : Type}.
Implicit Types (P : list call -> Prop).

Lemma appends_handle P (clauses : list (exn_class * (exn -> M A))) (e : exn) :
  P [] -> handlers_append P clauses -> appends P (handle clauses e).
Proof.
  intros HP H. induction H as [|[c h] rest Hh _ IH]; cbn.
  - now apply appends_raise.
  - destruct (is_a c e); [apply Hh | apply IH].
Qed.

Lemma appends_try_except P1 P2 P (body : M A)
    (clauses : list (exn_class * (exn -> M A))) :
  appends P1 body -> P2 [] -> handlers_append P2 clauses ->
  (forall l1 l2, P1 l1 -> P2 l2 -> P (l1 ++ l2)%list) ->
  appends P (try_except body clauses).
Proof.
  intros Hb H0 Hh Happ w. unfold try_except.
  destruct (Hb w) as (l1 & E1 & H1). destruct (body w) as [[a|e] w1]; cbn in *.
  - exists l1. split; [assumption|].
    rewrite <- (app_nil_r l1). now apply Happ.
  - destruct (appends_handle P2 clauses e H0 Hh w1) as (l2 & E2 & H2).
    exists (l1 ++ l2)%list. rewrite E2, E1, app_assoc. auto.
Qed.

Lemma appends_try_except_closed P (body : M A)
    (clauses : list (exn_class * (exn -> M A))) :
  closed P -> appends P body -> handlers_append P clauses ->
  appends P (try_except body clauses).
Proof.
  intros [H0 Happ] Hb Hh. eapply appends_try_except; eauto.
Qed.
End AppendsTry.

Lemma appends_log P (c : call) : P [c] -> appends P (log c).
Proof. intros H w. exists [c]. auto. Qed.

Lemma appends_eprint P (line : string) : P [] -> appends P (eprint line).
Proof. now apply appends_same. Qed.

Lemma appends_create_file P (path : string) : P [] -> appends P (create_file path).
Proof. now apply appends_same. Qed.

Lemma appends_unlink P (path : string) : P [] -> appends P (unlink path).
Proof. now apply appends_same. Qed.

Lemma appends_exists P (path : string) : P [] -> appends P (exists_ path).
Proof. now apply appends_same. Qed.

Lemma appends_mkdir P (E : env) (path : string) :
  P [] -> appends P (mkdir E path).
Proof.
  intros H w. exists []. unfold mkdir.
  destruct (fs_mkdir E (disk w) path); cbn; now rewrite app_nil_r.
Qed.

Lemma appends_open_w P (E : env) (path : string) :
  P [] -> appends P (open_w E path).
Proof.
  intros H w. exists []. unfold open_w.
  destruct (fs_open E (disk w) path); cbn; now rewrite app_nil_r.
Qed.

Lemma appends_open_rb P (E : env) (path : string) :
  P [] -> appends P (open_rb E path).
Proof.
  intros H w. exists []. unfold open_rb.
  destruct (bool_decide _); cbn; now rewrite app_nil_r.
Qed.

Lemma appends_create_files P (paths : list string) :
  closed P -> appends P (create_files paths).
Proof.
  intros HP. induction paths as [|p ps IH]; cbn [create_files].
  - apply appends_mret, HP.
  - apply appends_bind_closed; auto. apply appends_create_file, HP.
Qed.

(** After a call that is logged, a silent rest leaves exactly that call. *)
Lemma appends_log_then {A} (c : call) (k : M A) :
  silent k -> appends (fun new => new = [c]) (log c ;; k).
Proof.
  intros Hk. eapply appends_bind with (P1 := fun new => new = [c]).
  - now apply appends_log.
  - intros _. exact Hk.
  - auto.
  - intros l1 l2 -> ->. reflexivity.
Qed.

(* ================================================================= *)
(** ** Paths in normal form *)

Module PathFacts.

Lemma append_cons_assoc (acc : string) (c : ascii) (s : string) :
  ((acc ++ String c "") ++ s = acc ++ String c s)%string.
Proof.
  induction acc as [|a acc IH]; [reflexivity|].
  now rewrite !append_cons, IH.
Qed.

Lemma no_slash_app (s t : string) :
  no_slash (s ++ t) = no_slash s && no_slash t.
Proof.
  induction s as [|a s IH]; [reflexivity|].
  rewrite append_cons. unfold no_slash in *. cbn [string_forallb].
  now rewrite IH, andb_assoc.
Qed.

Lemma split_slash_app (p : string) :
  forall acc s,
    no_slash p = true ->
    split_slash acc (p ++ s) = split_slash (acc ++ p) s.
Proof.
  induction p as [|c p IH]; intros acc s Hp.
  - now rewrite append_empty.
  - cbn in Hp. apply andb_prop in Hp as [Hc Hp].
    apply negb_true_iff in Hc. rewrite append_cons. cbn [split_slash].
    rewrite Hc.
    rewrite (IH (acc ++ String c "")%string s Hp).
    now rewrite append_cons_assoc.
Qed.

Lemma split_slash_components (s : string) :
  forall acc, no_slash acc = true ->
              Forall (fun p => no_slash p = true) (split_slash acc s).
Proof.
  induction s as [|c s IH]; intros acc Hacc; cbn [split_slash].
  - now constructor.
  - destruct (Chars.is_char "/" c) eqn:Hc.
    + constructor; [exact Hacc | now apply IH].
    + apply IH. rewrite no_slash_app, Hacc. cbn. now rewrite Hc.
Qed.

Lemma path_parts_components (s : string) :
  Forall (fun p => component p = true) (path_parts s).
Proof.
  unfold path_parts.
  pose proof (split_slash_components s "" eq_refl) as H.
  induction H as [|p ps Hp _ IH]; cbn [List.filter]; [constructor|].
  destruct (negb _) eqn:Hkeep; [|exact IH].
  constructor; [|exact IH]. unfold component. now rewrite Hkeep, Hp.
Qed.

Lemma path_root_is_root (s : string) : is_root (path_root s).
Proof.
  unfold is_root, path_root. destruct s as [|a s]; [now left|].
  destruct (Chars.is_char "/" a); [|now left].
  destruct s as [|b s]; [now right; left|].
  destruct (_ && _); [now right; right | now right; left].
Qed.

Lemma component_head (p : string) :
  component p = true -> starts_slash p = false /\ p <> ""%string.
Proof.
  unfold component, no_slash. destruct p as [|c p]; [discriminate|].
  intros H. apply andb_prop in H as [_ H]. cbn in H.
  apply andb_prop in H as [H _]. apply negb_true_iff in H.
  split; [exact H | discriminate].
Qed.

Lemma concat_head (ps : list string) :
  Forall (fun p => component p = true) ps ->
  starts_slash (String.concat "/" ps) = false.
Proof.
  intros [|p ps' Hp _]; [reflexivity|].
  destruct (component_head p Hp) as [Hhead Hne].
  destruct p as [|c p]; [now destruct Hne|].
  cbn [String.concat]. destruct ps'; exact Hhead.
Qed.

Lemma split_slash_concat (ps : list string) :
  Forall (fun p => component p = true) ps ->
  forall acc,
    ps <> [] ->
    split_slash acc (String.concat "/" ps)
    = (acc ++ List.hd "" ps)%string :: List.tl ps.
Proof.
  induction 1 as [|p ps Hp Hps IH]; intros acc Hne; [now destruct Hne|].
  assert (no_slash p = true) as Hslash.
  { unfold component in Hp. now apply andb_prop in Hp as [_ Hp]. }
  cbn [String.concat List.hd List.tl]. destruct ps as [|q ps].
  - rewrite <- (append_empty p) at 1.
    now rewrite (split_slash_app p acc "" Hslash).
  - rewrite (split_slash_app p acc _ Hslash). rewrite append_cons.
    cbn [split_slash]. change (Chars.is_char "/" "/") with true.
    cbv iota. change ("" ++ String.concat "/" (q :: ps))%string
      with (String.concat "/" (q :: ps)).
    rewrite (IH "" ltac:(discriminate)). reflexivity.
Qed.

Lemma filter_components (ps : list string) :
  Forall (fun p => component p = true) ps ->
  List.filter (fun p => negb (String.eqb p "" || String.eqb p ".")) ps = ps.
Proof.
  induction 1 as [|p ps Hp _ IH]; [reflexivity|]. cbn [List.filter].
  unfold component in Hp. apply andb_prop in Hp as [-> _]. now rewrite IH.
Qed.

Lemma path_parts_concat (ps : list string) :
  Forall (fun p => component p = true) ps ->
  path_parts (String.concat "/" ps) = ps.
Proof.
  intros Hps. unfold path_parts. destruct ps as [|p ps]; [reflexivity|].
  rewrite (split_slash_concat _ Hps "" ltac:(discriminate)).
  cbn [List.hd List.tl append]. now apply filter_components.
Qed.

Lemma path_parts_slash (s : string) :
  path_parts (String "/" s) = path_parts s.
Proof. reflexivity. Qed.

Lemma path_root_str (r : string) (ps : list string) :
  is_root r -> Forall (fun p => component p = true) ps ->
  path_root (path_str r ps) = r.
Proof.
  intros Hr Hps. pose proof (concat_head ps Hps) as Hhead.
  destruct Hr as [-> | [-> | ->]]; destruct ps as [|p ps]; try reflexivity;
    remember (String.concat "/" (p :: ps)) as s eqn:Hs;
    unfold path_str; rewrite <- Hs.
  - change ("" ++ s)%string with s.
    destruct s as [|c s]; [reflexivity|]. unfold path_root.
    cbn [starts_slash] in Hhead. now rewrite Hhead.
  - change ("/" ++ s)%string with (String "/" s). unfold path_root.
    change (Chars.is_char "/" "/") with true. cbv iota.
    destruct s as [|c s]; [reflexivity|].
    cbn [starts_slash] in Hhead. now rewrite Hhead.
  - change ("//" ++ s)%string with (String "/" (String "/" s)).
    unfold path_root. change (Chars.is_char "/" "/") with true. cbv iota.
    now rewrite Hhead.
Qed.

Lemma path_parts_str (r : string) (ps : list string) :
  is_root r -> Forall (fun p => component p = true) ps ->
  path_parts (path_str r ps) = ps.
Proof.
  intros Hr Hps. pose proof (path_parts_concat ps Hps) as Hparts.
  destruct Hr as [-> | [-> | ->]]; destruct ps as [|p ps]; try reflexivity;
    remember (String.concat "/" (p :: ps)) as s eqn:Hs;
    unfold path_str; rewrite <- Hs.
  - exact Hparts.
  - change ("/" ++ s)%string with (String "/" s).
    now rewrite path_parts_slash.
  - change ("//" ++ s)%string with (String "/" (String "/" s)).
    now rewrite !path_parts_slash.
Qed.




Lemma path_join_Path (dir name : string) :
  path_join (Path dir) name = path_join dir name.
Proof.
  unfold path_join, Path at 1 2.
  now rewrite (path_root_str _ _ (path_root_is_root dir)
                 (path_parts_components dir)),
    (path_parts_str _ _ (path_root_is_root dir) (path_parts_components dir)).
Qed.

End PathFacts.

(* ================================================================= *)
(** ** [extract_video_id] *)

Module VideoIdFacts.
Import VideoId.

Lemma id11_fullmatch (v : string) :
  id11 v -> exists m, re_match pat_id v = Some m.
Proof.
  intros [Hl Hp]. unfold re_match, match_at, pat_id.
  cbn [rmatch]. rewrite <- Hl.
  match goal with
  | |- context [rmatch _ ?b v ?caps ?k] =>
      pose proof (rmatch_rep_ok Chars.idchar v "" b caps k Hp) as E
  end.
  rewrite append_empty in E. rewrite E. cbn [rmatch]. eauto.
Qed.

Lemma id11_extract (v : string) : id11 v -> extract_video_id v = Ok v.
Proof.
  intros H. unfold extract_video_id.
  destruct (id11_fullmatch v H) as [m ->]. reflexivity.
Qed.

Ltac group1_from H :=
  let b' := fresh "b'" in let g := fresh "g" in let rest := fresh "rest" in
  let Hl := fresh "Hl" in let Hp := fresh "Hp" in
  apply rmatch_grp_rep_inv in H as (b' & g & rest & -> & Hl & Hp & H);
  cbn [app] in H.

Ltac lit_from H :=
  let b' := fresh "b'" in let rest := fresh "rest" in
  apply rmatch_lit_inv in H as (b' & rest & _ & H).

Lemma pat_v_group1 b s m : match_at pat_v b s = Some m -> id11 (group 1 m).
Proof.
  unfold match_at, pat_v. rewrite rmatch_cat, rmatch_alt. intros H.
  apply or_else_inv in H as [H|H]; lit_from H; rewrite rmatch_cat in H;
    group1_from H; cbn [rmatch] in H;
    apply star_run_inv in H as (? & ? & H); inversion H; subst;
    split; assumption.
Qed.

Lemma pat_embed_group1 b s m : match_at pat_embed b s = Some m -> id11 (group 1 m).
Proof.
  unfold match_at, pat_embed. rewrite rmatch_cat. intros H.
  lit_from H. group1_from H. inversion H; subst. split; assumption.
Qed.

Lemma pat_watch_group1 b s m : match_at pat_watch b s = Some m -> id11 (group 1 m).
Proof.
  unfold match_at, pat_watch. rewrite rmatch_cat. intros H.
  lit_from H. group1_from H. inversion H; subst. split; assumption.
Qed.

Lemma pat_bare_group1 b s m : match_at pat_bare b s = Some m -> id11 (group 1 m).
Proof.
  unfold match_at, pat_bare. rewrite rmatch_cat. intros H.
  destruct b; [|discriminate]. cbn [rmatch] in H.
  change (rmatch (Grp (Rep 11 (Chr Chars.idchar))) true s []
            (fun b1 s1 caps1 =>
               rmatch Eol b1 s1 caps1
                 (fun _ s2 caps2 => Some (MatchObj (consumed s s2) caps2)))
          = Some m) in H.
  group1_from H. cbn [rmatch] in H.
  assert (exists s2, Some (MatchObj (consumed (g ++ rest) s2) [g]) = Some m)
    as [s2 E].
  { destruct rest as [|c [|]]; try discriminate; eauto.
    destruct (Nat.eqb (Chars.code c) 10); [eauto | discriminate]. }
  inversion E; subst. split; assumption.
Qed.

Lemma first_group1_id11 url id :
  first_group1 patterns url = Some id -> id11 id.
Proof.
  unfold patterns, first_group1, re_search. intros H.
  repeat match type of H with
    | match search_from ?p ?b ?s with _ => _ end = _ =>
        let E := fresh "E" in
        destruct (search_from p b s) eqn:E;
          [ inversion H; subst; clear H;
            apply search_from_inv in E as (? & ? & E) | ]
    end; try discriminate;
    eauto using pat_v_group1, pat_embed_group1, pat_watch_group1, pat_bare_group1.
Qed.

(** C10: the identity on an eleven-character identifier, and idempotent
    wherever the extraction succeeds. *)
Theorem extract_video_id_idempotent (u v : string) :
  (String.length u = 11 -> string_forallb Chars.idchar u = true ->
   extract_video_id u = Ok u)
  /\ (extract_video_id u = Ok v -> extract_video_id v = Ok v).
Proof.
  split.
  - intros Hl Hp. apply id11_extract. split; assumption.
  - unfold extract_video_id at 1. intros H.
    destruct (re_match pat_id u) eqn:E.
    + inversion H; subst. unfold extract_video_id. now rewrite E.
    + destruct (first_group1 patterns u) eqn:F; [|discriminate].
      inversion H; subst. apply id11_extract. eauto using first_group1_id11.
Qed.

Lemma extract_video_id_idempotent_witness :
  extract_video_id "dQw4w9WgXcQ" = Ok "dQw4w9WgXcQ"
  /\ extract_video_id "jNQXAC9IVRw" = Ok "jNQXAC9IVRw".
Proof.
  split.
  - apply (proj1 (extract_video_id_idempotent "dQw4w9WgXcQ" "")); reflexivity.
  - apply (proj2 (extract_video_id_idempotent
                    "https://www.youtube.com/watch?v=jNQXAC9IVRw" "jNQXAC9IVRw")).
    vm_compute. reflexivity.
Defined.

End VideoIdFacts.

(* ================================================================= *)
(** ** [get_transcript] *)

Module CaptionFacts.
Import TranscriptDownloader.

Section WithEnv.
Variable E : env.

Lemma try_languages_skips video_id before rest d c s :
  Forall (fun lang => no_track E video_id (Some lang)) before ->
  try_languages E video_id (before ++ rest) (World d c s)
  = try_languages E video_id rest
      (World d (c ++ requests_for video_id before) s).
Proof.
  intros H. revert c. induction H as [|lang before [e He] _ IH]; intros c.
  - simpl. now rewrite app_nil_r.
  - cbn [app try_languages]. unfold mbind, M_bind, bind, log. cbn.
    rewrite He. rewrite IH. now rewrite <- app_assoc.
Qed.

Lemma try_languages_exhausted video_id languages d c s :
  Forall (fun lang => no_track E video_id (Some lang)) languages ->
  try_languages E video_id languages (World d c s)
  = (Ok None, World d (c ++ requests_for video_id languages) s).
Proof.
  intros H.
  rewrite <- (app_nil_r languages) at 1.
  now rewrite (try_languages_skips _ _ _ _ _ _ H).
Qed.

Lemma get_transcript_exhausted video_id languages d c s :
  Forall (fun lang => no_track E video_id (Some lang)) languages ->
  get_transcript E video_id (Some languages) (World d c s)
  = (match api_get_transcript E video_id None with
     | Ok data => Ok (data, "unknown")
     | Raise _ =>
         Raise (Exn Exception
           "Error fetching transcript: No transcripts available for this video")
     end,
     World d (c ++ requests_for video_id languages
                ++ [CallGetTranscript video_id None]) s).
Proof.
  intros H. unfold get_transcript, try_except, mbind, M_bind, bind.
  rewrite (try_languages_exhausted _ _ _ _ _ H).
  unfold log. cbn.
  destruct (api_get_transcript E video_id None); cbn;
    now rewrite <- app_assoc.
Qed.

(** C6: the languages are requested in the order of the list and the
    first one that has a track is returned with its tag; when none has,
    one request without a language follows before the failure. *)
Theorem get_transcript_language_order
    (video_id : string) (before after : list string) (lang : string)
    (w : world) :
  Forall (fun l => no_track E video_id (Some l)) before ->
  (forall data,
     api_get_transcript E video_id (Some lang) = Ok data ->
     get_transcript E video_id (Some (before ++ lang :: after)%list) w
     = (Ok (data, lang),
        World (disk w)
              (calls w ++ requests_for video_id (before ++ [lang]))
              (stderr w)))
  /\ (get_transcript E video_id (Some before) w
      = (match api_get_transcript E video_id None with
         | Ok data => Ok (data, "unknown")
         | Raise _ =>
             Raise (Exn Exception
               "Error fetching transcript: No transcripts available for this video")
         end,
         World (disk w)
               (calls w ++ requests_for video_id before
                        ++ [CallGetTranscript video_id None])
               (stderr w))).
Proof.
  intros Hbefore. destruct w as [d c s]. split.
  - intros data Hlang.
    unfold get_transcript, try_except, mbind, M_bind, bind.
    rewrite (try_languages_skips _ _ _ _ _ _ Hbefore).
    cbn [try_languages]. unfold mbind, M_bind, bind, log. cbn.
    rewrite Hlang. cbn. unfold requests_for.
    now rewrite map_app, <- app_assoc.
  - now apply get_transcript_exhausted.
Qed.

End WithEnv.

(** The preferences fr, en on a video that has an English track only. *)
Lemma get_transcript_language_order_witness :
  fst (get_transcript Worked.english_only "dQw4w9WgXcQ" (Some ["fr"; "en"])
         Worked.empty_world)
  = Ok ([PDict [("text", PStr "hello")]], "en")
  /\ calls (snd (get_transcript Worked.english_only "dQw4w9WgXcQ"
                   (Some ["fr"]) Worked.empty_world))
     = [CallGetTranscript "dQw4w9WgXcQ" (Some "fr");
        CallGetTranscript "dQw4w9WgXcQ" None].
Proof.
  assert (Forall (fun l => no_track Worked.english_only "dQw4w9WgXcQ" (Some l))
            ["fr"]) as H.
  { repeat constructor. eexists. reflexivity. }
  destruct (get_transcript_language_order Worked.english_only "dQw4w9WgXcQ"
              ["fr"] [] "en" Worked.empty_world H) as [H1 H2].
  split.
  - exact (f_equal fst (H1 _ eq_refl)).
  - exact (f_equal (fun r => calls (snd r)) H2).
Defined.

End CaptionFacts.

(* ================================================================= *)
(** ** The transcription engines *)

Module EngineFacts.

Section WithEnv.
Variable E : env.

Ltac quiet :=
  repeat first
    [ apply appends_mret | apply appends_ret | apply appends_raise
    | apply appends_lift | apply appends_sys_exit | reflexivity
    | apply appends_bind_closed; [apply closed_nil | | intros ?] ].

Lemma silent_py_subscript key v :
  silent (TranscriptDownloader.py_subscript E key v).
Proof. destruct v; cbn; quiet. Qed.

Lemma silent_segment_texts segments :
  silent (TranscriptDownloader.segment_texts E segments).
Proof.
  induction segments as [|v rest IH]; cbn [TranscriptDownloader.segment_texts].
  - quiet.
  - destruct v; quiet. exact IH.
Qed.

Lemma silent_join_space ts : silent (TranscriptDownloader.join_space E ts).
Proof.
  induction ts as [|v rest IH]; cbn [TranscriptDownloader.join_space].
  - quiet.
  - destruct v; quiet. exact IH.
Qed.

Lemma silent_join_segments v :
  silent (TranscriptDownloader.join_segments E v).
Proof.
  destruct v as [| | | |s|l|d]; cbn; quiet.
  - destruct s; quiet.
  - apply silent_segment_texts.
  - apply silent_join_space.
  - destruct d as [|[k x] d]; quiet.
Qed.

(** The upload is one request, made with the language as given. *)
Lemma whishper_post_calls audio_file api_endpoint language :
  appends
    (fun new => new = [CallWhishper api_endpoint (path_name audio_file)
                         language])
    (TranscriptDownloader.whishper_post E audio_file api_endpoint language).
Proof.
  unfold TranscriptDownloader.whishper_post.
  apply appends_log_then.
  destruct (requests_post E _ _ _) as [e|status text json]; [quiet|].
  destruct (Z.eqb status 200); [|quiet].
  apply appends_bind_closed; [apply closed_nil | quiet | intros result].
  destruct (TranscriptDownloader.py_in "text" result) as [[|]|];
    [apply silent_py_subscript | | quiet].
  destruct (TranscriptDownloader.py_in "segments" result) as [[|]|];
    [ | quiet | quiet].
  apply appends_bind_closed;
    [apply closed_nil | apply silent_py_subscript | intros segments].
  apply silent_join_segments.
Qed.

Lemma whishper_clauses_silent whishper_url :
  handlers_append (fun new => new = [])
    (TranscriptDownloader.whishper_clauses whishper_url).
Proof. repeat constructor; intros e; cbn; quiet. Qed.

Lemma whishper_try_calls audio_file whishper_url language :
  appends
    (fun new => new = [CallWhishper (rstrip_slash whishper_url
                                     ++ "/api/transcriptions")
                         (path_name audio_file) language])
    (try_except
       (TranscriptDownloader.whishper_post E audio_file
          (rstrip_slash whishper_url ++ "/api/transcriptions") language)
       (TranscriptDownloader.whishper_clauses whishper_url)).
Proof.
  eapply appends_try_except with (P2 := fun new => new = []).
  - apply whishper_post_calls.
  - reflexivity.
  - apply whishper_clauses_silent.
  - intros l1 l2 -> ->. reflexivity.
Qed.

(** With the audio file on the disk the remote engine is the upload under
    the three clauses; without it nothing is sent. *)
Lemma whishper_present audio_file whishper_url language w :
  audio_file ∈ disk w ->
  TranscriptDownloader.transcribe_with_whishper E audio_file whishper_url
    language w
  = try_except
      (TranscriptDownloader.whishper_post E audio_file
         (rstrip_slash whishper_url ++ "/api/transcriptions") language)
      (TranscriptDownloader.whishper_clauses whishper_url) w.
Proof.
  intros Hthere.
  unfold TranscriptDownloader.transcribe_with_whishper, try_except.
  unfold mbind, M_bind. unfold bind at 1. unfold open_rb.
  now rewrite (bool_decide_eq_true_2 _ Hthere).
Qed.

Lemma whishper_absent audio_file whishper_url language w :
  audio_file ∉ disk w ->
  TranscriptDownloader.transcribe_with_whishper E audio_file whishper_url
    language w
  = (Raise (Exn Exception
              ("Transcription failed: "
               ++ fault_msg E FaultOpen (PStr audio_file))), w).
Proof.
  intros Habsent.
  unfold TranscriptDownloader.transcribe_with_whishper, try_except.
  unfold mbind, M_bind. unfold bind at 1. unfold open_rb.
  now rewrite (bool_decide_eq_false_2 _ Habsent).
Qed.

(** The remote engine is at most one request. *)
Lemma whishper_calls audio_file whishper_url language :
  appends
    (fun new => new = []
                \/ new = [CallWhishper (rstrip_slash whishper_url
                                        ++ "/api/transcriptions")
                            (path_name audio_file) language])
    (TranscriptDownloader.transcribe_with_whishper E audio_file whishper_url
       language).
Proof.
  intros w. destruct (decide (audio_file ∈ disk w)) as [Hthere|Habsent].
  - rewrite (whishper_present _ _ _ _ Hthere).
    destruct (whishper_try_calls audio_file whishper_url language w)
      as (new & Hcalls & ->).
    exists [CallWhishper (rstrip_slash whishper_url ++ "/api/transcriptions")
              (path_name audio_file) language].
    split; [exact Hcalls | now right].
  - rewrite (whishper_absent _ _ _ _ Habsent). exists [].
    cbn. rewrite app_nil_r. split; [reflexivity | now left].
Qed.

(** With the audio file on the disk the request is made. *)
Lemma whishper_calls_present audio_file whishper_url language w :
  audio_file ∈ disk w ->
  calls (snd (TranscriptDownloader.transcribe_with_whishper E audio_file
                whishper_url language w))
  = (calls w ++ [CallWhishper (rstrip_slash whishper_url
                               ++ "/api/transcriptions")
                   (path_name audio_file) language])%list.
Proof.
  intros Hthere. rewrite (whishper_present _ _ _ _ Hthere).
  destruct (whishper_try_calls audio_file whishper_url language w)
    as (new & Hcalls & ->).
  exact Hcalls.
Qed.

(** The local engine of [transcript_downloader]: nothing is called without
    Whisper; with it, one call whose language is [None] for [en]. *)
Lemma local_whisper_calls audio_file language model_size :
  appends
    (fun new =>
       new = if WHISPER_AVAILABLE E
             then [CallWhisper model_size audio_file
                     (if String.eqb language "en" then None else Some language)]
             else [])
    (TranscriptDownloader.transcribe_with_local_whisper E audio_file language
       model_size).
Proof.
  unfold TranscriptDownloader.transcribe_with_local_whisper,
    TranscriptDownloader.whisper_language.
  destruct (WHISPER_AVAILABLE E); cbn [negb]; [|quiet].
  eapply appends_try_except with (P2 := fun new => new = []).
  - apply appends_log_then. quiet.
  - reflexivity.
  - repeat constructor; intros e; cbn; quiet.
  - intros l1 l2 -> ->. cbn. now destruct (String.eqb language "en").
Qed.

(** The engine of [podcast_transcriber]: [None] for [auto]. *)
Lemma podcast_whisper_calls audio_file language model_size :
  appends
    (fun new =>
       new = if WHISPER_AVAILABLE E
             then [CallWhisper model_size audio_file
                     (if String.eqb language "auto" then None
                      else Some language)]
             else [])
    (PodcastTranscriber.transcribe_audio E audio_file language model_size).
Proof.
  unfold PodcastTranscriber.transcribe_audio,
    PodcastTranscriber.whisper_language.
  destruct (WHISPER_AVAILABLE E); cbn [negb]; [|quiet].
  eapply appends_try_except with (P2 := fun new => new = []).
  - apply appends_log_then. quiet.
  - reflexivity.
  - repeat constructor; intros e; cbn; quiet.
  - intros l1 l2 -> ->. cbn. now destruct (String.eqb language "auto").
Qed.

(** C9, as the code has it: with Whisper installed, the engine of
    [podcast_transcriber] is left to decide exactly for the hint [auto]; the
    local engine of [transcript_downloader] is left to decide exactly for the
    hint [en]; the remote engine, which sends something only once it has
    opened the audio file, receives the hint as given. *)
Theorem language_hint_forwarding
    (audio_file language model_size whishper_url : string) (w : world) :
  WHISPER_AVAILABLE E = true ->
  calls (snd (PodcastTranscriber.transcribe_audio E audio_file language
                model_size w))
  = (calls w ++ [CallWhisper model_size audio_file
                   (if String.eqb language "auto" then None
                    else Some language)])%list
  /\ calls (snd (TranscriptDownloader.transcribe_with_local_whisper E
                   audio_file language model_size w))
     = (calls w ++ [CallWhisper model_size audio_file
                      (if String.eqb language "en" then None
                       else Some language)])%list
  /\ (audio_file ∈ disk w ->
      calls (snd (TranscriptDownloader.transcribe_with_whishper E audio_file
                    whishper_url language w))
      = (calls w ++ [CallWhishper (rstrip_slash whishper_url
                                   ++ "/api/transcriptions")
                       (path_name audio_file) language])%list)
  /\ (audio_file ∉ disk w ->
      calls (snd (TranscriptDownloader.transcribe_with_whishper E audio_file
                    whishper_url language w))
      = calls w).
Proof.
  intros Hw. repeat apply conj.
  - destruct (podcast_whisper_calls audio_file language model_size w)
      as (new & -> & ->). now rewrite Hw.
  - destruct (local_whisper_calls audio_file language model_size w)
      as (new & -> & ->). now rewrite Hw.
  - apply whishper_calls_present.
  - intros Habsent. now rewrite (whishper_absent _ _ _ _ Habsent).
Qed.

End WithEnv.

Lemma language_hint_forwarding_witness :
  calls (snd (TranscriptDownloader.transcribe_with_local_whisper
                Worked.with_whisper "/tmp/a.mp3" "fr" "base"
                Worked.audio_on_disk))
  = [CallWhisper "base" "/tmp/a.mp3" (Some "fr")]
  /\ calls (snd (TranscriptDownloader.transcribe_with_whishper
                   Worked.with_whisper "/tmp/a.mp3" "http://localhost:8082/"
                   "auto" Worked.audio_on_disk))
     = [CallWhishper "http://localhost:8082/api/transcriptions" "a.mp3"
          "auto"].
Proof.
  split.
  - exact (proj1 (proj2 (language_hint_forwarding Worked.with_whisper
                           "/tmp/a.mp3" "fr" "base" "http://localhost:8082"
                           Worked.audio_on_disk eq_refl))).
  - apply (proj1 (proj2 (proj2 (language_hint_forwarding Worked.with_whisper
                                  "/tmp/a.mp3" "auto" "base"
                                  "http://localhost:8082/"
                                  Worked.audio_on_disk eq_refl)))).
    compute_done.
Defined.

(** C9 as the spec has it fails on [transcript_downloader]: the hint [en]
    is not forwarded to the local engine, and the hint [auto] is. *)
Lemma language_hint_en_not_forwarded :
  calls (snd (TranscriptDownloader.transcribe_with_local_whisper
                Worked.with_whisper "/tmp/a.mp3" "en" "base"
                Worked.empty_world))
  <> [CallWhisper "base" "/tmp/a.mp3" (Some "en")]
  /\ calls (snd (TranscriptDownloader.transcribe_with_local_whisper
                   Worked.with_whisper "/tmp/a.mp3" "auto" "base"
                   Worked.empty_world))
     <> [CallWhisper "base" "/tmp/a.mp3" None].
Proof. split; vm_compute; discriminate. Qed.

End EngineFacts.

(* ================================================================= *)
(** ** The orchestrator of [transcript_downloader] *)

Module OrchestratorFacts.
Import VideoId TranscriptDownloader.

Lemma run_shape_no_remote available new :
  run_shape true available new -> no_remote new.
Proof.
  intros (pre & eng & -> & Hpre & Heng). apply Forall_app. split.
  - eapply List.Forall_impl; [|exact Hpre]. now intros c [H _].
  - destruct Heng as [->|[(c & Hc & -> & _)|[(c & r & _ & _ & _ & H & _)
                                            |(r & _ & _ & H & _)]]];
      try discriminate; repeat constructor.
    now destruct c.
Qed.



Section WithEnv.
Variable E : env.

Ltac calm :=
  repeat first
    [ apply appends_mret | apply appends_ret | apply appends_raise
    | apply appends_lift | apply appends_sys_exit | apply appends_eprint
    | apply appends_create_file | apply appends_unlink | apply appends_exists
    | apply appends_mkdir | apply appends_open_w | apply appends_open_rb
    | apply appends_log
    | apply appends_bind_closed; [assumption | | intros ?] ].

Section Quiet.
(** Steps that are closed under any closed property of the log. *)
Variable P : list call -> Prop.
Hypothesis HP : closed P.

Lemma cleanup_appends audio_file keep : appends P (cleanup audio_file keep).
Proof.
  destruct HP as [H0 _]. destruct audio_file as [f|]; cbn; calm; auto.
  destruct (_ && _); calm; auto.
Qed.

Lemma save_transcript_appends text path :
  appends P (save_transcript E text path).
Proof.
  destruct HP as [H0 _]. unfold save_transcript. calm; auto.
  destruct text; calm; auto.
Qed.

Lemma on_transcription_error_appends {A} a audio_file e :
  appends P (on_transcription_error (A := A) a audio_file e).
Proof.
  destruct HP as [H0 _]. unfold on_transcription_error. calm; auto.
  apply cleanup_appends.
Qed.

Lemma on_error_appends {A} e : appends P (on_error (A := A) e).
Proof. destruct HP as [H0 _]. unfold on_error. calm; auto. Qed.
End Quiet.

Ltac ne :=
  match goal with
  | |- Forall _ _ => repeat constructor
  end.

Ltac calm_ne := calm; try ne.

Lemma try_languages_calls video_id languages :
  appends (Forall not_engine) (try_languages E video_id languages).
Proof.
  pose proof (closed_Forall not_engine) as HP.
  induction languages as [|lang rest IH]; cbn [try_languages]; calm_ne.
  destruct (api_get_transcript E video_id (Some lang)); calm_ne. exact IH.
Qed.

Lemma get_transcript_calls video_id languages :
  appends (Forall not_engine) (get_transcript E video_id languages).
Proof.
  pose proof (closed_Forall not_engine) as HP.
  unfold get_transcript. apply appends_try_except_closed; [assumption | |].
  - calm; [apply try_languages_calls|].
    match goal with |- appends _ (match ?x with _ => _ end) => destruct x end;
      calm_ne.
    destruct (api_get_transcript E video_id None); calm_ne.
  - repeat constructor. intros e. cbn. calm_ne.
Qed.

Lemma main_captions_calls a video_id languages :
  appends (Forall not_engine) (main_captions E a video_id languages).
Proof.
  pose proof (closed_Forall not_engine) as HP.
  unfold main_captions. destruct (negb (audio_only a)); calm_ne.
  apply appends_try_except_closed; [assumption | |].
  - calm; [apply get_transcript_calls|].
    match goal with a : (_ * _)%type |- _ => destruct a end.
    calm_ne.
    unfold format_transcript.
    repeat match goal with
           | |- appends _ (if ?b then _ else _) => destruct b
           end; calm_ne.
  - repeat constructor. intros e. cbn. calm_ne.
Qed.

Lemma probe_languages_calls video_id langs :
  appends (Forall not_engine) (probe_languages E video_id langs).
Proof.
  pose proof (closed_Forall not_engine) as HP.
  induction langs as [|lang rest IH]; cbn [probe_languages]; calm_ne.
  exact IH.
Qed.

Lemma download_audio_calls url output_dir :
  appends (Forall not_engine) (download_audio E url output_dir).
Proof.
  pose proof (closed_Forall not_engine) as HP.
  unfold download_audio. apply appends_try_except_closed; [assumption | |].
  - calm_ne.
    destruct (yt_dlp E url _) as [files failure].
    calm; [now apply appends_create_files|].
    destruct failure; calm_ne.
    match goal with |- appends _ (if ?b then _ else _) => destruct b end;
      calm_ne.
  - repeat constructor. intros e. cbn. calm_ne.
Qed.

Ltac pick := repeat eexists; first [reflexivity | eassumption].

(** The engines called by [main_engines], lines 416 to 436. *)
Lemma main_engines_calls a audio_file primary_language :
  appends (engine_calls (use_local_whisper a) (WHISPER_AVAILABLE E))
    (main_engines E a audio_file primary_language).
Proof.
  unfold main_engines.
  destruct (use_local_whisper a) eqn:Hpin;
    destruct (WHISPER_AVAILABLE E) eqn:Hav; cbn [orb].
  - (* pinned, installed *)
    eapply appends_try_except with (P2 := fun new => new = []).
    + eapply appends_weaken;
        [apply EngineFacts.local_whisper_calls | intros l H; exact H].
    + reflexivity.
    + repeat constructor. intros e. cbn. now apply appends_raise.
    + intros l1 l2 -> ->. rewrite Hav. cbn. right. left. pick.
  - (* pinned, missing *)
    eapply appends_try_except with (P2 := fun new => new = []).
    + eapply appends_weaken;
        [apply EngineFacts.local_whisper_calls | intros l H; exact H].
    + reflexivity.
    + repeat constructor. intros e. cbn. now apply appends_raise.
    + intros l1 l2 -> ->. rewrite Hav. now left.
  - (* not pinned, installed *)
    eapply appends_try_except
      with (P2 := fun new => new = [] \/ exists r, is_remote r = true /\ new = [r]).
    + eapply appends_weaken;
        [apply EngineFacts.local_whisper_calls | intros l H; exact H].
    + now left.
    + repeat constructor. intros e. cbn.
      eapply appends_weaken; [apply EngineFacts.whishper_calls|].
      intros l [->| ->]; [now left | right; pick].
    + intros l1 l2 -> [->|(r & Hr & ->)]; rewrite Hav; cbn.
      * right. left. pick.
      * right. right. left. pick.
  - (* not pinned, missing *)
    eapply appends_weaken; [apply EngineFacts.whishper_calls|].
    intros l [->| ->]; [now left | right; right; right; pick].
Qed.

Lemma shape_prefix {A B} pinned available (m : M A) (f : A -> M B) :
  appends (Forall not_engine) m ->
  (forall a, appends (run_shape pinned available) (f a)) ->
  appends (run_shape pinned available) (m ≫= f).
Proof.
  intros Hm Hf. eapply appends_bind; eauto.
  - intros l1 H1. exists l1, []. rewrite app_nil_r. repeat split; auto.
    now left.
  - intros l1 l2 H1 (pre & eng & -> & Hpre & Heng).
    exists (l1 ++ pre)%list, eng. rewrite app_assoc. repeat split; auto.
    now apply Forall_app.
Qed.

Lemma shape_suffix {A B} pinned available (m : M A) (f : A -> M B) :
  appends (run_shape pinned available) m ->
  (forall a, silent (f a)) ->
  appends (run_shape pinned available) (m ≫= f).
Proof.
  intros Hm Hf. eapply appends_bind; [exact Hm | exact Hf | auto |].
  cbn. intros l1 l2 H1 ->. now rewrite app_nil_r.
Qed.

Lemma shape_of_quiet {A} pinned available (m : M A) :
  appends (Forall not_engine) m -> appends (run_shape pinned available) m.
Proof.
  intros H. eapply appends_weaken; [exact H|].
  intros l Hl. exists l, []. rewrite app_nil_r. repeat split; auto. now left.
Qed.

Lemma shape_of_engines {A} pinned available (m : M A) :
  appends (engine_calls pinned available) m ->
  appends (run_shape pinned available) m.
Proof.
  intros H. eapply appends_weaken; [exact H|].
  intros l Hl. exists [], l. repeat split; auto.
Qed.

Lemma shape_try {A} pinned available (body : M A)
    (clauses : list (exn_class * (exn -> M A))) :
  appends (run_shape pinned available) body ->
  handlers_append (fun new => new = []) clauses ->
  appends (run_shape pinned available) (try_except body clauses).
Proof.
  intros Hb Hh. eapply appends_try_except; [exact Hb | | exact Hh |].
  - reflexivity.
  - cbn. intros l1 l2 H1 ->. now rewrite app_nil_r.
Qed.

Lemma main_audio_fallback_calls a languages :
  appends (run_shape (use_local_whisper a) (WHISPER_AVAILABLE E))
    (main_audio_fallback E a languages).
Proof.
  unfold main_audio_fallback. apply shape_prefix.
  - apply appends_try_except_closed; [apply closed_Forall | |].
    + apply download_audio_calls.
    + repeat constructor. intros e. cbn.
      apply on_transcription_error_appends, closed_Forall.
  - intros audio_file. apply shape_suffix.
    + apply shape_try.
      * apply shape_of_engines, main_engines_calls.
      * repeat constructor. intros e. cbn.
        apply on_transcription_error_appends, closed_nil.
    + intros text. now apply appends_mret.
Qed.

(** Every run of [main]: calls to neither engine, then the engine calls. *)
Lemma main_calls a :
  appends (run_shape (use_local_whisper a) (WHISPER_AVAILABLE E)) (main E a).
Proof.
  unfold main. apply shape_try.
  2:{ repeat constructor; intros e; cbn; apply on_error_appends, closed_nil. }
  unfold main_body. apply shape_prefix.
  { apply appends_lift. constructor. }
  intros video_id. destruct (list_transcripts a).
  { apply shape_of_quiet. apply appends_bind_closed.
    - apply closed_Forall.
    - apply probe_languages_calls.
    - intros _. apply appends_mret. constructor. }
  apply shape_prefix; [apply main_captions_calls|].
  intros captions. apply shape_suffix.
  - destruct captions as [text|].
    + apply shape_of_quiet, appends_mret. constructor.
    + apply shape_suffix; [apply main_audio_fallback_calls|].
      intros [text audio_file]. now apply appends_mret.
  - intros [text audio_file]. apply appends_bind_closed.
    + apply closed_nil.
    + apply save_transcript_appends, closed_nil.
    + intros _. apply cleanup_appends, closed_nil.
Qed.

(* ----------------------------------------------------------------- *)
(** *** The stages of a run, step by step *)

Lemma main_captions_none a video_id languages d c s :
  audio_only a = false ->
  Forall (fun lang => no_track E video_id (Some lang)) languages ->
  no_track E video_id None ->
  main_captions E a video_id languages (World d c s)
  = (Ok None,
     World d (c ++ requests_for video_id languages
                ++ [CallGetTranscript video_id None]) s).
Proof.
  intros Ha Hlangs Hno. unfold main_captions. rewrite Ha. cbn [negb].
  unfold try_except, mbind, M_bind, bind.
  rewrite CaptionFacts.get_transcript_exhausted
    by exact Hlangs.
  destruct Hno as [e ->]. reflexivity.
Qed.

Lemma create_files_run files d c s :
  create_files files (World d c s)
  = (Ok tt, World (d ∪ list_to_set files) c s).
Proof.
  revert d. induction files as [|p ps IH]; intros d; cbn [create_files].
  - cbn. now rewrite (right_id_L ∅ (∪)).
  - unfold mbind, M_bind, bind, create_file. cbn.
    rewrite IH. now rewrite (assoc_L (∪)).
Qed.

Lemma download_audio_ok url output_dir video_id files d c s :
  extract_video_id url = Ok video_id ->
  yt_dlp E url (path_join output_dir "%(id)s.%(ext)s") = (files, None) ->
  In (path_join output_dir (video_id ++ ".mp3")) files ->
  download_audio E url output_dir (World d c s)
  = (Ok (path_join output_dir (video_id ++ ".mp3")),
     World (d ∪ list_to_set files)
           (c ++ [CallYtDlp url (path_join output_dir "%(id)s.%(ext)s")]) s).
Proof.
  intros Hid Hyt Hin. unfold download_audio, try_except, mbind, M_bind, bind.
  unfold log at 1. cbn. rewrite Hyt. rewrite create_files_run.
  unfold lift. rewrite Hid. unfold exists_. cbn.
  rewrite bool_decide_eq_true_2; [reflexivity|].
  apply elem_of_union_r, elem_of_list_to_set, list_elem_of_In, Hin.
Qed.


(** The local engine leaves the disk and standard error as they are, and
    fails or succeeds the same way from every world. *)
Lemma local_whisper_frame audio_file language model_size w :
  exists new,
    snd (transcribe_with_local_whisper E audio_file language model_size w)
    = World (disk w) (calls w ++ new) (stderr w)
    /\ fst (transcribe_with_local_whisper E audio_file language model_size w)
       = fst (transcribe_with_local_whisper E audio_file language model_size
                Worked.empty_world).
Proof.
  destruct w as [d c s]. unfold transcribe_with_local_whisper.
  destruct (WHISPER_AVAILABLE E); cbn [negb].
  - unfold try_except, mbind, M_bind, bind, log, lift. cbn.
    destruct (whisper_transcribe E _ _ _) as [text|e]; cbn; [eauto|].
    destruct e as [cls msg|code]; cbn; eauto.
  - exists []. cbn. now rewrite app_nil_r.
Qed.

Lemma can_write_dec d path :
  can_write E d path
  \/ (exists msg, fs_mkdir E d (path_parent path) = Some msg)
  \/ (fs_mkdir E d (path_parent path) = None
      /\ exists msg, fs_open E d path = Some msg).
Proof.
  unfold can_write. destruct (fs_mkdir E d (path_parent path)) as [msg|];
    [right; left; eauto|].
  destruct (fs_open E d path) as [msg|]; [right; right; eauto | now left].
Qed.

(** Saving and cleaning up under the handlers of [main], when the output
    can be written. *)
Lemma save_and_cleanup_ok v path audio_file keep d c s :
  can_write E d path ->
  audio_file ∈ d ->
  try_except
    (save_transcript E v path ;; cleanup (Some audio_file) keep)
    [(ValueError, on_error); (Exception, on_error)] (World d c s)
  = match v with
    | PStr _ =>
        (Ok tt,
         World (if keep then d ∪ {[ path ]}
                else (d ∪ {[ path ]}) ∖ {[ audio_file ]}) c s)
    | _ =>
        (Raise (SystemExit 1),
         World (d ∪ {[ path ]}) c
           (s ++ [(nl ++ "Error: " ++ fault_msg E FaultWrite v)%string]))
    end.
Proof.
  intros [Hmkdir Hopen] Hthere.
  unfold try_except, save_transcript, mkdir, open_w, create_file, cleanup,
    exists_, unlink, mbind, M_bind, bind. cbn [disk calls stderr].
  rewrite Hmkdir. cbv beta iota. cbn [disk calls stderr].
  rewrite Hopen. cbv beta iota. cbn [disk calls stderr].
  destruct v; cbn; try reflexivity.
  rewrite bool_decide_eq_true_2 by (apply elem_of_union_l, Hthere).
  now destruct keep.
Qed.

(** The same when the output cannot be written: the run ends there, and
    the disk is as it was. *)
Lemma save_and_cleanup_refused v path audio_file keep d c s :
  ~ can_write E d path ->
  exists msg,
    try_except
      (save_transcript E v path ;; cleanup audio_file keep)
      [(ValueError, on_error); (Exception, on_error)] (World d c s)
    = (Raise (SystemExit 1),
       World d c (s ++ [(nl ++ "Error: " ++ msg)%string])).
Proof.
  intros Hrefused.
  destruct (can_write_dec d path)
    as [Hcan|[[msg Hmkdir]|[Hmkdir [msg Hopen]]]]; [now destruct Hrefused| |];
    exists msg;
    unfold try_except, save_transcript, mkdir, open_w, mbind, M_bind, bind;
    cbn [disk calls stderr]; rewrite Hmkdir; cbv beta iota;
    cbn [disk calls stderr]; rewrite ?Hopen; reflexivity.
Qed.


(** C2: with the local engine pinned, no run calls the remote engine; and
    when the local engine fails, whatever the reason, the run ends there
    with status 1 and reports that very error.  Without Whisper the error
    is that Whisper is not installed. *)
Theorem pinned_local_failure_is_terminal (a : args) (w : world) :
  use_local_whisper a = true ->
  (exists new,
     calls (snd (main E a w)) = (calls w ++ new)%list /\ no_remote new)
  /\ (forall (video_id msg : string) (cls : exn_class) (files : list string),
        let languages := map strip (split_comma "" (args_languages a)) in
        let temp_dir := path_join (gettempdir E) "youtube_transcripts" in
        let audio_file := path_join temp_dir (video_id ++ ".mp3") in
        let primary_language := List.hd "en" languages in
        extract_video_id (args_url a) = Ok video_id ->
        list_transcripts a = false ->
        (audio_only a = true \/
         (audio_only a = false
          /\ Forall (fun lang => no_track E video_id (Some lang)) languages
          /\ no_track E video_id None)) ->
        yt_dlp E (args_url a) (path_join temp_dir "%(id)s.%(ext)s")
        = (files, None) ->
        In audio_file files ->
        (forall w',
           fst (transcribe_with_local_whisper E audio_file primary_language
                  (whisper_model a) w') = Raise (Exn cls msg)) ->
        fst (main E a w) = Raise (SystemExit 1)
        /\ stderr (snd (main E a w))
           = (stderr w
              ++ [(nl ++ "Error during audio transcription: " ++ msg)
                  %string])%list)
  /\ (WHISPER_AVAILABLE E = false ->
      forall audio_file language model_size w',
        fst (transcribe_with_local_whisper E audio_file language model_size w')
        = Raise (Exn Exception
            "OpenAI Whisper is not installed. Install with: uv add openai-whisper")).
Proof.
  intros Hpin. split; [|split].
  - destruct (main_calls a w) as (new & Hnew & Hshape).
    exists new. split; [exact Hnew|]. rewrite Hpin in Hshape.
    eapply run_shape_no_remote; eauto.
  - intros video_id msg cls files languages temp_dir audio_file
      primary_language Hid Hlist Hcap Hyt Hin Hfail.
    destruct w as [d c s].
    assert (exists c', main_captions E a video_id languages (World d c s)
                       = (Ok None, World d c' s)) as [c' Hcaptions].
    { destruct Hcap as [Ha|(Ha & Hlangs & Hno)].
      - unfold main_captions. rewrite Ha. cbn. eauto.
      - rewrite (main_captions_none _ _ _ _ _ _ Ha Hlangs Hno). eauto. }
    unfold main, try_except, main_body, mbind, M_bind, bind, lift.
    rewrite Hid, Hlist. fold languages. rewrite Hcaptions.
    unfold main_audio_fallback, try_except, mbind, M_bind, bind.
    fold temp_dir.
    rewrite (download_audio_ok _ _ _ _ _ _ _ Hid Hyt Hin).
    fold audio_file. unfold main_engines. rewrite Hpin. cbn [orb].
    unfold try_except.
    replace (match languages with lang :: _ => lang | [] => "en" end)
      with primary_language by (unfold primary_language; now destruct languages).
    match goal with
    | |- context [transcribe_with_local_whisper E ?f ?l ?m ?w1] =>
        destruct (local_whisper_frame f l m w1) as (new & Hsnd & _);
        pose proof (Hfail w1) as Hfst;
        destruct (transcribe_with_local_whisper E f l m w1) as [r w2]
    end.
    cbn in Hsnd, Hfst. subst r w2. cbn.
    unfold on_transcription_error, cleanup, eprint, exists_, sys_exit,
      mbind, M_bind, bind. cbn.
    match goal with
    | |- context [bool_decide ?Q] => destruct (bool_decide Q)
    end; destruct (keep_audio a); cbn; auto.
  - intros Hav audio_file language model_size w'.
    unfold transcribe_with_local_whisper. now rewrite Hav.
Qed.

End WithEnv.

(** The scenario of C2: Whisper is pinned and missing, a Whishper server is
    configured. *)
Lemma pinned_local_failure_is_terminal_witness :
  fst (main Worked.without_whisper Worked.pinned_args Worked.empty_world)
  = Raise (SystemExit 1)
  /\ stderr (snd (main Worked.without_whisper Worked.pinned_args
                    Worked.empty_world))
     = [nl ++ "Error during audio transcription: "
           ++ "OpenAI Whisper is not installed. Install with: uv add openai-whisper"]
  /\ exists new,
       calls (snd (main Worked.without_whisper Worked.pinned_args
                     Worked.empty_world)) = new
       /\ no_remote new.
Proof.
  pose proof (pinned_local_failure_is_terminal Worked.without_whisper
                Worked.pinned_args Worked.empty_world eq_refl)
    as (Hgeneral & Hscenario & Hmissing).
  destruct (Hscenario "dQw4w9WgXcQ"
              "OpenAI Whisper is not installed. Install with: uv add openai-whisper"
              Exception ["/tmp/youtube_transcripts/dQw4w9WgXcQ.mp3"])
    as (Hfst & Herr).
  - reflexivity.
  - reflexivity.
  - right. split; [reflexivity|]. split.
    + repeat constructor. eexists. reflexivity.
    + eexists. reflexivity.
  - reflexivity.
  - left. reflexivity.
  - intros w'. apply (Hmissing eq_refl).
  - split; [exact Hfst|]. split; [exact Herr|].
    destruct Hgeneral as (new & Hnew & Hno). exists new. split; assumption.
Defined.

End OrchestratorFacts.

(* ================================================================= *)
(** ** The audio locator of [podcast_transcriber] *)

Module LocatorFacts.
Import PodcastTranscriber.

Lemma error_status_true (status_code : Z) :
  (400 <= status_code < 600)%Z ->
  Z.leb 400 status_code && Z.ltb status_code 600 = true.
Proof. intros [H1 H2]. apply andb_true_intro. split; lia. Qed.

Lemma error_status_false (status_code : Z) :
  ~ (400 <= status_code < 600)%Z ->
  Z.leb 400 status_code && Z.ltb status_code 600 = false.
Proof.
  intros H. destruct (Z.leb 400 status_code) eqn:H1;
    destruct (Z.ltb status_code 600) eqn:H2; try reflexivity.
  exfalso. apply H. split; lia.
Qed.

(** An Acast address in its usual form: the two identifiers are found. *)
Lemma url_pattern_canonical (c1 c2 : ascii) (show episode : string) :
  string_forallb Chars.hexlower (String c1 show) = true ->
  string_forallb Chars.hexlower (String c2 episode) = true ->
  re_search url_pattern
    ("https://shows.acast.com/" ++ String c1 show ++ "/" ++ String c2 episode)
  = Some (MatchObj
            ("shows.acast.com/" ++ String c1 show ++ "/" ++ String c2 episode)
            [String c1 show; String c2 episode]).
Proof.
  intros Hs He. cbn in Hs, He.
  apply andb_prop in Hs as [Hc1 Hs]. apply andb_prop in He as [Hc2 He].
  unfold re_search.
  assert (match_at url_pattern false
            ("shows.acast.com/" ++ String c1 show ++ "/" ++ String c2 episode)
          = Some (MatchObj
                    ("shows.acast.com/" ++ String c1 show ++ "/"
                     ++ String c2 episode)
                    [String c1 show; String c2 episode])) as Hm.
  { unfold match_at, url_pattern. rewrite rmatch_cat, rmatch_lit_ok.
    rewrite rmatch_cat.
    apply rmatch_grp_plus_ok; auto; [reflexivity|].
    rewrite rmatch_cat, (rmatch_lit_ok "/").
    rewrite <- (append_empty (String c2 episode)) at 1.
    apply rmatch_grp_plus_ok; auto; [exact I|].
    cbn [app]. unfold consumed. cbn [String.length]. rewrite Nat.sub_0_r.
    now rewrite take_all. }
  change ("https://shows.acast.com/" ++ String c1 show ++ "/"
          ++ String c2 episode)
    with (String "h" (String "t" (String "t" (String "p" (String "s"
           (String ":" (String "/" (String "/"
              ("shows.acast.com/" ++ String c1 show ++ "/"
               ++ String c2 episode))))))))).
  do 8 (rewrite search_from_skip by reflexivity).
  now apply search_from_hit.
Qed.

Section WithEnv.
Variable E : env.

Lemma fetch_page_fetched url text d c s :
  fetched E url text ->
  fetch_page E url (World d c s)
  = (Ok text, World d (c ++ [CallGetPage url]) s).
Proof.
  intros (status & err & Hget & Hok).
  unfold fetch_page, mbind, M_bind, bind, log. cbn.
  rewrite Hget, (error_status_false _ Hok). reflexivity.
Qed.

Lemma fetch_page_fails url msg d c s :
  fetch_fails E url msg ->
  exists cls,
    fetch_page E url (World d c s)
    = (Raise (Exn cls msg), World d (c ++ [CallGetPage url]) s)
    /\ is_a RequestException (Exn cls msg) = true.
Proof.
  intros [cls m Hget Hcls | status m text Hget Hbad];
    unfold fetch_page, mbind, M_bind, bind, log; cbn; rewrite Hget.
  - exists cls. auto.
  - rewrite (error_status_true _ Hbad). exists RequestException. auto.
Qed.

(** What [extract_apple_podcasts_audio_url] gives on a page it fetched and
    whose blocks it scanned to the end. *)
Lemma apple_located url text st w :
  fetched E url text ->
  scan_blocks E apple_episode (re_findall_group1 json_ld_pattern text) initial
  = Ok st ->
  fst (extract_apple_podcasts_audio_url E url w)
  = (let st' := with_scan apple_hosts text st in
     if truthy (audio_url st')
     then Ok (audio_url st', episode_title st', show_title st')
     else Raise (Exn Exception
                   "Could not extract audio URL from Apple Podcasts page")).
Proof.
  intros Hf Hscan. destruct w as [d c s].
  unfold extract_apple_podcasts_audio_url, try_except, mbind, M_bind, bind.
  rewrite (fetch_page_fetched _ _ _ _ _ Hf). unfold lift. rewrite Hscan.
  cbn. destruct (truthy (audio_url (with_scan apple_hosts text st)));
    reflexivity.
Qed.

(** The same for [extract_acast_audio_url], where the URL built from the
    identifiers comes last. *)
Lemma acast_located url text st w :
  fetched E url text ->
  scan_blocks E acast_episode (re_findall_group1 json_ld_pattern text) initial
  = Ok st ->
  fst (extract_acast_audio_url E url w)
  = (let st' := with_scan acast_hosts text st in
     if truthy (audio_url st')
     then Ok (audio_url st', episode_title st', show_title st')
     else match direct_audio_url url with
          | Some u =>
              if String.eqb u ""
              then Raise (Exn Exception
                            "Could not extract audio URL from Acast page")
              else Ok (PStr u, episode_title st', show_title st')
          | None =>
              Raise (Exn Exception
                       "Could not extract audio URL from Acast page")
          end).
Proof.
  intros Hf Hscan. destruct w as [d c s].
  unfold extract_acast_audio_url, try_except, mbind, M_bind, bind.
  rewrite (fetch_page_fetched _ _ _ _ _ Hf). unfold lift. rewrite Hscan.
  cbn. destruct (truthy (audio_url (with_scan acast_hosts text st))) eqn:Ht.
  - destruct (direct_audio_url url); cbn; rewrite ?Ht; reflexivity.
  - destruct (direct_audio_url url) as [u|]; cbn; rewrite ?Ht; cbn;
      [|reflexivity].
    destruct (String.eqb u "") eqn:Hu; cbn; rewrite ?Ht, ?Hu; cbn;
      reflexivity.
Qed.

Lemma acast_fetch_failure url msg w :
  fetch_fails E url msg ->
  fst (extract_acast_audio_url E url w)
  = Raise (Exn Exception ("Failed to fetch Acast page: " ++ msg)).
Proof.
  intros Hf. destruct w as [d c s].
  destruct (fetch_page_fails _ _ d c s Hf) as (cls & Hrun & Hcls).
  unfold extract_acast_audio_url, try_except, mbind, M_bind, bind.
  rewrite Hrun. cbn [handle]. rewrite Hcls. reflexivity.
Qed.

(** C3, as the code has it: on an Acast address that carries the two
    identifiers, a failed page fetch ends the extraction with the fetch
    error; the address built from the identifiers is what the locator
    returns once the page was fetched and gave no media address. *)
Theorem acast_constructed_url_last_resort
    (episode_url : string) (m : match_obj) (w : world) :
  re_search url_pattern episode_url = Some m ->
  (forall msg,
     fetch_fails E episode_url msg ->
     fst (extract_acast_audio_url E episode_url w)
     = Raise (Exn Exception ("Failed to fetch Acast page: " ++ msg)))
  /\ (forall text st,
        fetched E episode_url text ->
        scan_blocks E acast_episode
          (re_findall_group1 json_ld_pattern text) initial = Ok st ->
        truthy (audio_url st) = false ->
        re_findall audio_pattern text = [] ->
        fst (extract_acast_audio_url E episode_url w)
        = Ok (PStr ("https://play.acast.com/s/" ++ group 1 m ++ "/"
                    ++ group 2 m ++ ".mp3"),
              episode_title st, show_title st))
  /\ (forall c1 c2 show episode,
        string_forallb Chars.hexlower (String c1 show) = true ->
        string_forallb Chars.hexlower (String c2 episode) = true ->
        episode_url = "https://shows.acast.com/" ++ String c1 show ++ "/"
                      ++ String c2 episode ->
        group 1 m = String c1 show /\ group 2 m = String c2 episode).
Proof.
  intros Hm. split; [|split].
  - intros msg Hf. now apply acast_fetch_failure.
  - intros text st Hf Hscan Hnone Hno_links.
    rewrite (acast_located _ _ _ _ Hf Hscan).
    unfold with_scan, pattern_scan. rewrite Hnone, Hno_links. cbn.
    rewrite Hnone. unfold direct_audio_url. rewrite Hm. reflexivity.
  - intros c1 c2 show episode Hs He ->.
    rewrite (url_pattern_canonical _ _ _ _ Hs He) in Hm.
    inversion Hm; subst. auto.
Qed.

(* ----------------------------------------------------------------- *)
(** *** The scan of the structured-data blocks *)

Lemma scan_blocks_passes_over episode skipped rest st :
  Forall (passed_over E) skipped ->
  scan_blocks E episode (skipped ++ rest) st = scan_blocks E episode rest st.
Proof.
  intros H. induction H as [|json_str skipped Hskip _ IH]; [reflexivity|].
  cbn [app scan_blocks].
  destruct Hskip as [(e & -> & ->) | (data & -> & ->)]; exact IH.
Qed.

Lemma with_scan_found hosts text st :
  truthy (audio_url st) = true -> with_scan hosts text st = st.
Proof. intros H. unfold with_scan. now rewrite H. Qed.

(** Blocks that give no address leave the scan where it was, with what
    they taught it. *)
Lemma scan_blocks_none_before episode skipped rest st0 st :
  scan_blocks E episode skipped st0 = Ok st ->
  truthy (audio_url st) = false ->
  scan_blocks E episode (skipped ++ rest) st0 = scan_blocks E episode rest st.
Proof.
  revert st0. induction skipped as [|json_str skipped IH]; intros st0 Hscan Hst.
  - cbn in Hscan. now injection Hscan as ->.
  - cbn [app scan_blocks] in Hscan |- *.
    destruct (json_loads E json_str) as [data|e].
    + destruct (is_podcast_episode data) as [d|]; [|now apply IH].
      cbv zeta in Hscan |- *.
      destruct (truthy (audio_url (episode d st0))) eqn:Hfound;
        [|now apply IH].
      injection Hscan as <-. congruence.
    + destruct (is_a JSONDecodeError e); [now apply IH | discriminate].
Qed.

Lemma none_yields_passed_over episode skipped :
  Forall (passed_over E) skipped -> none_yields E episode skipped initial.
Proof.
  intros H. split; [|reflexivity].
  rewrite <- (app_nil_r skipped).
  now rewrite (scan_blocks_passes_over _ _ _ _ H).
Qed.

(** The first episode block that yields an address ends the scan. *)
Lemma scan_blocks_first_yield episode skipped json_str rest d st :
  none_yields E episode skipped st ->
  json_loads E json_str = Ok (PDict d) ->
  dict_get "@type" d = PStr "PodcastEpisode" ->
  truthy (audio_url (episode d st)) = true ->
  scan_blocks E episode (skipped ++ json_str :: rest) initial
  = Ok (episode d st).
Proof.
  intros [Hscan Hst] Hload Htype Hurl.
  rewrite (scan_blocks_none_before _ _ _ _ _ Hscan Hst).
  cbn [scan_blocks]. rewrite Hload. unfold is_podcast_episode.
  rewrite Htype. cbn. now rewrite Hurl.
Qed.

(** C5, as the code has it: the first episode block that yields a media
    address, read where the extractor of the platform reads it, decides
    the result, whatever other audio addresses the page shows and whatever
    blocks come before it, episode blocks without an address included;
    the titles are those read so far.  The page text is scanned only when
    the blocks gave no address.  Apple Podcasts reads the [url] of the
    block, Acast the [contentUrl] of its [associatedMedia]. *)
Theorem structured_data_wins
    (episode_url text json_str : string) (skipped rest : list string)
    (d : list (string * pyval)) (w : world) :
  fetched E episode_url text ->
  re_findall_group1 json_ld_pattern text = (skipped ++ json_str :: rest)%list ->
  json_loads E json_str = Ok (PDict d) ->
  dict_get "@type" d = PStr "PodcastEpisode" ->
  (forall st,
     none_yields E apple_episode skipped st ->
     truthy (audio_url (apple_episode d st)) = true ->
     fst (extract_apple_podcasts_audio_url E episode_url w)
     = Ok (audio_url (apple_episode d st),
           dict_get_default "name" d (episode_title st),
           series_title d (show_title st)))
  /\ (forall st,
        none_yields E acast_episode skipped st ->
        truthy (audio_url (acast_episode d st)) = true ->
        fst (extract_acast_audio_url E episode_url w)
        = Ok (audio_url (acast_episode d st),
              dict_get_default "name" d (episode_title st),
              series_title d (show_title st)))
  /\ (forall st u,
        none_yields E apple_episode skipped st ->
        dict_lookup "url" d = Some u -> truthy u = true ->
        fst (extract_apple_podcasts_audio_url E episode_url w)
        = Ok (u, dict_get_default "name" d (episode_title st),
              series_title d (show_title st)))
  /\ (forall st media,
        none_yields E acast_episode skipped st ->
        dict_lookup "associatedMedia" d = Some (PDict media) ->
        truthy (dict_get "contentUrl" media) = true ->
        fst (extract_acast_audio_url E episode_url w)
        = Ok (dict_get "contentUrl" media,
              dict_get_default "name" d (episode_title st),
              series_title d (show_title st)))
  /\ (Forall (passed_over E) skipped ->
      none_yields E apple_episode skipped initial
      /\ none_yields E acast_episode skipped initial)
  /\ (forall st,
        truthy (audio_url st) = true ->
        with_scan apple_hosts text st = st /\ with_scan acast_hosts text st = st).
Proof.
  intros Hf Hblocks Hload Htype.
  assert (forall st,
            none_yields E apple_episode skipped st ->
            truthy (audio_url (apple_episode d st)) = true ->
            fst (extract_apple_podcasts_audio_url E episode_url w)
            = Ok (audio_url (apple_episode d st),
                  dict_get_default "name" d (episode_title st),
                  series_title d (show_title st))) as Happle.
  { intros st Hnone Hurl.
    rewrite (apple_located episode_url text (apple_episode d st) w Hf)
      by (rewrite Hblocks; now apply scan_blocks_first_yield).
    cbv zeta. rewrite (with_scan_found _ _ _ Hurl), Hurl. reflexivity. }
  assert (forall st,
            none_yields E acast_episode skipped st ->
            truthy (audio_url (acast_episode d st)) = true ->
            fst (extract_acast_audio_url E episode_url w)
            = Ok (audio_url (acast_episode d st),
                  dict_get_default "name" d (episode_title st),
                  series_title d (show_title st))) as Hacast.
  { intros st Hnone Hurl.
    rewrite (acast_located episode_url text (acast_episode d st) w Hf)
      by (rewrite Hblocks; now apply scan_blocks_first_yield).
    cbv zeta. rewrite (with_scan_found _ _ _ Hurl), Hurl. reflexivity. }
  repeat apply conj; try assumption.
  - intros st u Hnone Hu Ht.
    assert (audio_url (apple_episode d st) = u) as Ha.
    { unfold apple_episode, dict_has, dict_get. rewrite Hu. cbn. now rewrite Ht. }
    rewrite <- Ha. apply Happle; [exact Hnone | now rewrite Ha].
  - intros st media Hnone Hm Ht.
    assert (audio_url (acast_episode d st) = dict_get "contentUrl" media)
      as Ha by (unfold acast_episode; now rewrite Hm).
    rewrite <- Ha. apply Hacast; [exact Hnone | now rewrite Ha].
  - intros Hskip. split; now apply none_yields_passed_over.
  - intros st Hst. split; now apply with_scan_found.
Qed.

(** C7, as the code has it.  On an episode block Apple Podcasts takes the
    [url] of the block first, then the [contentUrl] of [associatedMedia],
    then the [url] of [associatedMedia]; Acast takes the [contentUrl] of
    [associatedMedia] and nothing else.  A block that does not parse is
    passed over and the scan goes on with the next one. *)
Theorem block_url_priority
    (d media : list (string * pyval)) (st : found)
    (episode : list (string * pyval) -> found -> found)
    (json_str : string) (rest : list string) (e : exn) :
  (forall u,
     dict_lookup "url" d = Some u -> truthy u = true ->
     audio_url (apple_episode d st) = u)
  /\ (truthy (dict_get_default "url" d (audio_url st)) = false ->
      dict_lookup "associatedMedia" d = Some (PDict media) ->
      audio_url (apple_episode d st)
      = if truthy (dict_get "contentUrl" media)
        then dict_get "contentUrl" media
        else dict_get "url" media)
  /\ (dict_lookup "associatedMedia" d = Some (PDict media) ->
      audio_url (acast_episode d st) = dict_get "contentUrl" media)
  /\ ((forall m, dict_lookup "associatedMedia" d <> Some (PDict m)) ->
      audio_url (acast_episode d st) = audio_url st)
  /\ (json_loads E json_str = Raise e -> is_a JSONDecodeError e = true ->
      scan_blocks E episode (json_str :: rest) st
      = scan_blocks E episode rest st).
Proof.
  repeat split.
  - intros u Hu Ht. unfold apple_episode, dict_has, dict_get.
    rewrite Hu. cbn. now rewrite Ht.
  - intros Hfalsy Hm. unfold apple_episode, dict_has, dict_get, py_or.
    unfold dict_get_default in Hfalsy. rewrite Hm.
    destruct (dict_lookup "url" d) as [u|]; cbn; rewrite Hfalsy; reflexivity.
  - intros Hm. unfold acast_episode. now rewrite Hm.
  - intros Hno. unfold acast_episode.
    destruct (dict_lookup "associatedMedia" d) as [[| | | | | |m]|];
      try reflexivity.
    now destruct (Hno m).
  - intros Hload Hcls. cbn [scan_blocks]. now rewrite Hload, Hcls.
Qed.

(** C8, as the code has it: among the audio addresses found in the page
    text, the first one that mentions a keyword of the platform anywhere in
    the lower-cased address is taken, and the first address of all when none
    does; that address is the result when the blocks gave none. *)
Theorem pattern_scan_prefers_keyword
    (hosts : list string) (episode_url text : string) (st : found)
    (w : world) :
  (forall before u after,
     re_findall audio_pattern text = (before ++ u :: after)%list ->
     Forall (fun v => mentions hosts v = false) before ->
     mentions hosts u = true ->
     pattern_scan hosts text = Some u)
  /\ (forall u others,
        re_findall audio_pattern text = u :: others ->
        Forall (fun v => mentions hosts v = false) (u :: others) ->
        pattern_scan hosts text = Some u)
  /\ (forall u,
        fetched E episode_url text ->
        scan_blocks E apple_episode
          (re_findall_group1 json_ld_pattern text) initial = Ok st ->
        truthy (audio_url st) = false ->
        pattern_scan apple_hosts text = Some u ->
        u <> "" ->
        fst (extract_apple_podcasts_audio_url E episode_url w)
        = Ok (PStr u, episode_title st, show_title st))
  /\ (forall u,
        fetched E episode_url text ->
        scan_blocks E acast_episode
          (re_findall_group1 json_ld_pattern text) initial = Ok st ->
        truthy (audio_url st) = false ->
        pattern_scan acast_hosts text = Some u ->
        u <> "" ->
        fst (extract_acast_audio_url E episode_url w)
        = Ok (PStr u, episode_title st, show_title st)).
Proof.
  repeat split.
  - intros before u after Hall Hbefore Hu. unfold pattern_scan. rewrite Hall.
    assert (List.find (mentions hosts) (before ++ u :: after) = Some u) as ->;
      [|reflexivity].
    clear Hall. induction Hbefore as [|v before Hv _ IH]; cbn.
    + now rewrite Hu.
    + now rewrite Hv.
  - intros u others Hall Hnone. unfold pattern_scan. rewrite Hall.
    assert (List.find (mentions hosts) (u :: others) = None) as ->;
      [|reflexivity].
    clear Hall. induction Hnone as [|v l Hv _ IH]; cbn; [reflexivity|].
    now rewrite Hv.
  - intros u Hf Hscan Hnone Hu Hne.
    rewrite (apple_located _ _ _ _ Hf Hscan). unfold with_scan.
    rewrite Hnone, Hu. cbn.
    destruct (String.eqb u "") eqn:Heq; [|reflexivity].
    apply String.eqb_eq in Heq. contradiction.
  - intros u Hf Hscan Hnone Hu Hne.
    rewrite (acast_located _ _ _ _ Hf Hscan). unfold with_scan.
    rewrite Hnone, Hu. cbn.
    destruct (String.eqb u "") eqn:Heq; [|reflexivity].
    apply String.eqb_eq in Heq. contradiction.
Qed.

End WithEnv.

Lemma acast_constructed_url_last_resort_witness :
  fst (extract_acast_audio_url Worked.web
         "https://shows.acast.com/404404/404404" Worked.empty_world)
  = Raise (Exn Exception
             "Failed to fetch Acast page: 404 Client Error: Not Found")
  /\ fst (extract_acast_audio_url Worked.web
            "https://shows.acast.com/0a0a0a/1b1b1b" Worked.empty_world)
     = Ok (PStr "https://play.acast.com/s/0a0a0a/1b1b1b.mp3",
           PStr "Unknown Episode", PStr "Unknown Show").
Proof.
  split.
  - apply (proj1 (acast_constructed_url_last_resort Worked.web
                    "https://shows.acast.com/404404/404404"
                    (MatchObj "shows.acast.com/404404/404404"
                       ["404404"; "404404"])
                    Worked.empty_world eq_refl)).
    apply (fails_status _ _ 404 _ ""); [reflexivity | lia].
  - apply (proj1 (proj2 (acast_constructed_url_last_resort Worked.web
                    "https://shows.acast.com/0a0a0a/1b1b1b"
                    (MatchObj "shows.acast.com/0a0a0a/1b1b1b"
                       ["0a0a0a"; "1b1b1b"])
                    Worked.empty_world eq_refl))
             "<html><body>No player here.</body></html>" initial).
    + exists 200%Z, "". split; [reflexivity | lia].
    + reflexivity.
    + reflexivity.
    + reflexivity.
Defined.

(** C3 as the spec has it fails: the address matches, the fetch fails, and
    the locator raises instead of returning the address it had built. *)
Lemma acast_fetch_failure_is_fatal :
  direct_audio_url "https://shows.acast.com/abc123/def456"
  = Some "https://play.acast.com/s/abc123/def456.mp3"
  /\ Worked.serve "https://shows.acast.com/abc123/def456"
     = GetRaises (Exn ConnectionError "Name or service not known")
  /\ fst (extract_acast_audio_url Worked.web
            "https://shows.acast.com/abc123/def456" Worked.empty_world)
     = Raise (Exn Exception
                "Failed to fetch Acast page: Name or service not known")
  /\ forall title show,
       fst (extract_acast_audio_url Worked.web
              "https://shows.acast.com/abc123/def456" Worked.empty_world)
       <> Ok (PStr "https://play.acast.com/s/abc123/def456.mp3", title, show).
Proof. repeat split; try reflexivity. intros title show. vm_compute. discriminate. Qed.

(** C5 on the worked pages.  Apple Podcasts returns the [url] of the block
    although an advertisement is linked before it; Acast returns the
    [contentUrl] of [associatedMedia].  On the page where a trailer block
    without an address comes first, both return the address of the second
    block, with the name the trailer gave. *)
Lemma structured_data_wins_witness :
  fst (extract_apple_podcasts_audio_url Worked.web
         "https://podcasts.apple.com/us/podcast/ep/id2" Worked.empty_world)
  = Ok (PStr "https://cdn.example.org/real.mp3",
        PStr "Unknown Episode", PStr "Unknown Show")
  /\ fst (extract_acast_audio_url Worked.web
            "https://shows.acast.com/ccc333/ddd444" Worked.empty_world)
     = Ok (PStr "https://cdn.example.org/associated.mp3",
           PStr "Unknown Episode", PStr "Unknown Show")
  /\ fst (extract_apple_podcasts_audio_url Worked.web
            "https://podcasts.apple.com/us/podcast/ep/id4" Worked.empty_world)
     = Ok (PStr "https://cdn.example.org/full.mp3",
           PStr "Trailer", PStr "Unknown Show")
  /\ fst (extract_acast_audio_url Worked.web
            "https://shows.acast.com/777aaa/888bbb" Worked.empty_world)
     = Ok (PStr "https://cdn.example.org/full.mp3",
           PStr "Trailer", PStr "Unknown Show").
Proof.
  repeat apply conj.
  - refine (proj1 (proj2 (proj2 (structured_data_wins Worked.web
              "https://podcasts.apple.com/us/podcast/ep/id2"
              Worked.page_direct Worked.block_direct [] []
              [("@type", PStr "PodcastEpisode");
               ("contentUrl", PStr "https://cdn.example.org/real.mp3");
               ("url", PStr "https://cdn.example.org/real.mp3")]
              Worked.empty_world _ _ _ _)))
            initial (PStr "https://cdn.example.org/real.mp3") _ _ _).
    + exists 200%Z, "". split; [reflexivity | lia].
    + vm_compute. reflexivity.
    + reflexivity.
    + reflexivity.
    + split; reflexivity.
    + reflexivity.
    + reflexivity.
  - refine (proj1 (proj2 (proj2 (proj2 (structured_data_wins Worked.web
              "https://shows.acast.com/ccc333/ddd444"
              Worked.page_both Worked.block_both [] []
              [("@type", PStr "PodcastEpisode");
               ("contentUrl", PStr "https://cdn.example.org/direct.mp3");
               ("url", PStr "https://cdn.example.org/direct.mp3");
               ("associatedMedia",
                PDict [("contentUrl",
                        PStr "https://cdn.example.org/associated.mp3")])]
              Worked.empty_world _ _ _ _))))
            initial
            [("contentUrl", PStr "https://cdn.example.org/associated.mp3")]
            _ _ _).
    + exists 200%Z, "". split; [reflexivity | lia].
    + vm_compute. reflexivity.
    + reflexivity.
    + reflexivity.
    + split; reflexivity.
    + reflexivity.
    + reflexivity.
  - refine (proj1 (proj2 (proj2 (structured_data_wins Worked.web
              "https://podcasts.apple.com/us/podcast/ep/id4"
              Worked.page_trailer Worked.block_full [Worked.block_trailer] []
              [("@type", PStr "PodcastEpisode");
               ("url", PStr "https://cdn.example.org/full.mp3");
               ("associatedMedia",
                PDict [("contentUrl",
                        PStr "https://cdn.example.org/full.mp3")])]
              Worked.empty_world _ _ _ _)))
            (Found PNone (PStr "Trailer") (PStr "Unknown Show"))
            (PStr "https://cdn.example.org/full.mp3") _ _ _).
    + exists 200%Z, "". split; [reflexivity | lia].
    + vm_compute. reflexivity.
    + reflexivity.
    + reflexivity.
    + split; vm_compute; reflexivity.
    + reflexivity.
    + reflexivity.
  - refine (proj1 (proj2 (proj2 (proj2 (structured_data_wins Worked.web
              "https://shows.acast.com/777aaa/888bbb"
              Worked.page_trailer Worked.block_full [Worked.block_trailer] []
              [("@type", PStr "PodcastEpisode");
               ("url", PStr "https://cdn.example.org/full.mp3");
               ("associatedMedia",
                PDict [("contentUrl",
                        PStr "https://cdn.example.org/full.mp3")])]
              Worked.empty_world _ _ _ _))))
            (Found PNone (PStr "Trailer") (PStr "Unknown Show"))
            [("contentUrl", PStr "https://cdn.example.org/full.mp3")]
            _ _ _).
    + exists 200%Z, "". split; [reflexivity | lia].
    + vm_compute. reflexivity.
    + reflexivity.
    + reflexivity.
    + split; vm_compute; reflexivity.
    + reflexivity.
    + reflexivity.
Defined.

(** C5 as the spec has it fails on Acast: the episode block holds the media
    address directly (as [contentUrl] and as [url]); the locator does not
    read it and returns the advertisement found by the scan of the text. *)
Lemma acast_ignores_direct_field :
  re_findall_group1 json_ld_pattern Worked.page_direct = [Worked.block_direct]
  /\ Worked.loads Worked.block_direct
     = Ok (PDict [("@type", PStr "PodcastEpisode");
                  ("contentUrl", PStr "https://cdn.example.org/real.mp3");
                  ("url", PStr "https://cdn.example.org/real.mp3")])
  /\ fst (extract_acast_audio_url Worked.web
            "https://shows.acast.com/aaa111/bbb222" Worked.empty_world)
     = Ok (PStr "https://ads.example.net/promo.mp3",
           PStr "Unknown Episode", PStr "Unknown Show")
  /\ forall title show,
       fst (extract_acast_audio_url Worked.web
              "https://shows.acast.com/aaa111/bbb222" Worked.empty_world)
       <> Ok (PStr "https://cdn.example.org/real.mp3", title, show).
Proof.
  repeat split; try (vm_compute; reflexivity).
  intros title show. vm_compute. discriminate.
Qed.

(** C7 on the worked blocks. *)
Lemma block_url_priority_witness :
  audio_url
    (apple_episode
       [("@type", PStr "PodcastEpisode");
        ("url", PStr "https://cdn.example.org/direct.mp3");
        ("associatedMedia",
         PDict [("contentUrl", PStr "https://cdn.example.org/associated.mp3")])]
       initial)
  = PStr "https://cdn.example.org/direct.mp3"
  /\ audio_url
       (apple_episode
          [("@type", PStr "PodcastEpisode");
           ("associatedMedia",
            PDict [("url", PStr "https://cdn.example.org/generic.mp3")])]
          initial)
     = PStr "https://cdn.example.org/generic.mp3"
  /\ audio_url
       (acast_episode
          [("@type", PStr "PodcastEpisode");
           ("url", PStr "https://cdn.example.org/direct.mp3");
           ("associatedMedia",
            PDict [("contentUrl",
                    PStr "https://cdn.example.org/associated.mp3")])]
          initial)
     = PStr "https://cdn.example.org/associated.mp3"
  /\ audio_url
       (acast_episode
          [("@type", PStr "PodcastEpisode");
           ("url", PStr "https://cdn.example.org/direct.mp3")]
          initial)
     = PNone
  /\ scan_blocks Worked.web acast_episode ["{not json"; Worked.block_both]
       initial
     = scan_blocks Worked.web acast_episode [Worked.block_both] initial.
Proof.
  split; [|split; [|split; [|split]]].
  - refine (proj1 (block_url_priority Worked.web _ [] initial acast_episode
                     "" [] (Exn JSONDecodeError "")) _ _ _); reflexivity.
  - refine (proj1 (proj2 (block_url_priority Worked.web _
                     [("url", PStr "https://cdn.example.org/generic.mp3")]
                     initial acast_episode "" [] (Exn JSONDecodeError "")))
              _ _); reflexivity.
  - refine (proj1 (proj2 (proj2 (block_url_priority Worked.web _
                     [("contentUrl",
                       PStr "https://cdn.example.org/associated.mp3")]
                     initial acast_episode "" [] (Exn JSONDecodeError ""))))
              _); reflexivity.
  - refine (proj1 (proj2 (proj2 (proj2 (block_url_priority Worked.web
                     [("@type", PStr "PodcastEpisode");
                      ("url", PStr "https://cdn.example.org/direct.mp3")]
                     [] initial acast_episode "" []
                     (Exn JSONDecodeError "")))))
              _).
    intros m. cbn. discriminate.
  - refine (proj2 (proj2 (proj2 (proj2 (block_url_priority Worked.web [] []
                     initial acast_episode "{not json" [Worked.block_both]
                     (Exn JSONDecodeError "Expecting property name")))))
              _ _); reflexivity.
Defined.

(** C7 as the spec has it fails on Acast: the block holds one address
    directly and another under [associatedMedia]; the locator returns the
    second, and from a block that only has the direct one it takes none. *)
Lemma acast_reads_associated_media_only :
  re_findall_group1 json_ld_pattern Worked.page_both = [Worked.block_both]
  /\ Worked.loads Worked.block_both
     = Ok (PDict [("@type", PStr "PodcastEpisode");
                  ("contentUrl", PStr "https://cdn.example.org/direct.mp3");
                  ("url", PStr "https://cdn.example.org/direct.mp3");
                  ("associatedMedia",
                   PDict [("contentUrl",
                           PStr "https://cdn.example.org/associated.mp3")])])
  /\ fst (extract_acast_audio_url Worked.web
            "https://shows.acast.com/ccc333/ddd444" Worked.empty_world)
     = Ok (PStr "https://cdn.example.org/associated.mp3",
           PStr "Unknown Episode", PStr "Unknown Show")
  /\ (forall title show,
        fst (extract_acast_audio_url Worked.web
               "https://shows.acast.com/ccc333/ddd444" Worked.empty_world)
        <> Ok (PStr "https://cdn.example.org/direct.mp3", title, show))
  /\ audio_url
       (acast_episode
          [("@type", PStr "PodcastEpisode");
           ("contentUrl", PStr "https://cdn.example.org/real.mp3");
           ("url", PStr "https://cdn.example.org/real.mp3")]
          initial)
     = PNone.
Proof.
  repeat split; try (vm_compute; reflexivity).
  intros title show. vm_compute. discriminate.
Qed.

(** C8 on the worked page of two links. *)
Lemma pattern_scan_prefers_keyword_witness :
  pattern_scan apple_hosts Worked.page_links
  = Some "https://blog.example.org/acast-review/ep1.mp3"
  /\ fst (extract_apple_podcasts_audio_url Worked.web
            "https://podcasts.apple.com/us/podcast/ep/id1" Worked.empty_world)
     = Ok (PStr "https://blog.example.org/acast-review/ep1.mp3",
           PStr "Unknown Episode", PStr "Unknown Show").
Proof.
  pose proof (pattern_scan_prefers_keyword Worked.web apple_hosts
                "https://podcasts.apple.com/us/podcast/ep/id1"
                Worked.page_links initial Worked.empty_world)
    as (Hfirst & _ & Happle & _).
  assert (pattern_scan apple_hosts Worked.page_links
          = Some "https://blog.example.org/acast-review/ep1.mp3") as Hscan.
  { apply (Hfirst [] _ ["https://traffic.libsyn.com/show/ep1.mp3"]).
    - vm_compute. reflexivity.
    - constructor.
    - vm_compute. reflexivity. }
  split; [exact Hscan|].
  apply Happle.
  - exists 200%Z, "". split; [reflexivity | lia].
  - vm_compute. reflexivity.
  - reflexivity.
  - exact Hscan.
  - discriminate.
Defined.

(** C8 as the spec has it fails: of the two audio links of the page, one is
    on a podcast CDN and one is not; the locator returns the one that is
    not, because its path names a CDN. *)
Lemma keyword_in_path_beats_cdn_host :
  re_findall audio_pattern Worked.page_links
  = ["https://blog.example.org/acast-review/ep1.mp3";
     "https://traffic.libsyn.com/show/ep1.mp3"]
  /\ re_findall_group1 json_ld_pattern Worked.page_links = []
  /\ url_host "https://blog.example.org/acast-review/ep1.mp3"
     = "blog.example.org"
  /\ spec_recognized_host apple_hosts
       "https://blog.example.org/acast-review/ep1.mp3" = false
  /\ spec_recognized_host apple_hosts
       "https://traffic.libsyn.com/show/ep1.mp3" = true
  /\ fst (extract_apple_podcasts_audio_url Worked.web
            "https://podcasts.apple.com/us/podcast/ep/id1" Worked.empty_world)
     = Ok (PStr "https://blog.example.org/acast-review/ep1.mp3",
           PStr "Unknown Episode", PStr "Unknown Show")
  /\ forall title show,
       fst (extract_apple_podcasts_audio_url Worked.web
              "https://podcasts.apple.com/us/podcast/ep/id1"
              Worked.empty_world)
       <> Ok (PStr "https://traffic.libsyn.com/show/ep1.mp3", title, show).
Proof.
  repeat split; try (vm_compute; reflexivity).
  intros title show. vm_compute. discriminate.
Qed.

End LocatorFacts.

(* ================================================================= *)
(** ** What is left on the disk *)

Module CleanupFacts.

(** C4 at its failing input: [podcast_transcriber] run without
    [--keep-audio] on a host where Whisper is not installed.  The episode is
    located and downloaded, the transcription raises, the run ends with
    status 1, and the audio file is still there. *)
Theorem podcast_failure_leaves_audio_file :
  let run := PodcastTranscriber.main Worked.without_whisper
               (Worked.podcast_args "https://shows.acast.com/abc123/def456")
               Worked.empty_world in
  PodcastTranscriber.keep_audio
    (Worked.podcast_args "https://shows.acast.com/abc123/def456") = false
  /\ fst run = Raise (SystemExit 1)
  /\ exit_status (fst run) = 1%Z
  /\ calls (snd run)
     = [CallGetPage "https://shows.acast.com/abc123/def456";
        CallGetMedia "https://cdn.example.org/episode.mp3" None]
  /\ stderr (snd run)
     = [nl ++ "Error: OpenAI Whisper is not installed. "
           ++ "Install with: uv add openai-whisper"]
  /\ "/tmp/podcast_audio/Unknown-Episode.mp3" ∈ disk (snd run).
Proof.
  cbv zeta. split; [reflexivity|]. split; [vm_compute; reflexivity|].
  split; [vm_compute; reflexivity|]. split; [vm_compute; reflexivity|].
  split; [vm_compute; reflexivity|]. compute_done.
Qed.

(** The same failure in [transcript_downloader], whose handler removes the
    file before it exits. *)
Lemma transcript_downloader_failure_removes_audio_file :
  let run := TranscriptDownloader.main Worked.without_whisper
               Worked.pinned_args Worked.empty_world in
  fst run = Raise (SystemExit 1)
  /\ "/tmp/youtube_transcripts/dQw4w9WgXcQ.mp3" ∉ disk (snd run).
Proof.
  cbv zeta. split; [vm_compute; reflexivity|].
  compute_done.
Qed.

(** And [podcast_transcriber] itself when it succeeds. *)
Lemma podcast_success_removes_audio_file :
  let run := PodcastTranscriber.main Worked.web
               (Worked.podcast_args "https://shows.acast.com/0a0a0a/1b1b1b")
               Worked.empty_world in
  fst run = Ok tt
  /\ ("/tmp/podcast_audio/Unknown-Episode.mp3" ∉ disk (snd run))
  /\ ("transcripts/Unknown-Episode.txt" ∈ disk (snd run)).
Proof.
  cbv zeta. split; [vm_compute; reflexivity|]. split.
  - compute_done.
  - compute_done.
Qed.

End CleanupFacts.

(* ================================================================= *)
(** ** More on [extract_video_id] *)

Module VideoIdMore.
Import VideoId.

Section MatcherForward.
Context {R : Type}.
Implicit Types (k : @kont R) (x : R).

Lemma rmatch_grp_rep_ok (p : ascii -> bool) (g rest : string) b caps k :
  string_forallb p g = true ->
  rmatch (Grp (Rep (String.length g) (Chr p))) b (g ++ rest) caps k
  = k (match g with EmptyString => b | _ => false end) rest
      (caps ++ [g])%list.
Proof.
  intros Hp. cbn [rmatch]. rewrite (rmatch_rep_ok _ _ _ _ _ _ Hp).
  now rewrite consumed_app.
Qed.

Lemma rmatch_lit_none (l : string) b s caps k :
  strip_prefix l s = None -> rmatch (Lit l) b s caps k = None.
Proof.
  revert b s. induction l as [|c l IH]; intros b s H; [discriminate|].
  destruct s as [|d s]; [reflexivity|]. cbn [strip_prefix] in H.
  cbn [Lit rmatch]. destruct (Ascii.eqb c d); [now apply IH | reflexivity].
Qed.

Lemma star_run_total greedy (p : ascii -> bool) b s
    (k : bool -> string -> option R) :
  (forall b' s', exists x, k b' s' = Some x) ->
  exists x, star_run greedy p b s k = Some x.
Proof.
  intros Hk. revert b. induction s as [|c s IH]; intros b; cbn [star_run].
  - destruct (Hk b "") as [x Hx]. exists x. destruct greedy; cbn; now rewrite Hx.
  - destruct greedy.
    + destruct (p c).
      * destruct (IH false) as [x Hx]. exists x. now rewrite Hx.
      * destruct (Hk b (String c s)) as [x Hx]. exists x. cbn. exact Hx.
    + destruct (Hk b (String c s)) as [x Hx]. exists x. now rewrite Hx.
Qed.
End MatcherForward.

(** A search finds something as soon as the pattern matches at one place,
    whatever stands before it. *)
Lemma search_from_complete (r : regex) (pre s : string) b :
  (forall b', exists m, match_at r b' s = Some m) ->
  exists m, search_from r b (pre ++ s) = Some m.
Proof.
  intros H. revert b. induction pre as [|c pre IH]; intros b.
  - change ("" ++ s) with s. destruct (H b) as [m Hm]. exists m.
    now apply search_from_hit.
  - rewrite append_cons. cbn [search_from].
    destruct (match_at r b (String c (pre ++ s))) as [m|]; eauto.
Qed.

Lemma search_from_where (r : regex) b s m :
  search_from r b s = Some m ->
  exists b' pre s', s = pre ++ s' /\ match_at r b' s' = Some m.
Proof.
  revert b. induction s as [|c s IH]; intros b H; cbn [search_from] in H.
  - destruct (match_at r b "") eqn:E; [|discriminate].
    inversion H; subst. exists b, "", "". auto.
  - destruct (match_at r b (String c s)) eqn:E.
    + inversion H; subst. exists b, "", (String c s). auto.
    + destruct (IH _ H) as (b' & pre & s' & -> & Hm).
      exists b', (String c pre), s'. auto.
Qed.

(** A pattern anchored at the start is found at the start or nowhere. *)
Lemma search_from_anchored (r : regex) s :
  search_from (Cat Bol r) false s = None.
Proof. induction s as [|c s IH]; cbn [search_from]; cbn; auto. Qed.

Lemma pat_v_at (g rest : string) b :
  id11 g ->
  (exists m, match_at pat_v b ("v=" ++ g ++ rest) = Some m /\ group 1 m = g)
  /\ (exists m, match_at pat_v b ("/" ++ g ++ rest) = Some m /\ group 1 m = g).
Proof.
  intros [Hl Hp].
  assert (forall b0 s0,
            exists m, rmatch (Grp (Rep 11 (Chr Chars.idchar))) b0 (g ++ rest) []
                        (fun b1 s1 caps1 =>
                           rmatch (Star true Chars.not_newline) b1 s1 caps1
                             (fun _ s2 caps2 =>
                                Some (MatchObj (consumed s0 s2) caps2)))
                      = Some m /\ group 1 m = g) as Hgroup.
  { intros b0 s0. rewrite <- Hl, (rmatch_grp_rep_ok _ _ _ _ _ _ Hp).
    cbn [rmatch app].
    destruct (star_run_total true Chars.not_newline
                (match g with EmptyString => b0 | _ => false end) rest
                (fun _ s2 => Some (MatchObj (consumed s0 s2) [g])))
      as [m Hm]; [eauto|].
    exists m. split; [exact Hm|].
    apply star_run_inv in Hm as (? & ? & Hm). now inversion Hm. }
  split.
  - unfold match_at, pat_v. rewrite rmatch_cat, rmatch_alt.
    rewrite (rmatch_lit_ok "v="), rmatch_cat.
    destruct (Hgroup false ("v=" ++ g ++ rest)) as (m & Hm & Hg).
    exists m. rewrite Hm. auto.
  - unfold match_at, pat_v. rewrite rmatch_cat, rmatch_alt.
    rewrite (rmatch_lit_none "v=") by reflexivity. cbn [or_else].
    rewrite (rmatch_lit_ok "/"), rmatch_cat.
    destruct (Hgroup false ("/" ++ g ++ rest)) as (m & Hm & Hg).
    exists m. rewrite Hm. auto.
Qed.

(** What the whole-string pattern accepts: eleven identifier characters,
    and after them nothing or one newline. *)
Lemma pat_bare_shape b url m :
  match_at pat_bare b url = Some m ->
  b = true
  /\ exists g rest, url = g ++ rest /\ id11 g /\ (rest = "" \/ rest = nl).
Proof.
  unfold match_at, pat_bare. rewrite rmatch_cat. intros H.
  destruct b; [|discriminate]. split; [reflexivity|]. cbn [rmatch] in H.
  change (rmatch (Grp (Rep 11 (Chr Chars.idchar))) true url []
            (fun b1 s1 caps1 =>
               rmatch Eol b1 s1 caps1
                 (fun _ s2 caps2 => Some (MatchObj (consumed url s2) caps2)))
          = Some m) in H.
  apply rmatch_grp_rep_inv in H as (b' & g & rest & -> & Hl & Hp & H).
  exists g, rest. split; [reflexivity|]. split; [split; assumption|].
  cbn [rmatch] in H. destruct rest as [|c [|c' rest]]; try discriminate; auto.
  right. destruct (Nat.eqb (Chars.code c) 10) eqn:Hc; [|discriminate].
  apply Nat.eqb_eq in Hc. unfold nl. f_equal.
  rewrite <- (ascii_nat_embedding c). unfold Chars.code in Hc. now rewrite Hc.
Qed.

Lemma pat_id_shape url m :
  re_match pat_id url = Some m ->
  exists g rest, url = g ++ rest /\ id11 g /\ (rest = "" \/ rest = nl).
Proof.
  unfold re_match, match_at, pat_id. cbn [rmatch]. intros H.
  apply rmatch_rep_inv in H as (b' & g & rest & -> & Hl & Hp & H).
  exists g, rest. split; [reflexivity|]. split; [split; assumption|].
  cbn [rmatch] in H. destruct rest as [|c [|c' rest]]; try discriminate; auto.
  right. destruct (Nat.eqb (Chars.code c) 10) eqn:Hc; [|discriminate].
  apply Nat.eqb_eq in Hc. unfold nl. f_equal.
  rewrite <- (ascii_nat_embedding c). unfold Chars.code in Hc. now rewrite Hc.
Qed.

Lemma pat_id_accepts g rest :
  id11 g -> rest = "" \/ rest = nl ->
  exists m, re_match pat_id (g ++ rest) = Some m.
Proof.
  intros [Hl Hp] Hrest. unfold re_match, match_at, pat_id.
  cbn [rmatch]. rewrite <- Hl.
  rewrite (rmatch_rep_ok _ _ _ _ _ _ Hp).
  destruct Hrest as [-> | ->]; cbn; eauto.
Qed.

Lemma pat_embed_shape b s m :
  match_at pat_embed b s = Some m ->
  exists g rest, s = "embed/" ++ g ++ rest /\ id11 g.
Proof.
  unfold match_at, pat_embed. rewrite rmatch_cat. intros H.
  apply rmatch_lit_inv in H as (b' & rest & -> & H).
  apply rmatch_grp_rep_inv in H as (b2 & g & rest' & -> & Hl & Hp & _).
  exists g, rest'. split; [reflexivity | split; assumption].
Qed.

Lemma pat_watch_shape b s m :
  match_at pat_watch b s = Some m ->
  exists g rest, s = "watch?v=" ++ g ++ rest /\ id11 g.
Proof.
  unfold match_at, pat_watch. rewrite rmatch_cat. intros H.
  apply rmatch_lit_inv in H as (b' & rest & -> & H).
  apply rmatch_grp_rep_inv in H as (b2 & g & rest' & -> & Hl & Hp & _).
  exists g, rest'. split; [reflexivity | split; assumption].
Qed.

Lemma pat_v_shape b s m :
  match_at pat_v b s = Some m ->
  exists g rest,
    (s = "v=" ++ g ++ rest \/ s = "/" ++ g ++ rest) /\ id11 g
    /\ group 1 m = g.
Proof.
  unfold match_at, pat_v. rewrite rmatch_cat, rmatch_alt. intros H.
  apply or_else_inv in H as [H|H];
    apply rmatch_lit_inv in H as (b' & rest & -> & H);
    rewrite rmatch_cat in H;
    apply rmatch_grp_rep_inv in H as (b2 & g & rest' & -> & Hl & Hp & H);
    cbn [rmatch app] in H; apply star_run_inv in H as (? & ? & H);
    inversion H; subst; exists g, rest'; cbn [group nth m_groups];
    (split; [auto | split; [split; assumption | reflexivity]]).
Qed.

Lemma append_assoc (a b c : string) : (a ++ b) ++ c = a ++ b ++ c.
Proof.
  induction a as [|x a IH]; [reflexivity|]. now rewrite !append_cons, IH.
Qed.

(** Where the second or the third pattern is found, so is the first. *)
Lemma pat_v_covers url :
  re_search pat_v url = None ->
  re_search pat_embed url = None /\ re_search pat_watch url = None.
Proof.
  intros Hv. unfold re_search in *. split.
  - destruct (search_from pat_embed true url) as [m|] eqn:E; [|reflexivity].
    apply search_from_where in E as (b' & pre & s' & -> & Hm).
    apply pat_embed_shape in Hm as (g & rest & -> & Hg).
    change ("embed/" ++ g ++ rest) with ("embed" ++ "/" ++ g ++ rest) in Hv.
    rewrite <- append_assoc in Hv.
    destruct (search_from_complete pat_v (pre ++ "embed") ("/" ++ g ++ rest)
                true) as [m' Hm'].
    { intros b0. destruct (proj2 (pat_v_at g rest b0 Hg)) as (m0 & H0 & _).
      eauto. }
    congruence.
  - destruct (search_from pat_watch true url) as [m|] eqn:E; [|reflexivity].
    apply search_from_where in E as (b' & pre & s' & -> & Hm).
    apply pat_watch_shape in Hm as (g & rest & -> & Hg).
    change ("watch?v=" ++ g ++ rest) with ("watch?" ++ "v=" ++ g ++ rest) in Hv.
    rewrite <- append_assoc in Hv.
    destruct (search_from_complete pat_v (pre ++ "watch?") ("v=" ++ g ++ rest)
                true) as [m' Hm'].
    { intros b0. destruct (proj1 (pat_v_at g rest b0 Hg)) as (m0 & H0 & _).
      eauto. }
    congruence.
Qed.

(** The last pattern is the test the function starts with. *)
Lemma pat_bare_covered url :
  re_match pat_id url = None -> re_search pat_bare url = None.
Proof.
  intros Hid. unfold re_search.
  destruct (search_from pat_bare true url) as [m|] eqn:E; [|reflexivity].
  exfalso.
  assert (exists m', match_at pat_bare true url = Some m') as [m' Hm'].
  { destruct url as [|c url]; cbn [search_from] in E.
    - destruct (match_at pat_bare true ""); [eauto | discriminate].
    - destruct (match_at pat_bare true (String c url)); [eauto|].
      unfold pat_bare in E. now rewrite search_from_anchored in E. }
  apply pat_bare_shape in Hm' as (_ & g & rest & -> & Hg & Hrest).
  destruct (pat_id_accepts g rest Hg Hrest) as [m0 H0]. congruence.
Qed.

Lemma extract_video_id_by_first_pattern (url : string) :
  extract_video_id url
  = match re_match pat_id url with
    | Some _ => Ok url
    | None =>
        match re_search pat_v url with
        | Some m => Ok (group 1 m)
        | None =>
            Raise (Exn ValueError ("Could not extract video ID from: " ++ url))
        end
    end.
Proof.
  unfold extract_video_id.
  destruct (re_match pat_id url) eqn:Hid; [reflexivity|].
  unfold patterns, first_group1.
  destruct (re_search pat_v url) eqn:Hv; [reflexivity|].
  destruct (pat_v_covers url Hv) as [-> ->].
  now rewrite (pat_bare_covered url Hid).
Qed.

(** Of the four patterns only the first ever decides: the second and the
    third are found only where the first is, and the fourth is the test the
    function starts with.  So the function is the test for a bare
    identifier followed by a search for the first pattern. *)
Theorem extract_video_id_first_pattern_decides (url : string) :
  (forall m, re_search pat_embed url = Some m ->
             exists m', re_search pat_v url = Some m')
  /\ (forall m, re_search pat_watch url = Some m ->
                exists m', re_search pat_v url = Some m')
  /\ (forall m, re_search pat_bare url = Some m ->
                exists m', re_match pat_id url = Some m')
  /\ extract_video_id url
     = match re_match pat_id url with
       | Some _ => Ok url
       | None =>
           match re_search pat_v url with
           | Some m => Ok (group 1 m)
           | None =>
               Raise (Exn ValueError
                        ("Could not extract video ID from: " ++ url))
           end
       end.
Proof.
  repeat apply conj.
  - intros m Hm. destruct (re_search pat_v url) as [m'|] eqn:Hv; [eauto|].
    destruct (pat_v_covers url Hv) as [Hembed _]. congruence.
  - intros m Hm. destruct (re_search pat_v url) as [m'|] eqn:Hv; [eauto|].
    destruct (pat_v_covers url Hv) as [_ Hwatch]. congruence.
  - intros m Hm. destruct (re_match pat_id url) as [m'|] eqn:Hid; [eauto|].
    pose proof (pat_bare_covered url Hid). congruence.
  - apply extract_video_id_by_first_pattern.
Qed.

Lemma contains_here sub s r :
  strip_prefix sub s = Some r -> contains sub s = true.
Proof. intros H. destruct s; cbn [contains]; now rewrite H. Qed.

Lemma strip_prefix_app sub rest : strip_prefix sub (sub ++ rest) = Some rest.
Proof.
  induction sub as [|c sub IH]; [now destruct rest|].
  rewrite append_cons. cbn [strip_prefix]. now rewrite Ascii.eqb_refl.
Qed.

Lemma contains_app sub pre rest : contains sub (pre ++ sub ++ rest) = true.
Proof.
  induction pre as [|c pre IH].
  - change ("" ++ sub ++ rest) with (sub ++ rest).
    eapply contains_here, strip_prefix_app.
  - rewrite append_cons. cbn [contains].
    destruct (strip_prefix sub (String c (pre ++ sub ++ rest)));
      [reflexivity | exact IH].
Qed.

(** An input with no slash and no [v=] that is not an identifier (nor one
    followed by a newline) is refused with a [ValueError] that quotes it. *)
Theorem extract_video_id_rejects (url : string) :
  contains "/" url = false ->
  contains "v=" url = false ->
  ~ id11 url ->
  (forall g, url = g ++ nl -> ~ id11 g) ->
  extract_video_id url
  = Raise (Exn ValueError ("Could not extract video ID from: " ++ url)).
Proof.
  intros Hslash Hv Hid Hnl. rewrite extract_video_id_by_first_pattern.
  destruct (re_match pat_id url) as [m|] eqn:E.
  { exfalso. apply pat_id_shape in E as (g & rest & -> & Hg & [-> | ->]).
    - rewrite append_empty in Hid. contradiction.
    - now apply (Hnl g). }
  destruct (re_search pat_v url) as [m|] eqn:F; [|reflexivity].
  exfalso. apply search_from_where in F as (b' & pre & s' & -> & Hm).
  apply pat_v_shape in Hm as (g & rest & [-> | ->] & _).
  - now rewrite contains_app in Hv.
  - now rewrite contains_app in Hslash.
Qed.

Lemma extract_video_id_rejects_witness :
  extract_video_id "my video"
  = Raise (Exn ValueError "Could not extract video ID from: my video").
Proof.
  apply (extract_video_id_rejects "my video").
  - reflexivity.
  - reflexivity.
  - intros [Hl _]. discriminate.
  - intros g Hg [Hl _].
    assert (String.length "my video" = String.length (g ++ nl)) as H
      by now rewrite <- Hg.
    rewrite length_app_string, Hl in H. discriminate.
Defined.

(** Whatever is extracted is eleven identifier characters; the one
    exception is an input made of such an identifier and a final newline,
    which is returned with its newline. *)
Theorem extract_video_id_result_shape (u v : string) :
  extract_video_id u = Ok v ->
  id11 v \/ (v = u /\ exists g, u = g ++ nl /\ id11 g).
Proof.
  rewrite extract_video_id_by_first_pattern.
  destruct (re_match pat_id u) as [m|] eqn:E.
  - intros H. inversion H; subst.
    apply pat_id_shape in E as (g & rest & -> & Hg & [-> | ->]).
    + left. now rewrite append_empty.
    + right. eauto.
  - destruct (re_search pat_v u) as [m|] eqn:F; [|discriminate].
    intros H. inversion H; subst. left.
    apply search_from_where in F as (b' & pre & s' & -> & Hm).
    apply pat_v_shape in Hm as (g & rest & _ & Hg & Hgroup).
    rewrite <- Hgroup in Hg. exact Hg.
Qed.

Lemma extract_video_id_result_shape_witness :
  id11 "dQw4w9WgXcQ"
  \/ ("dQw4w9WgXcQ" = "https://youtu.be/dQw4w9WgXcQ?t=42"
      /\ exists g, "https://youtu.be/dQw4w9WgXcQ?t=42" = g ++ nl /\ id11 g).
Proof.
  apply (extract_video_id_result_shape "https://youtu.be/dQw4w9WgXcQ?t=42").
  reflexivity.
Defined.

Ltac skip_prefix :=
  repeat (rewrite append_cons; rewrite search_from_skip by reflexivity).

(** The usual addresses of a video give its identifier, whatever follows
    it: the watch page, the short link and the embedded player. *)
Theorem extract_video_id_usual_addresses (g rest : string) :
  id11 g ->
  extract_video_id ("https://www.youtube.com/watch?v=" ++ g ++ rest) = Ok g
  /\ extract_video_id ("https://youtu.be/" ++ g ++ rest) = Ok g
  /\ extract_video_id ("https://www.youtube.com/embed/" ++ g ++ rest) = Ok g.
Proof.
  intros Hg. repeat split; rewrite extract_video_id_by_first_pattern.
  - replace (re_match pat_id ("https://www.youtube.com/watch?v=" ++ g ++ rest))
      with (@None match_obj) by reflexivity.
    unfold re_search. skip_prefix.
    destruct (proj1 (pat_v_at g rest false Hg)) as (m & Hm & Hgroup).
    now rewrite (search_from_hit _ _ _ _ Hm), Hgroup.
  - replace (re_match pat_id ("https://youtu.be/" ++ g ++ rest))
      with (@None match_obj) by reflexivity.
    unfold re_search. skip_prefix.
    destruct (proj2 (pat_v_at g rest false Hg)) as (m & Hm & Hgroup).
    now rewrite (search_from_hit _ _ _ _ Hm), Hgroup.
  - replace (re_match pat_id ("https://www.youtube.com/embed/" ++ g ++ rest))
      with (@None match_obj) by reflexivity.
    unfold re_search. skip_prefix.
    destruct (proj2 (pat_v_at g rest false Hg)) as (m & Hm & Hgroup).
    now rewrite (search_from_hit _ _ _ _ Hm), Hgroup.
Qed.

Lemma extract_video_id_usual_addresses_witness :
  extract_video_id "https://www.youtube.com/watch?v=dQw4w9WgXcQ&t=42s"
  = Ok "dQw4w9WgXcQ".
Proof.
  apply (proj1 (extract_video_id_usual_addresses "dQw4w9WgXcQ" "&t=42s"
                  (conj eq_refl eq_refl))).
Defined.

End VideoIdMore.

(* ================================================================= *)
(** ** More on [get_transcript] *)

Module CaptionMore.
Import TranscriptDownloader.

Section WithEnv.
Variable E : env.

Lemma get_transcript_hit video_id before lang after data d c s :
  Forall (fun l => no_track E video_id (Some l)) before ->
  api_get_transcript E video_id (Some lang) = Ok data ->
  get_transcript E video_id (Some (before ++ lang :: after)%list) (World d c s)
  = (Ok (data, lang),
     World d (c ++ requests_for video_id (before ++ [lang])) s).
Proof.
  intros Hbefore Hlang.
  unfold get_transcript, try_except, mbind, M_bind, bind.
  rewrite (CaptionFacts.try_languages_skips _ _ _ _ _ _ _ Hbefore).
  cbn [try_languages]. unfold mbind, M_bind, bind, log. cbn.
  rewrite Hlang. cbn. unfold requests_for.
  now rewrite map_app, <- app_assoc.
Qed.

(** Either no language of a list has a track, or there is a first one that
    has. *)
Lemma first_track video_id (languages : list string) :
  Forall (fun l => no_track E video_id (Some l)) languages
  \/ exists before lang after data,
       languages = (before ++ lang :: after)%list
       /\ Forall (fun l => no_track E video_id (Some l)) before
       /\ api_get_transcript E video_id (Some lang) = Ok data.
Proof.
  induction languages as [|l rest IH]; [left; constructor|].
  destruct (api_get_transcript E video_id (Some l)) as [data|e] eqn:Hl.
  - right. exists [], l, rest, data. repeat split; auto.
  - assert (no_track E video_id (Some l)) as Hno by (exists e; exact Hl).
    destruct IH as [IH | (before & lang & after & data & -> & Hb & Hd)].
    + left. now constructor.
    + right. exists (l :: before), lang, after, data.
      repeat split; auto.
Qed.

(** What [get_transcript] can give.  A track comes with the tag of a
    language of the list that has this track, or with the tag [unknown] when
    no language of the list has one and the request without a language
    succeeded.  A failure always carries the same message, whatever the
    caption source had said.  The disk and standard error are left alone and
    no more requests are made than there are languages, plus one. *)
Theorem get_transcript_outcomes
    (video_id : string) (languages : list string) (w : world) :
  (forall data tag,
     fst (get_transcript E video_id (Some languages) w) = Ok (data, tag) ->
     (In tag languages
      /\ api_get_transcript E video_id (Some tag) = Ok data)
     \/ (tag = "unknown"
         /\ api_get_transcript E video_id None = Ok data
         /\ Forall (fun l => no_track E video_id (Some l)) languages))
  /\ (forall e,
        fst (get_transcript E video_id (Some languages) w) = Raise e ->
        e = Exn Exception
              "Error fetching transcript: No transcripts available for this video"
        /\ no_track E video_id None
        /\ Forall (fun l => no_track E video_id (Some l)) languages)
  /\ (exists new,
        snd (get_transcript E video_id (Some languages) w)
        = World (disk w) (calls w ++ new) (stderr w)
        /\ length new <= length languages + 1).
Proof.
  destruct w as [d c s].
  destruct (first_track video_id languages)
    as [Hall | (before & lang & after & data0 & -> & Hb & Hd)].
  - rewrite (CaptionFacts.get_transcript_exhausted _ _ _ _ _ _ Hall).
    cbn [fst snd disk calls stderr].
    destruct (api_get_transcript E video_id None) as [data0|e0] eqn:Hnone.
    + split; [|split].
      * intros data tag H. inversion H; subst. right. auto.
      * intros e H. discriminate.
      * eexists. split; [reflexivity|].
        unfold requests_for. rewrite length_app, length_map. cbn. lia.
    + split; [|split].
      * intros data tag H. discriminate.
      * intros e H. inversion H; subst. repeat split; eauto.
        now exists e0.
      * eexists. split; [reflexivity|].
        unfold requests_for. rewrite length_app, length_map. cbn. lia.
  - rewrite (get_transcript_hit _ _ _ _ _ _ _ _ Hb Hd).
    cbn [fst snd disk calls stderr]. split; [|split].
    + intros data tag H. inversion H; subst. left. split; [|exact Hd].
      apply in_or_app. right. now left.
    + intros e H. discriminate.
    + eexists. split; [reflexivity|].
      unfold requests_for. rewrite length_map, !length_app. cbn. lia.
Qed.

End WithEnv.

Lemma get_transcript_outcomes_witness :
  (In "en" ["fr"; "en"]
   /\ api_get_transcript Worked.english_only "dQw4w9WgXcQ" (Some "en")
      = Ok [PDict [("text", PStr "hello")]])
  \/ ("en" = "unknown"
      /\ api_get_transcript Worked.english_only "dQw4w9WgXcQ" None
         = Ok [PDict [("text", PStr "hello")]]
      /\ Forall (fun l => no_track Worked.english_only "dQw4w9WgXcQ" (Some l))
           ["fr"; "en"]).
Proof.
  apply (proj1 (get_transcript_outcomes Worked.english_only "dQw4w9WgXcQ"
                  ["fr"; "en"] Worked.empty_world)).
  reflexivity.
Defined.

End CaptionMore.

(* ================================================================= *)
(** ** More on the transcription engines *)

Module EngineMore.
Import TranscriptDownloader.

Lemma rev_string_app (acc s t : string) :
  rev_string acc (s ++ t) = rev_string (rev_string acc s) t.
Proof.
  revert acc. induction s as [|c s IH]; intros acc; [reflexivity|].
  rewrite append_cons. cbn [rev_string]. apply IH.
Qed.

(** A final slash of the server address does not count. *)
Lemma rstrip_slash_slash (s : string) :
  rstrip_slash (s ++ "/") = rstrip_slash s.
Proof.
  unfold rstrip_slash, rdrop_while. now rewrite rev_string_app.
Qed.

Section WithEnv.
Variable E : env.

Lemma segment_texts_run segments texts w :
  Forall2 segment_text segments texts ->
  segment_texts E segments w = (Ok (map PStr texts), w).
Proof.
  intros H. induction H as [|seg t segs ts (d & -> & Ht) _ IH].
  - reflexivity.
  - cbn [segment_texts]. unfold mbind, M_bind, bind. rewrite IH.
    cbn. now rewrite Ht.
Qed.

Lemma join_space_run texts w :
  join_space E (map PStr texts) w = (Ok (String.concat " " texts), w).
Proof.
  induction texts as [|t ts IH]; [reflexivity|].
  cbn [map join_space]. unfold mbind, M_bind, bind. rewrite IH. cbn.
  destruct ts; reflexivity.
Qed.

(** The three clauses of [transcribe_with_whishper] turn every exception
    into an [Exception]; a [SystemExit] passes, and only a collaborator
    raises one. *)
Lemma whishper_clauses_normalize audio_file whishper_url language w e :
  let api_endpoint := rstrip_slash whishper_url ++ "/api/transcriptions" in
  fst (transcribe_with_whishper E audio_file whishper_url language w)
  = Raise e ->
  (exists msg, e = Exn Exception msg)
  \/ (exists code,
        e = SystemExit code
        /\ (requests_post E api_endpoint (path_name audio_file) language
            = PostRaises (SystemExit code)
            \/ exists status_code text,
                 requests_post E api_endpoint (path_name audio_file) language
                 = PostResponse status_code text (Raise (SystemExit code)))).
Proof.
  cbv zeta. destruct (decide (audio_file ∈ disk w)) as [Hthere|Habsent].
  2:{ rewrite (EngineFacts.whishper_absent E _ _ _ _ Habsent). cbn.
      intros [= <-]. left. eauto. }
  rewrite (EngineFacts.whishper_present E _ _ _ _ Hthere).
  unfold try_except.
  assert (forall code,
            fst (whishper_post E audio_file
                   (rstrip_slash whishper_url ++ "/api/transcriptions")
                   language w) = Raise (SystemExit code) ->
            requests_post E
              (rstrip_slash whishper_url ++ "/api/transcriptions")
              (path_name audio_file) language
            = PostRaises (SystemExit code)
            \/ exists status_code text,
                 requests_post E
                   (rstrip_slash whishper_url ++ "/api/transcriptions")
                   (path_name audio_file) language
                 = PostResponse status_code text (Raise (SystemExit code)))
    as Hexit.
  { intros code. unfold whishper_post, mbind, M_bind, bind, log, lift.
    cbn [fst snd].
    destruct (requests_post E _ _ _) as [e0|status_code text json];
      cbn [raise fst]; [intros [= ->]; now left|].
    destruct (Z.eqb status_code 200); [|discriminate].
    destruct json as [result|e0]; cbn [fst];
      [|intros [= ->]; right; eauto].
    destruct (py_in "text" result) as [[|]|]; try discriminate.
    - destruct result; discriminate.
    - destruct (py_in "segments" result) as [[|]|]; try discriminate.
      destruct result as [| | | | | |items]; try discriminate.
      cbn [py_subscript ret]. unfold join_segments.
      destruct (dict_get "segments" items) as [| | | |t|l|dd]; try discriminate.
      + destruct t; discriminate.
      + unfold mbind, M_bind, bind.
        destruct (segment_texts E l _) as [[ts|e1] w1] eqn:Hsegs.
        * destruct (join_space E ts w1) as [[joined|e2] w2] eqn:Hjoin;
            [discriminate|].
          cbn [fst]. intros [= ->]. exfalso.
          clear Hsegs. revert w1 w2 Hjoin.
          induction ts as [|t ts IH]; intros w1 w2 Hjoin; [discriminate|].
          cbn [join_space] in Hjoin. destruct t; try discriminate.
          unfold mbind, M_bind, bind in Hjoin.
          destruct (join_space E ts w1) as [[j|e3] w3] eqn:Hrest;
            [discriminate|].
          injection Hjoin as -> ->. eapply IH, Hrest.
        * cbn [fst]. intros [= ->]. exfalso.
          revert w1 Hsegs. generalize (World (disk w)
            (calls w ++ [CallWhishper
                           (rstrip_slash whishper_url ++ "/api/transcriptions")
                           (path_name audio_file) language]) (stderr w)).
          induction l as [|x l IH]; intros w0 w1 Hsegs; [discriminate|].
          cbn [segment_texts] in Hsegs. destruct x; try discriminate.
          unfold mbind, M_bind, bind in Hsegs.
          destruct (segment_texts E l w0) as [[ts|e3] w3] eqn:Hrest;
            [discriminate|].
          injection Hsegs as -> ->. eapply IH, Hrest.
      + destruct dd as [|[k x] dd]; discriminate. }
  destruct (whishper_post E audio_file _ language w) as [[v|e0] w1];
    cbn [fst]; [discriminate|].
  specialize (fun code H => Hexit code (f_equal Raise H)).
  unfold whishper_clauses. cbn [handle]. destruct e0 as [c m|code]; cbn [is_a].
  - destruct c; cbn; intros H; inversion H; eauto.
  - cbn. intros H. inversion H; subst. right. exists code.
    split; [reflexivity|]. now apply Hexit.
Qed.

(** Reading the reply of the server, once the audio file could be opened.
    With status 200 and a JSON object: the value under [text] is the
    transcript when the key is there, whatever [segments] holds; otherwise
    the texts of the [segments] joined by single spaces; with neither key
    the reply is refused.  With another status the reply is refused and
    quoted. *)
Theorem whishper_reply
    (audio_file whishper_url language text : string) (status_code : Z)
    (d : list (string * pyval)) (w : world) :
  let api_endpoint := rstrip_slash whishper_url ++ "/api/transcriptions" in
  audio_file ∈ disk w ->
  (forall v,
     requests_post E api_endpoint (path_name audio_file) language
     = PostResponse 200 text (Ok (PDict d)) ->
     dict_lookup "text" d = Some v ->
     fst (transcribe_with_whishper E audio_file whishper_url language w)
     = Ok v)
  /\ (forall segments texts,
        requests_post E api_endpoint (path_name audio_file) language
        = PostResponse 200 text (Ok (PDict d)) ->
        dict_lookup "text" d = None ->
        dict_lookup "segments" d = Some (PList segments) ->
        Forall2 segment_text segments texts ->
        fst (transcribe_with_whishper E audio_file whishper_url language w)
        = Ok (PStr (String.concat " " texts)))
  /\ (requests_post E api_endpoint (path_name audio_file) language
      = PostResponse 200 text (Ok (PDict d)) ->
      dict_lookup "text" d = None ->
      dict_lookup "segments" d = None ->
      fst (transcribe_with_whishper E audio_file whishper_url language w)
      = Raise (Exn Exception
                 ("Transcription failed: Unexpected response format: "
                  ++ py_str E (PDict d))))
  /\ (forall json,
        requests_post E api_endpoint (path_name audio_file) language
        = PostResponse status_code text json ->
        status_code <> 200%Z ->
        fst (transcribe_with_whishper E audio_file whishper_url language w)
        = Raise (Exn Exception
                   ("Transcription failed: Whishper API error: "
                    ++ py_str E (PInt status_code) ++ " - " ++ text))).
Proof.
  cbv zeta. intros Hthere.
  rewrite (EngineFacts.whishper_present E _ _ _ _ Hthere).
  destruct w as [dk c s]. repeat split.
  - intros v Hpost Hv.
    unfold whishper_post, try_except, mbind, M_bind, bind, log.
    cbn. rewrite Hpost. cbn. unfold dict_has, dict_get. now rewrite Hv.
  - intros segments texts Hpost Hnone Hseg Htexts.
    unfold whishper_post, try_except, mbind, M_bind, bind, log.
    cbn. rewrite Hpost. cbn. unfold dict_has, dict_get.
    rewrite Hnone, Hseg. cbn. unfold mbind, M_bind, bind.
    rewrite (segment_texts_run _ _ _ Htexts), join_space_run. reflexivity.
  - intros Hpost Hnone Hseg.
    unfold whishper_post, try_except, mbind, M_bind, bind, log.
    cbn. rewrite Hpost. cbn. unfold dict_has. now rewrite Hnone, Hseg.
  - intros json Hpost Hstatus.
    unfold whishper_post, try_except, mbind, M_bind, bind, log.
    cbn. rewrite Hpost.
    destruct (Z.eqb status_code 200) eqn:Heq;
      [apply Z.eqb_eq in Heq; contradiction|].
    reflexivity.
Qed.

(** How the remote engine fails.  What leaves the function is an
    [Exception], or the [SystemExit] with which the request or the decoding
    of its reply ended.  An audio file that is not there fails the
    transcription before anything is sent.  With the file there: a timeout,
    a connection timeout included, is reported as a timeout; a connection
    error that is no timeout names the server; anything else is reported
    as a failed transcription with the cause. *)
Theorem whishper_failures
    (audio_file whishper_url language : string) (w : world) :
  let api_endpoint := rstrip_slash whishper_url ++ "/api/transcriptions" in
  (forall e,
     fst (transcribe_with_whishper E audio_file whishper_url language w)
     = Raise e ->
     (exists msg, e = Exn Exception msg)
     \/ (exists code,
           e = SystemExit code
           /\ (requests_post E api_endpoint (path_name audio_file) language
               = PostRaises (SystemExit code)
               \/ exists status_code text,
                    requests_post E api_endpoint (path_name audio_file)
                      language
                    = PostResponse status_code text
                        (Raise (SystemExit code)))))
  /\ (audio_file ∉ disk w ->
      transcribe_with_whishper E audio_file whishper_url language w
      = (Raise (Exn Exception
                  ("Transcription failed: "
                   ++ fault_msg E FaultOpen (PStr audio_file))), w))
  /\ (forall e,
        audio_file ∈ disk w ->
        requests_post E api_endpoint (path_name audio_file) language
        = PostRaises e ->
        is_a Timeout e = true ->
        fst (transcribe_with_whishper E audio_file whishper_url language w)
        = Raise (Exn Exception
                   "Transcription timed out. The audio file may be too large."))
  /\ (forall e,
        audio_file ∈ disk w ->
        requests_post E api_endpoint (path_name audio_file) language
        = PostRaises e ->
        is_a Timeout e = false -> is_a ConnectionError e = true ->
        fst (transcribe_with_whishper E audio_file whishper_url language w)
        = Raise (Exn Exception
                   ("Could not connect to Whishper server at " ++ whishper_url
                    ++ ". Make sure it's running.")))
  /\ (forall e,
        audio_file ∈ disk w ->
        requests_post E api_endpoint (path_name audio_file) language
        = PostRaises e ->
        is_a Timeout e = false -> is_a ConnectionError e = false ->
        is_a Exception e = true ->
        fst (transcribe_with_whishper E audio_file whishper_url language w)
        = Raise (Exn Exception ("Transcription failed: " ++ exn_msg e))).
Proof.
  cbv zeta. repeat apply conj.
  - intros e. apply whishper_clauses_normalize.
  - apply EngineFacts.whishper_absent.
  - intros e Hthere Hpost Ht.
    rewrite (EngineFacts.whishper_present E _ _ _ _ Hthere).
    destruct w as [dk c s].
    unfold whishper_post, try_except, mbind, M_bind, bind, log.
    cbn. rewrite Hpost. cbn. now rewrite Ht.
  - intros e Hthere Hpost Ht Hc.
    rewrite (EngineFacts.whishper_present E _ _ _ _ Hthere).
    destruct w as [dk c s].
    unfold whishper_post, try_except, mbind, M_bind, bind, log.
    cbn. rewrite Hpost. cbn. now rewrite Ht, Hc.
  - intros e Hthere Hpost Ht Hc He.
    rewrite (EngineFacts.whishper_present E _ _ _ _ Hthere).
    destruct w as [dk c s].
    unfold whishper_post, try_except, mbind, M_bind, bind, log.
    cbn. rewrite Hpost. cbn. now rewrite Ht, Hc, He.
Qed.

(** The server address with and without a final slash leads to the same
    request. *)
Theorem whishper_endpoint_ignores_final_slash
    (audio_file whishper_url language : string) (w : world) :
  calls (snd (transcribe_with_whishper E audio_file (whishper_url ++ "/")
                language w))
  = calls (snd (transcribe_with_whishper E audio_file whishper_url
                  language w)).
Proof.
  destruct (decide (audio_file ∈ disk w)) as [Hthere|Habsent].
  - rewrite !(EngineFacts.whishper_calls_present E _ _ _ _ Hthere).
    now rewrite rstrip_slash_slash.
  - now rewrite !(EngineFacts.whishper_absent E _ _ _ _ Habsent).
Qed.

End WithEnv.

Lemma whishper_reply_witness :
  fst (transcribe_with_whishper Worked.english_only
         "/tmp/youtube_transcripts/dQw4w9WgXcQ.mp3" "http://localhost:8082/"
         "en" Worked.downloaded)
  = Ok (PStr "hello").
Proof.
  apply (proj1 (whishper_reply Worked.english_only
                  "/tmp/youtube_transcripts/dQw4w9WgXcQ.mp3"
                  "http://localhost:8082/" "en" "" 200
                  [("text", PStr "hello")] Worked.downloaded
                  ltac:(compute_done))
           (PStr "hello")); reflexivity.
Defined.

Lemma whishper_failures_witness :
  fst (transcribe_with_whishper Worked.web
         "/tmp/youtube_transcripts/dQw4w9WgXcQ.mp3" "http://localhost:8082"
         "en" Worked.downloaded)
  = Raise (Exn Exception
             ("Could not connect to Whishper server at http://localhost:8082"
              ++ ". Make sure it's running.")).
Proof.
  apply (proj1 (proj2 (proj2 (proj2 (whishper_failures Worked.web
                  "/tmp/youtube_transcripts/dQw4w9WgXcQ.mp3"
                  "http://localhost:8082" "en" Worked.downloaded))))
           (Exn ConnectionError "refused"));
    first [reflexivity | compute_done].
Defined.

End EngineMore.

(* ================================================================= *)
(** ** More on the orchestrator of [transcript_downloader] *)

Module OrchestratorMore.
Import VideoId TranscriptDownloader.

(* ----------------------------------------------------------------- *)
(** *** Computations that only add to the log *)

Section Detached.
Context {A B : Type}.
Variable P : gset string -> Prop.

Lemma detached_ret (a : A) : detached P (ret a).
Proof.
  exists (Ok a), []. intros [d c s] _. unfold ret. cbn. now rewrite app_nil_r.
Qed.

Lemma detached_mret (a : A) : detached P (mret a : M A).
Proof. apply detached_ret. Qed.

Lemma detached_raise (e : exn) : detached P (raise e : M A).
Proof.
  exists (Raise e), []. intros [d c s] _. unfold raise. cbn.
  now rewrite app_nil_r.
Qed.

Lemma detached_lift (r : result A) : detached P (lift r).
Proof.
  exists r, []. intros [d c s] _. unfold lift. cbn. now rewrite app_nil_r.
Qed.

Lemma detached_bind (m : M A) (f : A -> M B) :
  detached P m -> (forall a, detached P (f a)) -> detached P (m ≫= f).
Proof.
  intros (r & new & Hm) Hf. destruct r as [a|e].
  - destruct (Hf a) as (r2 & new2 & Hfa).
    exists r2, (new ++ new2)%list. intros w Hw.
    unfold mbind, M_bind, bind. rewrite (Hm w Hw).
    rewrite (Hfa (World (disk w) (calls w ++ new) (stderr w)) Hw). cbn.
    now rewrite app_assoc.
  - exists (Raise e), new. intros w Hw.
    unfold mbind, M_bind, bind. now rewrite (Hm w Hw).
Qed.

Lemma detached_log (c : call) : detached P (log c).
Proof. exists (Ok tt), [c]. intros w _. reflexivity. Qed.

Lemma detached_handle (clauses : list (exn_class * (exn -> M A))) e :
  Forall (fun ch => forall e', detached P (snd ch e')) clauses ->
  detached P (handle clauses e).
Proof.
  intros H. induction H as [|[c h] rest Hh _ IH]; cbn [handle].
  - apply detached_raise.
  - destruct (is_a c e); [apply Hh | exact IH].
Qed.

Lemma detached_try_except (body : M A)
    (clauses : list (exn_class * (exn -> M A))) :
  detached P body ->
  Forall (fun ch => forall e', detached P (snd ch e')) clauses ->
  detached P (try_except body clauses).
Proof.
  intros (r & new & Hb) Hh. destruct r as [a|e].
  - exists (Ok a), new. intros w Hw. unfold try_except. now rewrite (Hb w Hw).
  - destruct (detached_handle clauses e Hh) as (r2 & new2 & Hh2).
    exists r2, (new ++ new2)%list. intros w Hw.
    unfold try_except. rewrite (Hb w Hw).
    rewrite (Hh2 (World (disk w) (calls w ++ new) (stderr w)) Hw). cbn.
    now rewrite app_assoc.
Qed.
End Detached.

Ltac loose :=
  repeat first
    [ apply detached_mret | apply detached_ret | apply detached_raise
    | apply detached_lift | apply detached_log
    | apply detached_bind; [ | intros ?] ].

Section WithEnv.
Variable E : env.

Section Engines.
Variable P : gset string -> Prop.

Lemma detached_py_subscript key v : detached P (py_subscript E key v).
Proof. destruct v; cbn; loose. Qed.

Lemma detached_segment_texts segments :
  detached P (segment_texts E segments).
Proof.
  induction segments as [|v rest IH]; cbn [segment_texts]; [loose|].
  destruct v; loose. exact IH.
Qed.

Lemma detached_join_space ts : detached P (join_space E ts).
Proof.
  induction ts as [|v rest IH]; cbn [join_space]; [loose|].
  destruct v; loose. exact IH.
Qed.

Lemma detached_join_segments v : detached P (join_segments E v).
Proof.
  destruct v as [| | | |s|l|d]; cbn; loose.
  - destruct s; loose.
  - apply detached_segment_texts.
  - apply detached_join_space.
  - destruct d as [|[k x] d]; loose.
Qed.

Lemma detached_whishper_post audio_file api_endpoint language :
  detached P (whishper_post E audio_file api_endpoint language).
Proof.
  unfold whishper_post. loose.
  destruct (requests_post E _ _ _) as [e|status text json]; [loose|].
  destruct (Z.eqb status 200); [|loose].
  loose.
  destruct (py_in "text" _) as [[|]|];
    [apply detached_py_subscript | | loose].
  destruct (py_in "segments" _) as [[|]|]; [ | loose | loose].
  loose; [apply detached_py_subscript | apply detached_join_segments].
Qed.

Lemma detached_local_whisper audio_file language model_size :
  detached P
    (transcribe_with_local_whisper E audio_file language model_size).
Proof.
  unfold transcribe_with_local_whisper.
  destruct (negb (WHISPER_AVAILABLE E)); [loose|].
  apply detached_try_except; [loose|].
  repeat constructor; intros e; cbn; loose.
Qed.
End Engines.

(** With the audio file on the disk the remote engine only adds to the
    log. *)
Lemma detached_whishper audio_file whishper_url language :
  detached (fun d => audio_file ∈ d)
    (transcribe_with_whishper E audio_file whishper_url language).
Proof.
  destruct (detached_try_except (fun d => audio_file ∈ d)
              (whishper_post E audio_file
                 (rstrip_slash whishper_url ++ "/api/transcriptions")
                 language)
              (whishper_clauses whishper_url)) as (r & new & Hrun).
  - apply detached_whishper_post.
  - repeat constructor; intros e; cbn; loose.
  - exists r, new. intros w Hw.
    rewrite (EngineFacts.whishper_present E _ _ _ _ Hw). now apply Hrun.
Qed.

(** The choice of the engine, with the audio file on the disk: what it
    gives and what it calls are the same from every such world, and it
    leaves the disk and standard error alone. *)
Lemma detached_main_engines a audio_file primary_language :
  detached (fun d => audio_file ∈ d)
    (main_engines E a audio_file primary_language).
Proof.
  unfold main_engines.
  destruct (use_local_whisper a || WHISPER_AVAILABLE E);
    [|apply detached_whishper].
  apply detached_try_except; [apply detached_local_whisper|].
  repeat constructor. intros e. cbn.
  destruct (use_local_whisper a); [loose | apply detached_whishper].
Qed.

(* ----------------------------------------------------------------- *)
(** *** [download_audio] *)


(* ----------------------------------------------------------------- *)
(** *** Runs of [main] that never reach the audio *)

Lemma extract_video_id_raises url e :
  extract_video_id url = Raise e ->
  e = Exn ValueError ("Could not extract video ID from: " ++ url).
Proof.
  unfold extract_video_id.
  destruct (re_match pat_id url); [discriminate|].
  destruct (first_group1 patterns url); [discriminate|].
  intros H. now inversion H.
Qed.

(** An address from which no identifier can be taken: one line on standard
    error, status 1, nothing called and nothing written. *)
Theorem main_refuses_bad_address (a : args) (w : world) (e : exn) :
  extract_video_id (args_url a) = Raise e ->
  main E a w
  = (Raise (SystemExit 1),
     World (disk w) (calls w)
       (stderr w ++ [(nl ++ "Error: Could not extract video ID from: "
                      ++ args_url a)%string])).
Proof.
  intros H. pose proof (extract_video_id_raises _ _ H) as ->.
  destruct w as [d c s].
  unfold main, try_except, main_body, mbind, M_bind, bind, lift.
  rewrite H. reflexivity.
Qed.

Lemma probe_languages_run video_id langs d c s :
  exists available,
    probe_languages E video_id langs (World d c s)
    = (Ok available, World d (c ++ requests_for video_id langs) s).
Proof.
  revert c. induction langs as [|lang rest IH]; intros c.
  - exists []. cbn. now rewrite app_nil_r.
  - cbn [probe_languages]. unfold mbind, M_bind, bind, log. cbn.
    destruct (IH (c ++ [CallGetTranscript video_id (Some lang)])%list)
      as [available ->].
    eexists. cbn. now rewrite <- app_assoc.
Qed.

(** With [--list-transcripts] the run asks the caption source for each of
    the eleven common languages and stops: status 0, no download, no
    engine, no file. *)
Theorem main_list_transcripts_only_probes
    (a : args) (w : world) (video_id : string) :
  extract_video_id (args_url a) = Ok video_id ->
  list_transcripts a = true ->
  main E a w
  = (Ok tt,
     World (disk w) (calls w ++ requests_for video_id common_langs)
       (stderr w)).
Proof.
  intros Hid Hlist. destruct w as [d c s].
  unfold main, try_except, main_body, mbind, M_bind, bind, lift.
  rewrite Hid, Hlist.
  destruct (probe_languages_run video_id common_langs d c s)
    as [available ->].
  reflexivity.
Qed.



(* ----------------------------------------------------------------- *)
(** *** Runs of [main] that reach the audio *)

(** A run that downloaded the audio, by what the engines give: saving
    and cleaning up when they give a value, the report and the cleanup of
    the handler when they raise.  The log is left open. *)
Lemma main_after_download (a : args) (w w0 : world) (video_id : string)
    (files : list string) :
  let languages := map strip (split_comma "" (args_languages a)) in
  let temp_dir := path_join (gettempdir E) "youtube_transcripts" in
  let audio_file := path_join temp_dir (video_id ++ ".mp3") in
  let primary_language := List.hd "en" languages in
  let downloaded := disk w ∪ list_to_set files in
  let tidy (d : gset string) :=
    if keep_audio a then d else d ∖ {[ audio_file ]} in
  extract_video_id (args_url a) = Ok video_id ->
  list_transcripts a = false ->
  (audio_only a = true \/
   (audio_only a = false
    /\ Forall (fun lang => no_track E video_id (Some lang)) languages
    /\ no_track E video_id None)) ->
  yt_dlp E (args_url a) (path_join temp_dir "%(id)s.%(ext)s")
  = (files, None) ->
  In audio_file files ->
  audio_file ∈ disk w0 ->
  exists log,
    main E a w
    = match fst (main_engines E a audio_file primary_language w0) with
      | Ok v =>
          try_except
            (save_transcript E v (output_path_of a video_id) ;;
             cleanup (Some audio_file) (keep_audio a))
            [(ValueError, on_error); (Exception, on_error)]
            (World downloaded log (stderr w))
      | Raise (Exn _ msg) =>
          (Raise (SystemExit 1),
           World (tidy downloaded) log
             (stderr w ++ [(nl ++ "Error during audio transcription: "
                            ++ msg)%string]))
      | Raise (SystemExit code) =>
          (Raise (SystemExit code), World downloaded log (stderr w))
      end.
Proof.
  intros languages temp_dir audio_file primary_language downloaded tidy
    Hid Hlist Hcap Hyt Hin Hw0.
  destruct w as [d c s].
  assert (exists c', main_captions E a video_id languages (World d c s)
                     = (Ok None, World d c' s)) as [c' Hcaptions].
  { destruct Hcap as [Ha|(Ha & Hlangs & Hno)].
    - unfold main_captions. rewrite Ha. cbn. eauto.
    - rewrite (OrchestratorFacts.main_captions_none _ _ _ _ _ _ _ Ha Hlangs Hno).
      eauto. }
  destruct (detached_main_engines a audio_file primary_language)
    as (r & new & Hrun).
  rewrite (Hrun w0 Hw0). cbn [fst].
  exists ((c' ++ [CallYtDlp (args_url a)
                    (path_join temp_dir "%(id)s.%(ext)s")]) ++ new)%list.
  assert (audio_file ∈ downloaded) as Hthere.
  { apply elem_of_union_r, elem_of_list_to_set, list_elem_of_In, Hin. }
  unfold main, try_except, main_body, mbind, M_bind, bind, lift.
  rewrite Hid, Hlist. fold languages. rewrite Hcaptions.
  unfold main_audio_fallback, try_except, mbind, M_bind, bind.
  fold temp_dir.
  rewrite (OrchestratorFacts.download_audio_ok _ _ _ _ _ _ _ _ Hid Hyt Hin).
  fold audio_file.
  replace (match languages with lang :: _ => lang | [] => "en" end)
    with primary_language by (unfold primary_language; now destruct languages).
  match goal with
  | |- context [main_engines E a _ _ ?w1] => rewrite (Hrun w1 Hthere)
  end.
  cbn [disk calls stderr].
  destruct r as [v|[cls msg|code]].
  - (* the engines gave a value *) reflexivity.
  - (* the engines raised *)
    cbn. unfold on_transcription_error, cleanup, eprint, exists_, sys_exit,
      mbind, M_bind, bind. cbn. fold downloaded.
    rewrite bool_decide_eq_true_2 by exact Hthere.
    unfold tidy. now destruct (keep_audio a).
  - reflexivity.
Qed.


(** When the engines give a value that is no text (a Whishper reply whose
    [text] is [null], say), the run ends with status 1 and the audio file
    is left behind; if the output could be opened, it is left behind too. *)
Theorem main_leaves_audio_when_text_is_no_string (a : args) (w w0 : world)
    (video_id : string) (files : list string) (v : pyval) :
  let languages := map strip (split_comma "" (args_languages a)) in
  let temp_dir := path_join (gettempdir E) "youtube_transcripts" in
  let audio_file := path_join temp_dir (video_id ++ ".mp3") in
  let primary_language := List.hd "en" languages in
  let output_path := output_path_of a video_id in
  extract_video_id (args_url a) = Ok video_id ->
  list_transcripts a = false ->
  (audio_only a = true \/
   (audio_only a = false
    /\ Forall (fun lang => no_track E video_id (Some lang)) languages
    /\ no_track E video_id None)) ->
  yt_dlp E (args_url a) (path_join temp_dir "%(id)s.%(ext)s")
  = (files, None) ->
  In audio_file files ->
  audio_file ∈ disk w0 ->
  fst (main_engines E a audio_file primary_language w0) = Ok v ->
  (forall text, v <> PStr text) ->
  fst (main E a w) = Raise (SystemExit 1)
  /\ audio_file ∈ disk (snd (main E a w))
  /\ (can_write E (disk w ∪ list_to_set files) output_path ->
      output_path ∈ disk (snd (main E a w))
      /\ stderr (snd (main E a w))
         = (stderr w ++ [(nl ++ "Error: " ++ fault_msg E FaultWrite v)
                         %string])%list).
Proof.
  intros languages temp_dir audio_file primary_language output_path
    Hid Hlist Hcap Hyt Hin Hw0 Hr Hv.
  destruct (main_after_download a w w0 video_id files Hid Hlist Hcap Hyt Hin
              Hw0) as [log Hmain].
  fold languages temp_dir audio_file primary_language output_path in Hmain.
  assert (audio_file ∈ disk w ∪ list_to_set files) as Hthere.
  { apply elem_of_union_r, elem_of_list_to_set, list_elem_of_In, Hin. }
  rewrite Hr in Hmain. rewrite Hmain.
  destruct (OrchestratorFacts.can_write_dec E (disk w ∪ list_to_set files)
              output_path) as [Hcan|Hrefused].
  - rewrite (OrchestratorFacts.save_and_cleanup_ok E _ _ _ _ _ _ _ Hcan
               Hthere).
    destruct v as [| | | |text| |]; try (now destruct (Hv text));
      cbn [fst snd disk stderr];
      (repeat apply conj;
       [reflexivity | apply elem_of_union_l, Hthere
       | intros _; split;
         [apply elem_of_union_r, elem_of_singleton; reflexivity
         | reflexivity]]).
  - assert (~ can_write E (disk w ∪ list_to_set files) output_path) as Hnot.
    { unfold can_write.
      destruct Hrefused as [[msg ->]|[_ [msg ->]]]; intros [? ?];
        discriminate. }
    destruct (OrchestratorFacts.save_and_cleanup_refused E v
                output_path (Some audio_file) (keep_audio a)
                (disk w ∪ list_to_set files) log (stderr w) Hnot)
      as [msg ->].
    cbn [fst snd disk stderr]. repeat apply conj;
      [reflexivity | exact Hthere | now intros Hcan].
Qed.

End WithEnv.


Lemma main_refuses_bad_address_witness :
  fst (main Worked.with_whisper Worked.bad_address_args Worked.empty_world)
  = Raise (SystemExit 1).
Proof.
  rewrite (main_refuses_bad_address Worked.with_whisper
             Worked.bad_address_args Worked.empty_world
             (Exn ValueError "Could not extract video ID from: my video")
             eq_refl).
  reflexivity.
Defined.

Lemma main_list_transcripts_only_probes_witness :
  fst (main Worked.english_only Worked.listing_args Worked.empty_world)
  = Ok tt.
Proof.
  rewrite (main_list_transcripts_only_probes Worked.english_only
             Worked.listing_args Worked.empty_world "dQw4w9WgXcQ" eq_refl eq_refl).
  reflexivity.
Defined.



Lemma main_leaves_audio_when_text_is_no_string_witness :
  fst (main Worked.null_text_reply Worked.default_args Worked.empty_world)
  = Raise (SystemExit 1)
  /\ "/tmp/youtube_transcripts/dQw4w9WgXcQ.mp3"
       ∈ disk (snd (main Worked.null_text_reply Worked.default_args
                      Worked.empty_world))
  /\ "transcripts/dQw4w9WgXcQ.txt"
       ∈ disk (snd (main Worked.null_text_reply Worked.default_args
                      Worked.empty_world)).
Proof.
  destruct (main_leaves_audio_when_text_is_no_string Worked.null_text_reply
              Worked.default_args Worked.empty_world Worked.downloaded
              "dQw4w9WgXcQ" ["/tmp/youtube_transcripts/dQw4w9WgXcQ.mp3"]
              PNone)
    as (Hstatus & Haudio & Hout).
  - reflexivity.
  - reflexivity.
  - right. split; [reflexivity|]. split.
    + repeat constructor. eexists. reflexivity.
    + eexists. reflexivity.
  - reflexivity.
  - left. reflexivity.
  - compute_done.
  - reflexivity.
  - intros text. discriminate.
  - repeat apply conj;
      [exact Hstatus | exact Haudio | exact (proj1 (Hout (conj eq_refl eq_refl)))].
Defined.

End OrchestratorMore.

(* ================================================================= *)
(** ** The calls of a run of [transcript_downloader] *)

Module RunMore.
Import VideoId TranscriptDownloader.

Ltac still :=
  repeat first
    [ apply appends_mret | apply appends_ret | apply appends_raise
    | apply appends_lift | apply appends_sys_exit
    | apply appends_create_file | apply appends_unlink | apply appends_exists
    | reflexivity
    | apply appends_bind_closed; [apply closed_nil | | intros ?] ].

Ltac captions :=
  repeat first
    [ apply appends_mret | apply appends_ret | apply appends_raise
    | apply appends_lift | apply appends_log
    | apply appends_bind_closed; [apply closed_Forall | | intros ?] ];
  try (repeat constructor).

Lemma appends_after_silent {A B} (P : list call -> Prop) (m : M A)
    (f : A -> M B) :
  silent m -> (forall a, appends P (f a)) -> P [] -> appends P (m ≫= f).
Proof.
  intros Hm Hf H0. eapply appends_bind; [exact Hm | exact Hf | |].
  - now intros l ->.
  - now intros l1 l2 -> H2.
Qed.

Lemma appends_then_silent {A B} (P : list call -> Prop) (m : M A)
    (f : A -> M B) :
  appends P m -> (forall a, silent (f a)) -> appends P (m ≫= f).
Proof.
  intros Hm Hf. eapply appends_bind; [exact Hm | exact Hf | auto |].
  cbn. intros l1 l2 H1 ->. now rewrite app_nil_r.
Qed.

(** A computation that always raises: what follows it never runs. *)
Lemma appends_of_raising {A B} (P : list call -> Prop) (m : M A)
    (f : A -> M B) :
  (forall w, exists e, fst (m w) = Raise e) ->
  appends P m -> appends P (m ≫= f).
Proof.
  intros Hraises Hm w. unfold mbind, M_bind, bind.
  destruct (Hraises w) as [e He]. specialize (Hm w).
  destruct (m w) as [[a|e'] w1]; cbn in *; [discriminate | exact Hm].
Qed.

Lemma appends_ret_bind {A B} (P : list call -> Prop) (a : A) (f : A -> M B) :
  appends P (f a) -> appends P (ret a ≫= f).
Proof. intros H w. exact (H w). Qed.

Section WithEnv.
Variable E : env.

Lemma try_languages_requests video_id languages :
  appends (Forall (fun c => is_caption c = true))
    (try_languages E video_id languages).
Proof.
  induction languages as [|lang rest IH]; cbn [try_languages]; captions.
  destruct (api_get_transcript E video_id (Some lang)); captions. exact IH.
Qed.

Lemma get_transcript_requests video_id languages :
  appends (Forall (fun c => is_caption c = true))
    (get_transcript E video_id languages).
Proof.
  unfold get_transcript.
  apply appends_try_except_closed; [apply closed_Forall | |].
  - apply appends_bind_closed;
      [apply closed_Forall | apply try_languages_requests | intros found].
    destruct found; captions.
    destruct (api_get_transcript E video_id None); captions.
  - repeat constructor. intros e. cbn. captions.
Qed.

Lemma probe_languages_requests video_id langs :
  appends (Forall (fun c => is_caption c = true))
    (probe_languages E video_id langs).
Proof.
  induction langs as [|lang rest IH]; cbn [probe_languages]; captions.
  exact IH.
Qed.

Lemma main_captions_requests a video_id languages :
  appends (fun l => Forall (fun c => is_caption c = true) l /\ (audio_only a = true -> l = []))
    (main_captions E a video_id languages).
Proof.
  unfold main_captions. destruct (audio_only a); cbn [negb].
  { apply appends_ret. split; [constructor | reflexivity]. }
  eapply appends_weaken with (P1 := Forall (fun c => is_caption c = true));
    [|intros l Hl; split; [exact Hl | discriminate]].
  apply appends_try_except_closed; [apply closed_Forall | |].
  - apply appends_bind_closed;
      [apply closed_Forall | apply get_transcript_requests | intros [data lang]].
    apply appends_bind_closed; [apply closed_Forall | | intros text; captions].
    unfold format_transcript.
    repeat match goal with
           | |- appends _ (if ?b then _ else _) => destruct b
           end; captions.
  - repeat constructor. intros e. cbn. captions.
Qed.

Lemma download_audio_once url output_dir :
  appends
    (fun l => l = [CallYtDlp url (path_join output_dir "%(id)s.%(ext)s")])
    (download_audio E url output_dir).
Proof.
  unfold download_audio.
  eapply appends_try_except with (P2 := fun new => new = []).
  - apply appends_log_then.
    destruct (yt_dlp E url _) as [files failure].
    apply appends_bind_closed;
      [apply closed_nil | apply appends_create_files, closed_nil | intros _].
    destruct failure; still.
    match goal with |- appends _ (if ?b then _ else _) => destruct b end;
      still.
  - reflexivity.
  - repeat constructor. intros e. cbn. still.
  - intros l1 l2 -> ->. reflexivity.
Qed.

Lemma main_audio_fallback_grammar a languages :
  appends
    (fun l =>
       exists engines,
         l = CallYtDlp (args_url a)
               (path_join (path_join (gettempdir E) "youtube_transcripts")
                  "%(id)s.%(ext)s") :: engines
         /\ engine_calls (use_local_whisper a) (WHISPER_AVAILABLE E) engines)
    (main_audio_fallback E a languages).
Proof.
  unfold main_audio_fallback.
  eapply appends_bind
    with (P1 := fun l =>
                  l = [CallYtDlp (args_url a)
                         (path_join
                            (path_join (gettempdir E) "youtube_transcripts")
                            "%(id)s.%(ext)s")])
         (P2 := engine_calls (use_local_whisper a) (WHISPER_AVAILABLE E)).
  - eapply appends_try_except with (P2 := fun new => new = []).
    + apply download_audio_once.
    + reflexivity.
    + repeat constructor. intros e. cbn.
      apply OrchestratorFacts.on_transcription_error_appends, closed_nil.
    + intros l1 l2 -> ->. reflexivity.
  - intros audio_file. apply appends_then_silent; [|intros text; still].
    eapply appends_try_except with (P2 := fun new => new = []).
    + apply OrchestratorFacts.main_engines_calls.
    + reflexivity.
    + repeat constructor. intros e. cbn.
      apply OrchestratorFacts.on_transcription_error_appends, closed_nil.
    + intros l1 l2 H1 ->. now rewrite app_nil_r.
  - intros l ->. exists []. split; [reflexivity | now left].
  - intros l1 l2 -> H2. exists l2. split; [reflexivity | exact H2].
Qed.

Ltac grammar :=
  repeat apply conj;
  first [ reflexivity | assumption | now left | intros; congruence
        | intros _; assumption | apply List.Forall_nil | now right
        | idtac ].

Lemma run_grammar_nil a : run_grammar E a [].
Proof.
  exists [], [], []. grammar.
Qed.

Lemma main_body_grammar a : appends (run_grammar E a) (main_body E a).
Proof.
  unfold main_body.
  apply appends_after_silent; [still | | apply run_grammar_nil].
  intros video_id. destruct (list_transcripts a) eqn:Hlist.
  { apply appends_then_silent; [|intros; still].
    eapply appends_weaken; [apply probe_languages_requests|].
    intros l Hl. exists l, [], []. rewrite app_nil_r. grammar. }
  eapply appends_bind
    with (P1 := fun l => Forall (fun c => is_caption c = true) l /\ (audio_only a = true -> l = []))
         (P2 := fun l =>
                  l = [] \/
                  exists engines,
                    l = CallYtDlp (args_url a)
                          (path_join
                             (path_join (gettempdir E) "youtube_transcripts")
                             "%(id)s.%(ext)s") :: engines
                    /\ engine_calls (use_local_whisper a)
                         (WHISPER_AVAILABLE E) engines).
  - apply main_captions_requests.
  - intros captions. apply appends_then_silent.
    + destruct captions as [text|].
      * apply appends_mret. now left.
      * apply appends_then_silent; [|intros [text audio_file]; still].
        eapply appends_weaken; [apply main_audio_fallback_grammar|].
        intros l H. now right.
    + intros [text audio_file]. apply appends_bind_closed.
      * apply closed_nil.
      * apply OrchestratorFacts.save_transcript_appends, closed_nil.
      * intros _. apply OrchestratorFacts.cleanup_appends, closed_nil.
  - intros l [Hl Haudio]. exists l, [], []. rewrite app_nil_r. grammar.
  - intros l1 l2 [Hl Haudio] [->|(engines & -> & Hengines)].
    + exists l1, [], []. grammar.
    + exists l1, [CallYtDlp (args_url a)
                    (path_join (path_join (gettempdir E) "youtube_transcripts")
                       "%(id)s.%(ext)s")], engines.
      grammar.
Qed.

(** Every run of [transcript_downloader], however it ends, adds to the log
    caption requests, then at most one download, then the engine calls:
    no engine is called before the audio was downloaded, nothing is
    downloaded twice, a listing downloads nothing, and [--audio-only] asks
    for no captions. *)
Theorem main_call_grammar (a : args) (w : world) :
  exists new,
    calls (snd (main E a w)) = (calls w ++ new)%list /\ run_grammar E a new.
Proof.
  revert w. change (appends (run_grammar E a) (main E a)).
  unfold main. eapply appends_try_except with (P2 := fun new => new = []).
  - apply main_body_grammar.
  - reflexivity.
  - repeat constructor; intros e; cbn;
      apply OrchestratorFacts.on_error_appends, closed_nil.
  - intros l1 l2 H1 ->. now rewrite app_nil_r.
Qed.



End WithEnv.


(* ----------------------------------------------------------------- *)
(** *** The list of languages *)

Lemma comma_is_comma (c : ascii) :
  Chars.is_char "," c = true -> c = ","%char.
Proof.
  destruct c as [[] [] [] [] [] [] [] []]; vm_compute; intros H;
    first [discriminate | reflexivity].
Qed.

Lemma comma_eqb (c : ascii) : Ascii.eqb "," c = Chars.is_char "," c.
Proof. destruct c as [[] [] [] [] [] [] [] []]; reflexivity. Qed.

Lemma contains_comma_cons (c : ascii) (s : string) :
  contains "," (String c s) = Chars.is_char "," c || contains "," s.
Proof.
  cbn [contains strip_prefix]. rewrite comma_eqb.
  now destruct (Chars.is_char "," c).
Qed.

Lemma contains_comma_snoc (acc : string) (c : ascii) :
  contains "," acc = false -> Chars.is_char "," c = false ->
  contains "," (acc ++ String c "") = false.
Proof.
  intros Hacc Hc. induction acc as [|x acc IH].
  - change ("" ++ String c "") with (String c "").
    now rewrite contains_comma_cons, Hc.
  - rewrite contains_comma_cons in Hacc.
    apply orb_false_elim in Hacc as [Hx Hacc].
    rewrite append_cons, contains_comma_cons, Hx. now apply IH.
Qed.

Lemma split_comma_round_trip (acc s : string) :
  contains "," acc = false ->
  String.concat "," (split_comma acc s) = acc ++ s
  /\ Forall (fun f => contains "," f = false) (split_comma acc s)
  /\ exists first rest, split_comma acc s = first :: rest.
Proof.
  revert acc. induction s as [|c s IH]; intros acc Hacc; cbn [split_comma].
  - split; [cbn; now rewrite append_empty|].
    split; [now repeat constructor | eauto].
  - destruct (Chars.is_char "," c) eqn:Hc.
    + destruct (IH "" eq_refl) as (Hjoin & Hfields & first & rest & Hsplit).
      split; [|split; [now constructor | eauto]].
      rewrite Hsplit in Hjoin |- *. cbn [String.concat] in Hjoin |- *.
      rewrite Hjoin, (comma_is_comma c Hc). reflexivity.
    + destruct (IH (acc ++ String c "") (contains_comma_snoc _ _ Hacc Hc))
        as (Hjoin & Hfields & Hsome).
      split; [|split; assumption].
      rewrite Hjoin, VideoIdMore.append_assoc. reflexivity.
Qed.

(** The language argument is split at its commas and nothing is lost:
    joined by commas the fields give the argument back, and no field
    holds a comma.  There is always a first field, so the primary language
    of the engines is that field, stripped, and never the fallback [en]. *)
Theorem language_fields_round_trip (languages_argument : string) :
  let fields := split_comma "" languages_argument in
  String.concat "," fields = languages_argument
  /\ Forall (fun f => contains "," f = false) fields
  /\ match map strip fields with
     | lang :: _ => lang
     | [] => "en"
     end = strip (List.hd "" fields).
Proof.
  cbv zeta.
  destruct (split_comma_round_trip "" languages_argument eq_refl)
    as (Hjoin & Hfields & first & rest & Hsplit).
  split; [exact Hjoin|]. split; [exact Hfields|].
  now rewrite Hsplit.
Qed.

End RunMore.

(* ================================================================= *)
(** ** More on [podcast_transcriber] *)

Module PodcastMore.
Import PodcastTranscriber.

(* ----------------------------------------------------------------- *)
(** *** The file name made from the title *)

Lemma word_not_separator (c : ascii) :
  Chars.word c = true ->
  Chars.is_char "-" c = false /\ Chars.space c = false.
Proof.
  destruct c as [[] [] [] [] [] [] [] []]; vm_compute; intros H;
    first [discriminate | split; reflexivity].
Qed.

Lemma slash_not_safe (c : ascii) :
  safe_char c = true -> Ascii.eqb "/" c = false.
Proof.
  destruct c as [[] [] [] [] [] [] [] []]; vm_compute; intros H;
    first [discriminate | reflexivity].
Qed.

Lemma dash_is_dash (c : ascii) : Chars.is_char "-" c = true -> c = "-"%char.
Proof.
  destruct c as [[] [] [] [] [] [] [] []]; vm_compute; intros H;
    first [discriminate | reflexivity].
Qed.

Lemma single_dashes_cons (a b : ascii) (s : string) :
  single_dashes (String a (String b s))
  = negb (Chars.is_char "-" a && Chars.is_char "-" b)
    && single_dashes (String b s).
Proof. reflexivity. Qed.

Lemma keep_safe_chars (s : string) :
  string_forallb
    (fun c => Chars.word c || Chars.space c || Chars.is_char "-" c)
    (keep_safe s) = true.
Proof.
  induction s as [|c s IH]; [reflexivity|]. cbn [keep_safe].
  destruct (Chars.word c || Chars.space c || Chars.is_char "-" c) eqn:Hc;
    [|exact IH].
  cbn [string_forallb]. now rewrite Hc.
Qed.

Lemma collapse_runs_chars (in_run : bool) (s : string) :
  string_forallb
    (fun c => Chars.word c || Chars.space c || Chars.is_char "-" c) s = true ->
  string_forallb safe_char (collapse_runs in_run s) = true.
Proof.
  revert in_run. induction s as [|c s IH]; intros in_run H; [reflexivity|].
  cbn [string_forallb] in H. apply andb_prop in H as [Hc Hs].
  cbn [collapse_runs].
  destruct (Chars.is_char "-" c || Chars.space c) eqn:Hsep.
  - destruct in_run; [now apply IH|].
    cbn [string_forallb]. now rewrite IH.
  - apply orb_false_elim in Hsep as [Hdash Hspace].
    rewrite Hdash, Hspace, !orb_false_r in Hc.
    cbn [string_forallb]. unfold safe_char at 1. rewrite Hc. cbn.
    now apply IH.
Qed.

Lemma collapse_runs_after_dash (s : string) :
  match collapse_runs true s with
  | String c _ => Chars.is_char "-" c = false
  | EmptyString => True
  end.
Proof.
  induction s as [|c s IH]; [exact I|]. cbn [collapse_runs].
  destruct (Chars.is_char "-" c || Chars.space c) eqn:Hsep; [exact IH|].
  now apply orb_false_elim in Hsep as [Hdash _].
Qed.

Lemma collapse_runs_single (in_run : bool) (s : string) :
  single_dashes (collapse_runs in_run s) = true.
Proof.
  revert in_run. induction s as [|c s IH]; intros in_run; [reflexivity|].
  cbn [collapse_runs].
  destruct (Chars.is_char "-" c || Chars.space c) eqn:Hsep.
  - destruct in_run; [apply IH|].
    pose proof (collapse_runs_after_dash s) as Hhead.
    specialize (IH true).
    destruct (collapse_runs true s) as [|b rest]; [reflexivity|].
    rewrite single_dashes_cons, Hhead, andb_false_r. exact IH.
  - apply orb_false_elim in Hsep as [Hdash _].
    specialize (IH false).
    destruct (collapse_runs false s) as [|b rest]; [reflexivity|].
    rewrite single_dashes_cons, Hdash. exact IH.
Qed.

Lemma take_chars (p : ascii -> bool) (n : nat) (s : string) :
  string_forallb p s = true -> string_forallb p (take n s) = true.
Proof.
  revert n. induction s as [|c s IH]; intros [|n] H; try reflexivity.
  cbn [string_forallb] in H. apply andb_prop in H as [Hc Hs].
  cbn [take string_forallb]. rewrite Hc. now apply IH.
Qed.

Lemma take_single (n : nat) (s : string) :
  single_dashes s = true -> single_dashes (take n s) = true.
Proof.
  revert n. induction s as [|a s IH]; intros [|n] H; try reflexivity.
  cbn [take]. specialize (IH n).
  destruct s as [|b s]; [now destruct n|].
  rewrite single_dashes_cons in H. apply andb_prop in H as [Hab Hs].
  destruct n as [|n]; [reflexivity|].
  cbn [take] in *. rewrite single_dashes_cons, Hab. now apply IH.
Qed.

Lemma take_length (n : nat) (s : string) : String.length (take n s) <= n.
Proof.
  revert s. induction n as [|n IH]; intros [|c s]; cbn; try lia.
  specialize (IH s). lia.
Qed.

Lemma take_short (n : nat) (s : string) :
  String.length s <= n -> take n s = s.
Proof.
  revert n. induction s as [|c s IH]; intros [|n] H; cbn in *;
    try reflexivity; try lia.
  rewrite IH; [reflexivity | lia].
Qed.

Lemma safe_no_slash (s : string) :
  string_forallb safe_char s = true -> contains "/" s = false.
Proof.
  induction s as [|c s IH]; intros H; [reflexivity|].
  cbn [string_forallb] in H. apply andb_prop in H as [Hc Hs].
  cbn [contains strip_prefix]. rewrite (slash_not_safe c Hc). now apply IH.
Qed.

Lemma keep_safe_fixed (s : string) :
  string_forallb safe_char s = true -> keep_safe s = s.
Proof.
  induction s as [|c s IH]; intros H; [reflexivity|].
  cbn [string_forallb] in H. apply andb_prop in H as [Hc Hs].
  cbn [keep_safe]. unfold safe_char in Hc.
  apply orb_prop in Hc as [Hc|Hc]; rewrite Hc, ?orb_true_r; cbn [orb];
    now rewrite IH.
Qed.

Lemma collapse_runs_fixed (s : string) :
  string_forallb safe_char s = true -> single_dashes s = true ->
  collapse_runs false s = s
  /\ (match s with
      | String c _ => Chars.is_char "-" c = false
      | EmptyString => True
      end -> collapse_runs true s = s).
Proof.
  induction s as [|c s IH]; intros H Hsingle; [split; reflexivity|].
  cbn [string_forallb] in H. apply andb_prop in H as [Hc Hs].
  assert (single_dashes s = true) as Hsingle'.
  { destruct s; [reflexivity|]. rewrite single_dashes_cons in Hsingle.
    now apply andb_prop in Hsingle as [_ ?]. }
  destruct (IH Hs Hsingle') as [IHfalse IHtrue].
  assert (Chars.is_char "-" c = false -> forall in_run,
            collapse_runs in_run (String c s) = String c s) as Hplain.
  { intros Hdash in_run. cbn [collapse_runs]. unfold safe_char in Hc.
    rewrite Hdash, orb_false_r in Hc.
    destruct (word_not_separator c Hc) as [_ Hspace].
    rewrite Hdash, Hspace. cbn [orb]. now rewrite IHfalse. }
  split; [|intros Hdash; now apply Hplain].
  destruct (Chars.is_char "-" c) eqn:Hdash; [|now apply Hplain].
  cbn [collapse_runs]. rewrite Hdash. cbn [orb].
  rewrite (dash_is_dash c Hdash). f_equal. apply IHtrue.
  destruct s as [|b s]; [exact I|].
  rewrite single_dashes_cons, Hdash in Hsingle.
  destruct (Chars.is_char "-" b); [discriminate | reflexivity].
Qed.

(** The file name made from an episode title is at most 50 characters of
    word characters and single dashes: it holds no blank, no dot and no
    path separator, so the audio file and the transcript lie directly in
    their directories.  A title that is such a name already is kept. *)
Theorem safe_filename_shape (E : env) (title : string) (w : world) :
  exists safe,
    safe_filename_of E (PStr title) w = (Ok safe, w)
    /\ String.length safe <= 50
    /\ string_forallb safe_char safe = true
    /\ single_dashes safe = true
    /\ contains "/" safe = false
    /\ safe_filename_of E (PStr safe) w = (Ok safe, w).
Proof.
  exists (take 50 (collapse_runs false (keep_safe title))).
  assert (string_forallb safe_char
            (take 50 (collapse_runs false (keep_safe title))) = true)
    as Hchars.
  { apply take_chars, collapse_runs_chars, keep_safe_chars. }
  assert (single_dashes (take 50 (collapse_runs false (keep_safe title)))
          = true) as Hsingle.
  { apply take_single, collapse_runs_single. }
  pose proof (take_length 50 (collapse_runs false (keep_safe title))) as Hlen.
  repeat apply conj; try assumption; try reflexivity.
  - now apply safe_no_slash.
  - cbn [safe_filename_of]. unfold ret.
    rewrite (keep_safe_fixed _ Hchars).
    rewrite (proj1 (collapse_runs_fixed _ Hchars Hsingle)).
    now rewrite (take_short _ _ Hlen).
Qed.

(* ----------------------------------------------------------------- *)
(** *** The locators *)

Lemma try_converts {A} (body : M A) (h : exn -> M A) (w : world) :
  (forall e w', exists msg, h e w' = (Raise (Exn Exception msg), w')) ->
  exists r,
    try_except body [(RequestException, h)] w = (r, snd (body w))
    /\ (forall a, r = Ok a -> fst (body w) = Ok a)
    /\ (forall e, r = Raise e -> is_a RequestException e = false)
    /\ (forall e, fst (body w) = Raise e ->
          is_a RequestException e = true -> r = fst (h e (snd (body w)))).
Proof.
  intros Hh. unfold try_except. destruct (body w) as [[a|e] w1]; cbn [fst snd].
  - eexists. split; [reflexivity|]. split; [now intros ? [= <-]|].
    split; discriminate.
  - cbn [handle]. destruct (is_a RequestException e) eqn:He.
    + destruct (Hh e w1) as [msg Hmsg]. rewrite Hmsg. eexists.
      split; [reflexivity|]. split; [discriminate|].
      split; [now intros ? [= <-]|]. intros ? [= <-] _. now rewrite Hmsg.
    + eexists. split; [reflexivity|]. split; [discriminate|].
      split; [intros ? [= <-]; exact He|]. intros ? [= <-]. congruence.
Qed.

Section Locators.
Variable E : env.

Lemma apple_body_frame url w :
  let body :=
    text ← fetch_page E url;
    let json_ld_matches := re_findall_group1 json_ld_pattern text in
    st ← lift (scan_blocks E apple_episode json_ld_matches initial);
    let st := with_scan apple_hosts text st in
    if truthy (audio_url st)
    then ret (audio_url st, episode_title st, show_title st)
    else raise (Exn Exception
                  "Could not extract audio URL from Apple Podcasts page") in
  snd (body w) = World (disk w) (calls w ++ [CallGetPage url])%list (stderr w)
  /\ (forall audio_url episode_title show_title,
        fst (body w) = Ok (audio_url, episode_title, show_title) ->
        truthy audio_url = true).
Proof.
  cbv beta iota zeta delta [mbind M_bind bind fetch_page log lift ret raise].
  destruct (requests_get E url) as [e|status_code http_error text];
    [split; [reflexivity | discriminate]|].
  destruct (_ && _); [split; [reflexivity | discriminate]|].
  match goal with
  | |- context [scan_blocks E ?episode ?blocks ?st0] =>
      destruct (scan_blocks E episode blocks st0) as [st|e];
        [|split; [reflexivity | discriminate]]
  end.
  destruct (truthy (audio_url (with_scan apple_hosts text st))) eqn:Hurl;
    [|split; [reflexivity | discriminate]].
  split; [reflexivity|]. cbn [fst]. intros ? ? ? [= <- _ _]. exact Hurl.
Qed.

Lemma acast_body_frame url w :
  let body :=
    text ← fetch_page E url;
    let json_ld_matches := re_findall_group1 json_ld_pattern text in
    st ← lift (scan_blocks E acast_episode json_ld_matches initial);
    let st := with_scan acast_hosts text st in
    let st :=
      match direct_audio_url url with
      | Some u =>
          if negb (truthy (audio_url st)) && negb (String.eqb u "")
          then Found (PStr u) (episode_title st) (show_title st)
          else st
      | None => st
      end in
    if truthy (audio_url st)
    then ret (audio_url st, episode_title st, show_title st)
    else raise (Exn Exception "Could not extract audio URL from Acast page") in
  snd (body w) = World (disk w) (calls w ++ [CallGetPage url])%list (stderr w)
  /\ (forall audio_url episode_title show_title,
        fst (body w) = Ok (audio_url, episode_title, show_title) ->
        truthy audio_url = true).
Proof.
  cbv beta iota zeta delta [mbind M_bind bind fetch_page log lift ret raise].
  destruct (requests_get E url) as [e|status_code http_error text];
    [split; [reflexivity | discriminate]|].
  destruct (_ && _); [split; [reflexivity | discriminate]|].
  match goal with
  | |- context [scan_blocks E ?episode ?blocks ?st0] =>
      destruct (scan_blocks E episode blocks st0) as [st|e];
        [|split; [reflexivity | discriminate]]
  end.
  match goal with
  | |- context [if truthy (audio_url ?st') then _ else _] =>
      destruct (truthy (audio_url st')) eqn:Hurl;
        [|split; [reflexivity | discriminate]]
  end.
  split; [reflexivity|]. cbn [fst]. intros ? ? ? [= <- _ _]. exact Hurl.
Qed.

Lemma apple_keeps_contract :
  locator_contract (extract_apple_podcasts_audio_url E).
Proof.
  intros url w. unfold extract_apple_podcasts_audio_url.
  match goal with
  | |- context [try_except ?body [(RequestException, ?h)] w] =>
      destruct (try_converts body h w) as (r & Hrun & Hok & Hraise & _);
        [intros; eexists; reflexivity|]
  end.
  destruct (apple_body_frame url w) as [Hframe Htrue].
  exists r. split; [rewrite Hrun; f_equal; exact Hframe|].
  split; [|exact Hraise]. intros u t s Hr. eapply Htrue, Hok, Hr.
Qed.

Lemma acast_keeps_contract :
  locator_contract (extract_acast_audio_url E).
Proof.
  intros url w. unfold extract_acast_audio_url.
  match goal with
  | |- context [try_except ?body [(RequestException, ?h)] w] =>
      destruct (try_converts body h w) as (r & Hrun & Hok & Hraise & _);
        [intros; eexists; reflexivity|]
  end.
  destruct (acast_body_frame url w) as [Hframe Htrue].
  exists r. split; [rewrite Hrun; f_equal; exact Hframe|].
  split; [|exact Hraise]. intros u t s Hr. eapply Htrue, Hok, Hr.
Qed.

(** Both locators keep the contract of a locator, whatever the page holds
    and however the request ends. *)
Theorem locators_keep_contract :
  locator_contract (extract_apple_podcasts_audio_url E)
  /\ locator_contract (extract_acast_audio_url E).
Proof.
  split.
  - intros url w. destruct (apple_keeps_contract url w) as (r & Hr).
    exists r. exact Hr.
  - intros url w. destruct (acast_keeps_contract url w) as (r & Hr).
    exists r. exact Hr.
Qed.

(** How the Apple locator fails.  A page that cannot be fetched ends it
    with the fetch error.  A page whose blocks are all passed over and
    that holds no audio link ends it with the complaint that nothing was
    found: the Apple locator has no address to fall back on. *)
Theorem apple_locator_failures (url : string) (w : world) :
  (forall msg,
     fetch_fails E url msg ->
     fst (extract_apple_podcasts_audio_url E url w)
     = Raise (Exn Exception ("Failed to fetch Apple Podcasts page: " ++ msg)))
  /\ (forall text,
        fetched E url text ->
        Forall (passed_over E) (re_findall_group1 json_ld_pattern text) ->
        re_findall audio_pattern text = [] ->
        fst (extract_apple_podcasts_audio_url E url w)
        = Raise (Exn Exception
                   "Could not extract audio URL from Apple Podcasts page")).
Proof.
  split.
  - intros msg Hf. destruct w as [d c s].
    destruct (LocatorFacts.fetch_page_fails E _ _ d c s Hf)
      as (cls & Hrun & Hcls).
    unfold extract_apple_podcasts_audio_url, try_except, mbind, M_bind, bind.
    rewrite Hrun. cbn [handle]. rewrite Hcls. reflexivity.
  - intros text Hf Hblocks Hlinks.
    rewrite (LocatorFacts.apple_located E url text initial w Hf).
    + unfold with_scan, pattern_scan. rewrite Hlinks. reflexivity.
    + pose proof (LocatorFacts.scan_blocks_passes_over E apple_episode
                    (re_findall_group1 json_ld_pattern text) [] initial)
        as Hscan.
      rewrite app_nil_r in Hscan. now apply Hscan.
Qed.

(** A page without a usable episode block gives no titles: whatever
    address the scan of the text or the Acast identifiers then provide, the
    episode is called [Unknown Episode] and the show [Unknown Show], so
    every such episode gets the same file names. *)
Theorem locators_default_titles (url text : string) (w : world) :
  fetched E url text ->
  Forall (passed_over E) (re_findall_group1 json_ld_pattern text) ->
  (forall address title show,
     fst (extract_apple_podcasts_audio_url E url w)
     = Ok (address, title, show)
     \/ fst (extract_acast_audio_url E url w) = Ok (address, title, show) ->
     title = PStr "Unknown Episode"
     /\ show = PStr "Unknown Show"
     /\ safe_filename_of E title w = (Ok "Unknown-Episode", w)).
Proof.
  intros Hf Hblocks address title show Hrun.
  assert (scan_blocks E apple_episode
            (re_findall_group1 json_ld_pattern text) initial = Ok initial
          /\ scan_blocks E acast_episode
               (re_findall_group1 json_ld_pattern text) initial = Ok initial)
    as [Happle Hacast].
  { split.
    - pose proof (LocatorFacts.scan_blocks_passes_over E apple_episode
                    (re_findall_group1 json_ld_pattern text) [] initial
                    Hblocks) as H.
      now rewrite app_nil_r in H.
    - pose proof (LocatorFacts.scan_blocks_passes_over E acast_episode
                    (re_findall_group1 json_ld_pattern text) [] initial
                    Hblocks) as H.
      now rewrite app_nil_r in H. }
  assert (title = PStr "Unknown Episode" /\ show = PStr "Unknown Show")
    as [-> ->].
  { destruct Hrun as [Hrun|Hrun].
    - rewrite (LocatorFacts.apple_located E url text initial w Hf Happle)
        in Hrun.
      cbv zeta in Hrun. unfold with_scan in Hrun. cbn [initial audio_url
        truthy negb] in Hrun.
      destruct (pattern_scan apple_hosts text);
        cbn [audio_url episode_title show_title initial] in Hrun;
        destruct (truthy _); inversion Hrun; split; reflexivity.
    - rewrite (LocatorFacts.acast_located E url text initial w Hf Hacast)
        in Hrun.
      cbv zeta in Hrun. unfold with_scan in Hrun. cbn [initial audio_url
        truthy negb] in Hrun.
      destruct (pattern_scan acast_hosts text);
        cbn [audio_url episode_title show_title initial] in Hrun;
        destruct (truthy _); try (inversion Hrun; split; reflexivity);
        destruct (direct_audio_url url) as [u|]; try discriminate;
        destruct (String.eqb u ""); inversion Hrun; split; reflexivity. }
  repeat apply conj; reflexivity.
Qed.

End Locators.

(* ----------------------------------------------------------------- *)
(** *** The download *)

Section Download.
Variable E : env.


(** What a download gives once the file name is known, step by step as
    the function goes: the directory, the request, the status, the length
    header, the file, the body. *)
Lemma podcast_download_steps (u output_dir : string)
    (filename : option string) (name : string) (w : world) :
  let dir := Path output_dir in
  let file := path_join dir name in
  let asked := World (disk w) (calls w ++ [CallGetMedia u (referer_for u)])
                 (stderr w) in
  let opened := World (disk w ∪ {[ file ]})
                  (calls w ++ [CallGetMedia u (referer_for u)])
                  (stderr w) in
  let reraised (e : exn) :=
    if is_a RequestException e
    then Exn Exception ("Failed to download audio: " ++ exn_msg e)
    else e in
  (forall w', filename_for E (PStr u) filename w' = (Ok name, w')) ->
  download_audio E (PStr u) output_dir filename w
  = match fs_mkdir E (disk w) dir with
    | Some msg => (Raise (Exn OtherError msg), w)
    | None =>
        match requests_get_stream E u (referer_for u) with
        | StreamRaises e => (Raise (reraised e), asked)
        | StreamResponse status_code http_error length_error body_error =>
            if Z.leb 400 status_code && Z.ltb status_code 600
            then (Raise (Exn Exception
                           ("Failed to download audio: " ++ http_error)),
                  asked)
            else
              match length_error with
              | Some msg => (Raise (Exn ValueError msg), asked)
              | None =>
                  match fs_open E (disk w) file with
                  | Some msg => (Raise (Exn OtherError msg), asked)
                  | None =>
                      match body_error with
                      | Some e => (Raise (reraised e), opened)
                      | None => (Ok file, opened)
                      end
                  end
              end
        end
    end.
Proof.
  intros dir file asked opened reraised Hname.
  subst dir file asked opened reraised.
  unfold download_audio, mbind, M_bind.
  unfold bind at 1. unfold mkdir.
  destruct (fs_mkdir E (disk w) (Path output_dir)); [reflexivity|].
  unfold bind at 1. rewrite Hname. unfold try_except.
  cbv beta iota delta [bind log ret raise].
  destruct (requests_get_stream E u (referer_for u))
    as [e|status_code http_error length_error body_error].
  - cbn [handle]. now destruct (is_a RequestException e).
  - destruct (Z.leb 400 status_code && Z.ltb status_code 600);
      [reflexivity|].
    destruct length_error as [msg|]; [reflexivity|].
    unfold open_w, create_file. cbn [disk calls stderr].
    destruct (fs_open E (disk w) _); [reflexivity|].
    cbv beta iota. destruct body_error as [e|]; [|reflexivity].
    cbn [handle]. now destruct (is_a RequestException e).
Qed.



End Download.

(* ----------------------------------------------------------------- *)
(** *** [main] *)

Section Main.
Variable E : env.

(** An address of neither platform: the run ends with status 1 after one
    line on standard error; nothing is requested and nothing written. *)
Theorem podcast_main_unsupported_platform (a : args) (w : world) :
  contains "acast.com" (args_url a) = false ->
  contains "podcasts.apple.com" (args_url a) = false ->
  main E a w
  = (Raise (SystemExit 1),
     World (disk w) (calls w)
       (stderr w
        ++ [("Error: Unsupported platform. Currently only Acast and "
             ++ "Apple Podcasts are supported.")%string])%list).
Proof.
  intros Hacast Happle. unfold main, try_except, main_body.
  rewrite Hacast, Happle. reflexivity.
Qed.

Lemma mp3_name_nonempty (safe : string) :
  nonempty (Some (safe ++ ".mp3")) = Some (safe ++ ".mp3").
Proof. now destruct safe. Qed.





Lemma locator_requests (locate : string -> M (pyval * pyval * pyval)) url :
  locator_contract locate ->
  appends (fun l => l = [CallGetPage url]) (locate url).
Proof.
  intros Hcontract w. destruct (Hcontract url w) as (r & Hrun & _).
  rewrite Hrun. eexists. split; reflexivity.
Qed.

(** A download raises before any request, or makes one request. *)
Lemma podcast_download_requests audio_url output_dir name w :
  nonempty (Some name) = Some name ->
  (exists e, download_audio E audio_url output_dir (Some name) w
             = (Raise e, w))
  \/ (exists u r d,
        audio_url = PStr u
        /\ download_audio E audio_url output_dir (Some name) w
           = (r, World d (calls w ++ [CallGetMedia u (referer_for u)])
                   (stderr w))).
Proof.
  intros Hname.
  destruct audio_url as [| | | |u| |];
    try (left; unfold download_audio, filename_for, mkdir, mbind, M_bind,
           bind; rewrite Hname;
         destruct (fs_mkdir E (disk w) (Path output_dir)); eexists;
         reflexivity).
  rewrite (podcast_download_steps E u output_dir (Some name) name w)
    by (intros w'; unfold filename_for; now rewrite Hname).
  cbv zeta.
  destruct (fs_mkdir E (disk w) (Path output_dir)); [left; eauto|].
  right. exists u.
  destruct (requests_get_stream E u (referer_for u))
    as [e|status_code http_error length_error body_error]; [eauto|].
  destruct (_ && _); [eauto|].
  destruct length_error; [eauto|].
  destruct (fs_open E (disk w) _); [eauto|].
  destruct body_error; eauto.
Qed.

Lemma podcast_engine_requests audio_file language model_size :
  appends
    (fun l =>
       l = []
       \/ (l = [CallWhisper model_size audio_file (whisper_language language)]
           /\ WHISPER_AVAILABLE E = true))
    (transcribe_audio E audio_file language model_size).
Proof.
  eapply appends_weaken; [apply EngineFacts.podcast_whisper_calls|].
  intros l ->. destruct (WHISPER_AVAILABLE E); [right | now left].
  split; [|reflexivity]. unfold whisper_language.
  now destruct (String.eqb language "auto").
Qed.

(** Every run of [podcast_transcriber], however it ends, adds to the log
    at most three calls: the request for the page, then the request for
    the media, then the engine. *)
Theorem podcast_main_call_grammar (a : args) (w : world) :
  exists new,
    calls (snd (main E a w)) = (calls w ++ new)%list
    /\ podcast_run_grammar E a new.
Proof.
  revert w. change (appends (podcast_run_grammar E a) (main E a)).
  unfold main. eapply appends_try_except with (P2 := fun new => new = []).
  2: reflexivity.
  2:{ repeat constructor. intros e. cbn.
      apply appends_bind_closed;
        [apply closed_nil | now apply appends_eprint | intros _].
      now apply appends_sys_exit. }
  2:{ intros l1 l2 H1 ->. rewrite app_nil_r. exact H1. }
  unfold main_body.
  match goal with
  | |- appends _ (?locate ≫= _) =>
      assert ((forall w, exists e, fst (locate w) = Raise e)
              /\ appends (fun l => l = []) locate
              \/ appends (fun l => l = [CallGetPage (args_url a)]) locate)
        as [[Hraises Hsilent]|Hpage]
  end.
  { pose proof (apple_keeps_contract E) as Happle.
    pose proof (acast_keeps_contract E) as Hacast.
    destruct (contains "acast.com" (args_url a));
      [right; apply (locator_requests _ _ Hacast)|].
    destruct (contains "podcasts.apple.com" (args_url a));
      [right; apply (locator_requests _ _ Happle)|].
    left. split; [intros w; eexists; reflexivity|].
    apply appends_bind_closed;
      [apply closed_nil | now apply appends_eprint | intros _].
    now apply appends_sys_exit. }
  { apply RunMore.appends_of_raising; [exact Hraises|].
    eapply appends_weaken; [exact Hsilent | intros l ->; now left]. }
  eapply appends_bind
    with (P1 := fun l => l = [CallGetPage (args_url a)])
         (P2 := fun l =>
                  l = []
                  \/ (exists u, l = [CallGetMedia u (referer_for u)])
                  \/ (exists u audio_file,
                        l = [CallGetMedia u (referer_for u);
                             CallWhisper (args_model a) audio_file
                               (whisper_language (args_language a))]
                        /\ WHISPER_AVAILABLE E = true)).
  - exact Hpage.
  - intros [[audio_url episode_title] show_title].
    apply RunMore.appends_after_silent; [| |now left].
    { destruct episode_title; cbn; first [now apply appends_ret
                                         | now apply appends_raise]. }
    intros safe_filename.
    intros w0. unfold mbind, M_bind, bind.
    destruct (podcast_download_requests audio_url
                (match nonempty (audio_dir a) with
                 | Some d => Path d
                 | None => path_join (gettempdir E) "podcast_audio"
                 end)
                (safe_filename ++ ".mp3") w0
                (mp3_name_nonempty safe_filename))
      as [[e ->]|(u & r & d & -> & ->)].
    { exists []. rewrite app_nil_r. split; [reflexivity | now left]. }
    destruct r as [audio_file|e];
      [|eexists; split; [reflexivity | right; left; eauto]].
    assert (appends
              (fun l =>
                 l = []
                 \/ (l = [CallWhisper (args_model a) audio_file
                            (whisper_language (args_language a))]
                     /\ WHISPER_AVAILABLE E = true))
              (transcribe_audio E audio_file (args_language a)
                 (args_model a) ≫=
               (fun transcript_text =>
                  save_transcript E transcript_text
                    (match nonempty (args_output a) with
                     | Some p => Path p
                     | None => path_join "transcripts"
                                 (safe_filename ++ ".txt")
                     end) ;;
                  found ← exists_ audio_file;
                  if negb (keep_audio a) && found then unlink audio_file
                  else ret tt))) as Hrest.
    { apply RunMore.appends_then_silent;
        [apply podcast_engine_requests|].
      intros transcript_text. unfold save_transcript.
      repeat (apply appends_bind_closed; [apply closed_nil | | intros ?]);
        first [now apply appends_mkdir | now apply appends_open_w
              | now apply appends_exists | idtac].
      destruct (_ && _);
        [now apply appends_unlink | now apply appends_ret]. }
    match goal with
    | |- context [World d ?c ?s] =>
        destruct (Hrest (World d c s)) as (new & Hcalls & Hnew)
    end.
    unfold mbind, M_bind, bind in Hcalls. cbn [calls] in Hcalls.
    exists (CallGetMedia u (referer_for u) :: new).
    split.
    + etransitivity; [exact Hcalls|]. now rewrite <- app_assoc.
    + destruct Hnew as [->|[-> Havailable]];
        [right; left; eauto | right; right; eauto].
  - intros l ->. right. now left.
  - intros l1 l2 -> [->|[[u ->]|(u & audio_file & -> & Havailable)]]; cbn.
    + right. now left.
    + right. right. left. eauto.
    + right. right. right. eauto.
Qed.

End Main.

Lemma apple_locator_failures_witness :
  fst (extract_apple_podcasts_audio_url Worked.web
         "https://podcasts.apple.com/us/podcast/ep/id9" Worked.empty_world)
  = Raise (Exn Exception
             ("Failed to fetch Apple Podcasts page: "
              ++ "Name or service not known")).
Proof.
  apply (proj1 (apple_locator_failures Worked.web
                  "https://podcasts.apple.com/us/podcast/ep/id9"
                  Worked.empty_world)).
  apply (fails_transport _ _ ConnectionError); reflexivity.
Defined.

Lemma locators_default_titles_witness :
  fst (extract_apple_podcasts_audio_url Worked.web
         "https://podcasts.apple.com/us/podcast/ep/id1" Worked.empty_world)
  = Ok (PStr "https://blog.example.org/acast-review/ep1.mp3",
        PStr "Unknown Episode", PStr "Unknown Show")
  /\ safe_filename_of Worked.web (PStr "Unknown Episode") Worked.empty_world
     = (Ok "Unknown-Episode", Worked.empty_world).
Proof.
  split; [vm_compute; reflexivity|].
  apply (locators_default_titles Worked.web
           "https://podcasts.apple.com/us/podcast/ep/id1" Worked.page_links
           Worked.empty_world)
    with (address := PStr "https://blog.example.org/acast-review/ep1.mp3")
         (show := PStr "Unknown Show").
  - exists 200%Z, "". split; [reflexivity | lia].
  - vm_compute. constructor.
  - left. vm_compute. reflexivity.
Defined.

Lemma podcast_main_unsupported_platform_witness :
  fst (main Worked.web (Worked.podcast_args "https://example.org/episode")
         Worked.empty_world)
  = Raise (SystemExit 1).
Proof.
  rewrite (podcast_main_unsupported_platform Worked.web
             (Worked.podcast_args "https://example.org/episode")
             Worked.empty_world eq_refl eq_refl).
  reflexivity.
Defined.


End PodcastMore.

(* ================================================================= *)
(** ** How a run ends *)

Module StatusMore.

(* ----------------------------------------------------------------- *)
(** *** The two properties, step by step *)

Section Steps.
Context {A B : Type}.

Lemma mute_ret (a : A) : mute (ret a).
Proof. intros w. split; reflexivity. Qed.

Lemma mute_mret (a : A) : mute (mret a : M A).
Proof. apply mute_ret. Qed.

Lemma mute_raise (e : exn) : is_exit e = false -> mute (raise e : M A).
Proof. intros He w. split; [exact He | reflexivity]. Qed.

Lemma mute_lift (r : result A) : exits r = false -> mute (lift r).
Proof. intros Hr w. split; [exact Hr | reflexivity]. Qed.

Lemma mute_bind (m : M A) (f : A -> M B) :
  mute m -> (forall a, mute (f a)) -> mute (m ≫= f).
Proof.
  intros Hm Hf w. unfold mbind, M_bind, bind.
  destruct (Hm w) as [Hx Hs]. destruct (m w) as [[a|e] w1]; cbn in *.
  - destruct (Hf a w1) as [Hx' Hs']. split; [exact Hx' | congruence].
  - split; assumption.
Qed.

Lemma mute_handle (clauses : list (exn_class * (exn -> M A))) (e : exn) :
  is_exit e = false ->
  Forall (fun ch => forall e', is_exit e' = false -> mute (snd ch e'))
    clauses ->
  mute (handle clauses e).
Proof.
  intros He Hc. induction Hc as [|[c h] rest Hh _ IH]; cbn [handle].
  - now apply mute_raise.
  - destruct (is_a c e); [apply Hh, He | exact IH].
Qed.

Lemma mute_try_except (body : M A)
    (clauses : list (exn_class * (exn -> M A))) :
  mute body ->
  Forall (fun ch => forall e, is_exit e = false -> mute (snd ch e)) clauses ->
  mute (try_except body clauses).
Proof.
  intros Hb Hc w. unfold try_except.
  destruct (Hb w) as [Hx Hs]. destruct (body w) as [[a|e] w1]; cbn in *.
  - split; [reflexivity | exact Hs].
  - destruct (mute_handle clauses e Hx Hc w1) as [Hx' Hs'].
    split; [exact Hx' | congruence].
Qed.

Lemma mute_log (c : call) : mute (log c).
Proof. intros w. split; reflexivity. Qed.

Lemma mute_create_file (path : string) : mute (create_file path).
Proof. intros w. split; reflexivity. Qed.

Lemma mute_unlink (path : string) : mute (unlink path).
Proof. intros w. split; reflexivity. Qed.

Lemma mute_exists (path : string) : mute (exists_ path).
Proof. intros w. split; reflexivity. Qed.

Lemma mute_mkdir (E : env) (path : string) : mute (mkdir E path).
Proof.
  intros w. unfold mkdir. destruct (fs_mkdir E (disk w) path); now split.
Qed.

Lemma mute_open_w (E : env) (path : string) : mute (open_w E path).
Proof.
  intros w. unfold open_w. destruct (fs_open E (disk w) path); now split.
Qed.

Lemma mute_open_rb (E : env) (path : string) : mute (open_rb E path).
Proof.
  intros w. unfold open_rb. destruct (bool_decide _); now split.
Qed.

Variable L : string -> Prop.

Lemma reports_mute (m : M A) : mute m -> reports L m.
Proof. intros Hm w. left. apply Hm. Qed.

Lemma reports_bind (m : M A) (f : A -> M B) :
  reports L m -> (forall a, reports L (f a)) -> reports L (m ≫= f).
Proof.
  intros Hm Hf w. unfold mbind, M_bind, bind.
  destruct (Hm w) as [[Hx Hs]|[Hx (line & Hl & Hs)]];
    destruct (m w) as [[a|e] w1]; cbn in *.
  - destruct (Hf a w1) as [[Hx' Hs']|[Hx' (line & Hl & Hs')]].
    + left. split; [exact Hx' | congruence].
    + right. split; [exact Hx'|]. exists line. split; [exact Hl | congruence].
  - left. split; assumption.
  - discriminate.
  - injection Hx as ->. right. split; [reflexivity|]. exists line.
    split; assumption.
Qed.

Lemma reports_handle (clauses : list (exn_class * (exn -> M A))) (e : exn) :
  is_exit e = false ->
  Forall (fun ch => forall e', is_exit e' = false -> reports L (snd ch e'))
    clauses ->
  reports L (handle clauses e).
Proof.
  intros He Hc. induction Hc as [|[c h] rest Hh _ IH]; cbn [handle].
  - apply reports_mute. now apply mute_raise.
  - destruct (is_a c e); [apply Hh, He | exact IH].
Qed.

Lemma handle_exit (clauses : list (exn_class * (exn -> M A))) (code : Z) :
  handle clauses (SystemExit code) = raise (SystemExit code).
Proof.
  induction clauses as [|[c h] rest IH]; [reflexivity|]. cbn [handle is_a].
  exact IH.
Qed.

Lemma reports_try_except (body : M A)
    (clauses : list (exn_class * (exn -> M A))) :
  reports L body ->
  Forall (fun ch => forall e, is_exit e = false -> reports L (snd ch e))
    clauses ->
  reports L (try_except body clauses).
Proof.
  intros Hb Hc w. unfold try_except.
  destruct (Hb w) as [[Hx Hs]|[Hx (line & Hl & Hs)]];
    destruct (body w) as [[a|e] w1]; cbn in *.
  - left. split; [reflexivity | exact Hs].
  - destruct (reports_handle clauses e Hx Hc w1)
      as [[Hx' Hs']|[Hx' (line & Hl & Hs')]].
    + left. split; [exact Hx' | congruence].
    + right. split; [exact Hx'|]. exists line. split; [exact Hl | congruence].
  - discriminate.
  - injection Hx as ->. rewrite handle_exit. cbn.
    right. split; [reflexivity|]. exists line. split; assumption.
Qed.

(** Printing one line and exiting with status 1, with steps in between
    that return and print nothing. *)
Lemma reports_eprint_exit (line : string) (between : M unit) :
  L line ->
  (forall w, fst (between w) = Ok tt /\ stderr (snd (between w)) = stderr w) ->
  reports L (eprint line ;; between ;; sys_exit 1 : M A).
Proof.
  intros Hl Hb w. right. unfold mbind, M_bind, bind, eprint, sys_exit, raise.
  cbn. destruct (Hb (World (disk w) (calls w) (stderr w ++ [line])%list))
    as [Hx Hs].
  destruct (between _) as [[[]|e] w1]; cbn in *; [|discriminate].
  split; [reflexivity|]. exists line. split; [exact Hl | exact Hs].
Qed.

End Steps.

Lemma mute_create_files (paths : list string) : mute (create_files paths).
Proof.
  induction paths as [|p ps IH]; cbn [create_files].
  - apply mute_ret.
  - apply mute_bind; [apply mute_create_file | intros _; exact IH].
Qed.


Ltac hush :=
  repeat first
    [ apply mute_mret | apply mute_ret | apply mute_log
    | apply mute_create_file | apply mute_unlink | apply mute_exists
    | apply mute_mkdir | apply mute_open_w | apply mute_open_rb
    | apply mute_create_files
    | apply mute_raise; reflexivity
    | apply mute_bind; [ | intros ?] ].

Ltac each_clause :=
  repeat first [apply List.Forall_nil | apply List.Forall_cons];
  try (intros ? ?; cbn [snd]).

Ltac hush_handlers := each_clause; hush.

Lemma extract_video_id_no_exit (url : string) :
  exits (VideoId.extract_video_id url) = false.
Proof.
  unfold VideoId.extract_video_id.
  destruct (re_match _ _); [reflexivity|].
  now destruct (VideoId.first_group1 _ _).
Qed.

(* ----------------------------------------------------------------- *)
(** *** [transcript_downloader] *)

Section TranscriptDownloader.
Import TranscriptDownloader.
Variable E : env.
Hypothesis HE : no_collaborator_exits E.

Lemma mute_try_languages video_id languages :
  mute (try_languages E video_id languages).
Proof.
  induction languages as [|lang rest IH]; cbn [try_languages]; hush.
  destruct (api_get_transcript E video_id (Some lang)); hush. exact IH.
Qed.

Lemma mute_get_transcript video_id languages :
  mute (get_transcript E video_id languages).
Proof.
  unfold get_transcript. apply mute_try_except; [|hush_handlers].
  hush; [apply mute_try_languages|].
  match goal with |- mute (match ?x with _ => _ end) => destruct x end; hush.
  destruct (api_get_transcript E video_id None); hush.
Qed.

Lemma mute_format_transcript transcript_data format_type :
  mute (format_transcript E transcript_data format_type).
Proof.
  destruct HE as (Hformatter & _). unfold format_transcript.
  repeat match goal with
         | |- mute (if ?b then _ else _) => destruct b
         end; hush; apply mute_lift, Hformatter.
Qed.

Lemma mute_save_transcript text path : mute (save_transcript E text path).
Proof. unfold save_transcript. hush. destruct text; hush. Qed.

Lemma mute_download_audio url output_dir :
  mute (download_audio E url output_dir).
Proof.
  destruct HE as (_ & Hyt & _). unfold download_audio.
  apply mute_try_except; [|hush_handlers]. hush.
  specialize (Hyt url (path_join output_dir "%(id)s.%(ext)s")).
  destruct (yt_dlp E url _) as [files failure]. hush.
  destruct failure as [e|].
  - apply mute_raise, Hyt. reflexivity.
  - hush; [apply mute_lift, extract_video_id_no_exit|].
    match goal with |- mute (if ?b then _ else _) => destruct b end; hush.
Qed.

Lemma mute_py_subscript key v : mute (py_subscript E key v).
Proof. destruct v; cbn; hush. Qed.

Lemma mute_segment_texts segments : mute (segment_texts E segments).
Proof.
  induction segments as [|v rest IH]; cbn [segment_texts]; hush.
  destruct v; hush. exact IH.
Qed.

Lemma mute_join_space ts : mute (join_space E ts).
Proof.
  induction ts as [|v rest IH]; cbn [join_space]; hush.
  destruct v; hush. exact IH.
Qed.

Lemma mute_join_segments v : mute (join_segments E v).
Proof.
  destruct v as [| | | |s|l|d]; cbn; hush.
  - destruct s; hush.
  - apply mute_segment_texts.
  - apply mute_join_space.
  - destruct d as [|[k x] d]; hush.
Qed.

Lemma mute_transcribe_with_whishper audio_file whishper_url language :
  mute (transcribe_with_whishper E audio_file whishper_url language).
Proof.
  destruct HE as (_ & _ & _ & Hpost & _).
  unfold transcribe_with_whishper, whishper_clauses, whishper_post.
  apply mute_try_except; [|hush_handlers]. hush.
  match goal with
  | |- mute (match requests_post E ?u ?f ?l with _ => _ end) =>
      specialize (Hpost u f l); destruct (requests_post E u f l)
        as [e|status text json]
  end.
  - apply mute_raise, Hpost.
  - destruct (Z.eqb status 200); [|hush].
    hush; [apply mute_lift, Hpost|].
    match goal with
    | |- mute (match py_in "text" ?r with _ => _ end) =>
        destruct (py_in "text" r) as [[|]|];
          [apply mute_py_subscript | | hush];
        destruct (py_in "segments" r) as [[|]|]; [ | hush | hush]
    end.
    hush; [apply mute_py_subscript | apply mute_join_segments].
Qed.

Lemma mute_transcribe_with_local_whisper audio_file language model_size :
  mute (transcribe_with_local_whisper E audio_file language model_size).
Proof.
  destruct HE as (_ & _ & Hwhisper & _). unfold transcribe_with_local_whisper.
  destruct (negb (WHISPER_AVAILABLE E)); [hush|].
  apply mute_try_except; [|hush_handlers]. hush.
  apply mute_lift, Hwhisper.
Qed.

Lemma mute_probe_languages video_id langs :
  mute (probe_languages E video_id langs).
Proof.
  induction langs as [|lang rest IH]; cbn [probe_languages]; hush. exact IH.
Qed.

Lemma cleanup_returns audio_file keep w :
  fst (cleanup audio_file keep w) = Ok tt
  /\ stderr (snd (cleanup audio_file keep w)) = stderr w.
Proof.
  destruct audio_file as [f|]; cbn; [|split; reflexivity].
  unfold mbind, M_bind, bind, exists_. cbn.
  destruct (bool_decide _ && negb keep); split; reflexivity.
Qed.

Lemma mute_cleanup audio_file keep : mute (cleanup audio_file keep).
Proof.
  intros w. destruct (cleanup_returns audio_file keep w) as [Hr Hs].
  split; [now rewrite Hr | exact Hs].
Qed.

Lemma mute_main_engines a audio_file primary_language :
  mute (main_engines E a audio_file primary_language).
Proof.
  unfold main_engines. destruct (use_local_whisper a || WHISPER_AVAILABLE E).
  - apply mute_try_except; [apply mute_transcribe_with_local_whisper|].
    each_clause.
    destruct (use_local_whisper a).
    + apply mute_raise. assumption.
    + apply mute_transcribe_with_whishper.
  - apply mute_transcribe_with_whishper.
Qed.

Lemma reports_on_transcription_error {A} a audio_file e :
  reports transcript_downloader_error (on_transcription_error (A := A) a audio_file e).
Proof.
  unfold on_transcription_error. apply reports_eprint_exit.
  - exists (exn_msg e). now right.
  - apply cleanup_returns.
Qed.

Lemma reports_main_audio_fallback a languages :
  reports transcript_downloader_error
    (main_audio_fallback E a languages).
Proof.
  unfold main_audio_fallback. apply reports_bind.
  - apply reports_try_except; [apply reports_mute, mute_download_audio|].
    each_clause. apply reports_on_transcription_error.
  - intros audio_file. apply reports_bind.
    + apply reports_try_except; [apply reports_mute, mute_main_engines|].
      each_clause. apply reports_on_transcription_error.
    + intros text. apply reports_mute. hush.
Qed.

Lemma mute_main_captions a video_id languages :
  mute (main_captions E a video_id languages).
Proof.
  unfold main_captions. destruct (negb (audio_only a)); [|hush].
  apply mute_try_except; [|hush_handlers].
  hush; [apply mute_get_transcript|].
  match goal with x : (_ * _)%type |- _ => destruct x end.
  hush. apply mute_format_transcript.
Qed.

Lemma reports_main_body a :
  reports transcript_downloader_error (main_body E a).
Proof.
  unfold main_body. apply reports_bind.
  { apply reports_mute, mute_lift, extract_video_id_no_exit. }
  intros video_id. destruct (list_transcripts a).
  { apply reports_mute, mute_bind; [apply mute_probe_languages | intros; hush]. }
  apply reports_bind; [apply reports_mute, mute_main_captions|].
  intros captions. apply reports_bind.
  - destruct captions as [text|]; [apply reports_mute; hush|].
    apply reports_bind; [apply reports_main_audio_fallback|].
    intros [text audio_file]. apply reports_mute. hush.
  - intros [text audio_file].
    apply reports_mute, mute_bind;
      [apply mute_save_transcript | intros _; apply mute_cleanup].
Qed.

(** Every run of [transcript_downloader] ends in one of two ways, as long
    as no collaborator ends the process itself: with status 0 and nothing
    on standard error, or with status 1 and exactly one line there, which
    names an error.  No exception leaves [main], and no other status is
    used. *)
Theorem main_ends_with_status_0_or_1 (a : args) (w : world) :
  (fst (main E a w) = Ok tt /\ stderr (snd (main E a w)) = stderr w)
  \/ (fst (main E a w) = Raise (SystemExit 1)
      /\ exists line,
           transcript_downloader_error line
           /\ stderr (snd (main E a w)) = (stderr w ++ [line])%list).
Proof.
  unfold main, try_except.
  destruct (reports_main_body a w) as [[Hx Hs]|[Hx (line & Hl & Hs)]];
    destruct (main_body E a w) as [[[]|e] w1]; cbn [fst snd] in *.
  - left. split; [reflexivity | exact Hs].
  - right. destruct e as [cls msg|code]; [|discriminate].
    assert (handle [(ValueError, on_error (A := unit));
                    (Exception, on_error (A := unit))] (Exn cls msg) w1
            = (Raise (SystemExit 1),
               World (disk w1) (calls w1)
                 (stderr w1 ++ [(nl ++ "Error: " ++ msg)%string])%list))
      as ->.
    { cbn [handle]. destruct (is_a ValueError (Exn cls msg)); reflexivity. }
    cbn [fst snd stderr]. split; [reflexivity|].
    exists (nl ++ "Error: " ++ msg). split; [exists msg; now left|].
    now rewrite Hs.
  - discriminate.
  - injection Hx as ->. rewrite handle_exit. cbn.
    right. split; [reflexivity|]. exists line. split; assumption.
Qed.

End TranscriptDownloader.

(* ----------------------------------------------------------------- *)
(** *** [podcast_transcriber] *)

Section PodcastTranscriber.
Import PodcastTranscriber.
Variable E : env.
Hypothesis HE : no_collaborator_exits E.

Lemma mute_fetch_page url : mute (fetch_page E url).
Proof.
  destruct HE as (_ & _ & _ & _ & Hget & _). unfold fetch_page. hush.
  specialize (Hget url).
  destruct (requests_get E url) as [e|status_code http_error text].
  - now apply mute_raise.
  - destruct (_ && _); hush.
Qed.

Lemma scan_blocks_no_exit episode blocks st :
  exits (scan_blocks E episode blocks st) = false.
Proof.
  destruct HE as (_ & _ & _ & _ & _ & _ & Hjson).
  revert st. induction blocks as [|json_str rest IH]; intros st;
    cbn [scan_blocks]; [reflexivity|].
  specialize (Hjson json_str).
  destruct (json_loads E json_str) as [data|e].
  - destruct (is_podcast_episode data) as [d|]; [|apply IH].
    destruct (truthy _); [reflexivity | apply IH].
  - destruct (is_a JSONDecodeError e); [apply IH | exact Hjson].
Qed.

Lemma mute_extract_apple url : mute (extract_apple_podcasts_audio_url E url).
Proof.
  unfold extract_apple_podcasts_audio_url.
  apply mute_try_except; [|hush_handlers].
  apply mute_bind; [apply mute_fetch_page | intros text].
  apply mute_bind; [apply mute_lift, scan_blocks_no_exit | intros st].
  destruct (truthy _); hush.
Qed.

Lemma mute_extract_acast url : mute (extract_acast_audio_url E url).
Proof.
  unfold extract_acast_audio_url.
  apply mute_try_except; [|hush_handlers].
  apply mute_bind; [apply mute_fetch_page | intros text].
  apply mute_bind; [apply mute_lift, scan_blocks_no_exit | intros st].
  destruct (truthy _); hush.
Qed.

Lemma mute_filename_for audio_url filename :
  mute (filename_for E audio_url filename).
Proof.
  unfold filename_for. destruct (nonempty filename); [hush|].
  destruct audio_url; hush. destruct (_ || _); hush.
Qed.

Lemma mute_podcast_download_audio audio_url output_dir filename :
  mute (download_audio E audio_url output_dir filename).
Proof.
  destruct HE as (_ & _ & _ & _ & _ & Hstream & _). unfold download_audio.
  apply mute_bind; [apply mute_mkdir | intros _].
  apply mute_bind; [apply mute_filename_for | intros name].
  apply mute_try_except; [|hush_handlers].
  destruct audio_url as [| | | |u| |]; hush.
  specialize (Hstream u (referer_for u)).
  destruct (requests_get_stream E u (referer_for u))
    as [e|status_code http_error length_error body_error].
  - now apply mute_raise.
  - destruct (_ && _); hush.
    destruct length_error as [msg|]; hush.
    destruct body_error as [e|]; [now apply mute_raise | hush].
Qed.

Lemma mute_transcribe_audio audio_file language model_size :
  mute (transcribe_audio E audio_file language model_size).
Proof.
  destruct HE as (_ & _ & Hwhisper & _). unfold transcribe_audio.
  destruct (negb (WHISPER_AVAILABLE E)); [hush|].
  apply mute_try_except; [|hush_handlers]. hush.
  apply mute_lift, Hwhisper.
Qed.

Lemma mute_safe_filename_of episode_title :
  mute (safe_filename_of E episode_title).
Proof. destruct episode_title; cbn; hush. Qed.

Lemma reports_main_body_podcast a :
  reports podcast_transcriber_error (main_body E a).
Proof.
  unfold main_body. apply reports_bind.
  { destruct (contains "acast.com" (args_url a));
      [apply reports_mute, mute_extract_acast|].
    destruct (contains "podcasts.apple.com" (args_url a));
      [apply reports_mute, mute_extract_apple|].
    intros w. right. split; [reflexivity|]. eexists. split; [|reflexivity].
    now left. }
  intros [[audio_url episode_title] show_title]. apply reports_mute.
  apply mute_bind; [apply mute_safe_filename_of | intros safe_filename].
  apply mute_bind; [apply mute_podcast_download_audio | intros audio_file].
  apply mute_bind; [apply mute_transcribe_audio | intros transcript_text].
  apply mute_bind; [unfold save_transcript; hush | intros _].
  apply mute_bind; [apply mute_exists | intros found].
  destruct (_ && _); hush.
Qed.

(** Every run of [podcast_transcriber] ends in one of two ways, as long
    as no collaborator ends the process itself: with status 0 and nothing
    on standard error, or with status 1 and exactly one line there, which
    names an error. *)
Theorem podcast_main_ends_with_status_0_or_1 (a : args) (w : world) :
  (fst (main E a w) = Ok tt /\ stderr (snd (main E a w)) = stderr w)
  \/ (fst (main E a w) = Raise (SystemExit 1)
      /\ exists line,
           podcast_transcriber_error line
           /\ stderr (snd (main E a w)) = (stderr w ++ [line])%list).
Proof.
  unfold main, try_except.
  destruct (reports_main_body_podcast a w) as [[Hx Hs]|[Hx (line & Hl & Hs)]];
    destruct (main_body E a w) as [[[]|e] w1]; cbn [fst snd] in *.
  - left. split; [reflexivity | exact Hs].
  - right. destruct e as [cls msg|code]; [|discriminate].
    rewrite <- Hs. split; [reflexivity|].
    exists (nl ++ "Error: " ++ msg). split; [right; now exists msg|].
    reflexivity.
  - discriminate.
  - injection Hx as ->. cbn.
    right. split; [reflexivity|]. exists line. split; assumption.
Qed.

End PodcastTranscriber.

Ltac no_exits :=
  repeat apply conj; intros; cbn;
  repeat match goal with
         | |- context [if ?b then _ else _] => destruct b
         end;
  first [reflexivity | discriminate | exact I].

Lemma with_whisper_no_exits : no_collaborator_exits Worked.with_whisper.
Proof. no_exits. Qed.

Lemma web_no_exits : no_collaborator_exits Worked.web.
Proof.
  unfold no_collaborator_exits, Worked.web, Worked.serve, Worked.loads.
  no_exits.
Qed.

Lemma main_ends_with_status_0_or_1_witness :
  no_collaborator_exits Worked.with_whisper
  /\ fst (TranscriptDownloader.main Worked.with_whisper Worked.default_args
            Worked.empty_world) = Ok tt.
Proof.
  split; [exact with_whisper_no_exits|].
  destruct (main_ends_with_status_0_or_1 Worked.with_whisper
              with_whisper_no_exits Worked.default_args Worked.empty_world)
    as [[Hstatus _]|[Hstatus _]].
  - exact Hstatus.
  - vm_compute in Hstatus. discriminate.
Defined.

Lemma podcast_main_ends_with_status_0_or_1_witness :
  no_collaborator_exits Worked.web
  /\ exists line,
       podcast_transcriber_error line
       /\ stderr (snd (PodcastTranscriber.main Worked.web
                         (Worked.podcast_args "https://example.org/episode")
                         Worked.empty_world))
          = [line].
Proof.
  split; [exact web_no_exits|].
  destruct (podcast_main_ends_with_status_0_or_1 Worked.web web_no_exits
              (Worked.podcast_args "https://example.org/episode")
              Worked.empty_world)
    as [[Hstatus _]|[_ Hline]].
  - vm_compute in Hstatus. discriminate.
  - exact Hline.
Defined.

End StatusMore.
